(** * RL-chrome-dino: the MDP estimation and planning core of [agent.py]

    A shallow embedding of the class [AIAgent] and a verification of its
    discretizer, its model refit, its value iteration and its
    epsilon-greedy policy.

    Numbers.  The numpy arrays of the model (counts, probabilities, rewards,
    values) and the parameters [gamma], [tolerance], [max_dx] hold binary64
    floats in the source.  The development has two models of them.

    - The exact model: rationals [Q] in place of the floats.  It carries the
      statements that rounding does not touch (which entries a call writes,
      which exceptions it raises, the shapes, the counts, the bounds) and
      the statements made of exact arithmetic and said to be so.

    - The binary64 model, in the module [Binary64]: [spec_float] with 53
      bits of precision, operation by operation.  It carries the two places
      where the result of the code depends on rounding: the discretizer,
      whose bucket is the least of computed distances, and the
      value-iteration loop, whose exit is a comparison with the tolerance.

    The exploration coefficient [eps] is a binary64 float in both. *)

From Stdlib Require Import QArith Qabs Qminmax Lqa ZArith SpecFloat.
From stdpp Require Import base option list gmap strings.

Open Scope string_scope.
Open Scope list_scope.

(** ** Errors and results *)

(** The exceptions the code can raise, and running out of fuel for its one
    unbounded loop. *)
Inductive error := KeyError | ValueError | IndexError.

Inductive result (A : Type) :=
  | Ok (a : A)
  | Raise (e : error)
  | OutOfFuel.
Arguments Ok {A} a.
Arguments Raise {A} e.
Arguments OutOfFuel {A}.

#[global] Instance result_ret : MRet result := λ A a, Ok a.
#[global] Instance result_bind : MBind result := λ A B f r,
  match r with
  | Ok a => f a
  | Raise e => Raise e
  | OutOfFuel => OutOfFuel
  end.

Definition from_option {A} (e : error) (o : option A) : result A :=
  match o with Some a => Ok a | None => Raise e end.

(** ** Module constants *)

Definition OBSTACLE_TYPES : gmap string nat :=
  {[ "CACTUS_SMALL" := 0%nat; "CACTUS_LARGE" := 1%nat; "PTERODACTYL" := 2%nat ]}.
Definition MAX_CONSECUTIVE_OBS : nat := 3.
Definition PTERODACTYL_HEIGHTS : list Z := [50; 75; 100]%Z.

(** ** Data *)

(** The dictionary [dino.get_state()] returns when there is an obstacle;
    an absent obstacle ([None] or the empty dictionary, both falsy) is
    [None : option obstacle]. *)
Record obstacle := { type : string; config : Q; dx : Q }.

(** The command-line arguments the agent reads. *)
Record Args := { arg_gamma : Q; arg_tolerance : Q; n_x : nat; max_dx : Q }.

(** [transition_counts] and [transition_probs]: shape
    (num_states, 3, num_states), indexed [s, a, s']. *)
Abbreviation tensor := (list (list (list Q))).

Record MDP := {
  num_states : nat;
  state_discretization : list Q * list Q * list Q;
  transition_counts : tensor;
  transition_probs : tensor;
  reward_counts : list (Q * Q);
  reward : list Q;
  value : list Q
}.

(** ** numpy helpers *)

Definition Qnat (n : nat) : Q := inject_Z (Z.of_nat n).

(** [np.linspace(0, stop, num)]: [num] evenly spaced points from 0 to
    [stop]; a single point is the start. *)
Definition linspace0 (stop : Q) (num : nat) : list Q :=
  map (λ i, Qnat i * (stop / Qnat (num - 1)))%Q (seq 0 num).

(** [np.argmin]: the index of the first occurrence of the minimum;
    [ValueError] on an empty array. *)
Fixpoint argmin_from (best : nat) (bv : Q) (i : nat) (l : list Q) : nat :=
  match l with
  | [] => best
  | x :: l' =>
      if Qlt_le_dec x bv then argmin_from i x (S i) l'
      else argmin_from best bv (S i) l'
  end.

Definition argmin (l : list Q) : result nat :=
  match l with
  | [] => Raise ValueError
  | x :: l' => Ok (argmin_from 0 x 1 l')
  end.

(** [abs(grid - x)] *)
Definition abs_diff (grid : list Q) (x : Q) : list Q :=
  map (λ g, Qabs (g - x))%Q grid.

Definition np_sum (l : list Q) : Q := foldr Qplus 0%Q l.

(** ** The state discretizer *)

Definition get_closest_state_idx (mdp : MDP) (state : option obstacle)
    (isFail : bool) : result nat :=
  let '(dx_s, dn_cactus_s, dy_pter_s) := state_discretization mdp in
  match state with
  | None => Ok 1%nat
  | Some st =>
      obs_type ← from_option KeyError (OBSTACLE_TYPES !! type st);
      j ← (if decide (type st = "PTERODACTYL")
           then argmin (abs_diff dy_pter_s (config st))
           else argmin (abs_diff dn_cactus_s (config st)));
      k ← argmin (abs_diff dx_s (dx st));
      Ok ((if isFail then 0 else 1)
          * (obs_type * length dy_pter_s * length dx_s + j * length dx_s + k + 2))%nat
  end.

(** ** Model initialisation *)

Definition initialize_mdp_data (a : Args) : MDP :=
  let num_states :=
    (((size OBSTACLE_TYPES - 1) * MAX_CONSECUTIVE_OBS
      + 1 * length PTERODACTYL_HEIGHTS) * n_x a + 2)%nat in
  let dx_s := linspace0 (max_dx a) (n_x a) in
  let dn_cactus_s := map Qnat (seq 1 MAX_CONSECUTIVE_OBS) in
  let dy_pter_s := map inject_Z PTERODACTYL_HEIGHTS in
  {| num_states := num_states;
     state_discretization := (dx_s, dn_cactus_s, dy_pter_s);
     transition_counts := replicate num_states (replicate 3 (replicate num_states 0%Q));
     transition_probs :=
       replicate num_states (replicate 3 (replicate num_states (1 / Qnat num_states)%Q));
     reward_counts := replicate num_states (0%Q, 0%Q);
     reward := replicate num_states 0%Q;
     value := replicate num_states 0%Q |}.

(** ** Counting transitions *)

Definition set_counts (mdp : MDP) (tc : tensor) (rc : list (Q * Q)) : MDP :=
  {| num_states := num_states mdp;
     state_discretization := state_discretization mdp;
     transition_counts := tc;
     transition_probs := transition_probs mdp;
     reward_counts := rc;
     reward := reward mdp;
     value := value mdp |}.

(** [action] is the index the agent stores (0, 1 or 2); an index outside
    an array raises [IndexError].  For a call with any Python integer, see
    [update_mdp_counts_int]. *)
Definition update_mdp_counts (mdp : MDP) (state : option obstacle) (action : nat)
    (new_state : option obstacle) (r : Q) (isCrashed : bool) : result MDP :=
  s ← get_closest_state_idx mdp state false;
  new_s ← get_closest_state_idx mdp new_state isCrashed;
  rows ← from_option IndexError (transition_counts mdp !! s);
  row ← from_option IndexError ((rows : list (list Q)) !! action);
  c ← from_option IndexError ((row : list Q) !! new_s);
  rc ← from_option IndexError (reward_counts mdp !! new_s);
  Ok (set_counts mdp
        (alter (alter (alter (λ c, c + 1)%Q new_s) action) s (transition_counts mdp))
        (alter (λ '(acc, n), (acc + r, n + 1))%Q new_s (reward_counts mdp))).

(** numpy's reading of a Python integer as an index into an axis of length
    [n]: a negative index counts from the end, and an index outside
    [-n, n) raises [IndexError]. *)
Definition normalize_index (n : nat) (i : Z) : result nat :=
  if ((0 <=? i) && (i <? Z.of_nat n))%Z then Ok (Z.to_nat i)
  else if ((- Z.of_nat n <=? i) && (i <? 0))%Z then Ok (Z.to_nat (i + Z.of_nat n))
  else Raise IndexError.

(** [update_mdp_counts] called with any Python integer as [action]: the
    action axis has length 3, so -1, -2 and -3 stand for 2, 1 and 0. *)
Definition update_mdp_counts_int (mdp : MDP) (state : option obstacle) (action : Z)
    (new_state : option obstacle) (r : Q) (isCrashed : bool) : result MDP :=
  s ← get_closest_state_idx mdp state false;
  new_s ← get_closest_state_idx mdp new_state isCrashed;
  rows ← from_option IndexError (transition_counts mdp !! (s : nat));
  a ← normalize_index (length (rows : list (list Q))) action;
  update_mdp_counts mdp state a new_state r isCrashed.

(** ** Refit and value iteration, in exact arithmetic *)

(** One (s, a) row: replaced by the normalised counts when at least one
    transition was observed, kept otherwise. *)
Definition refit_row (counts probs : list Q) : list Q :=
  let total := np_sum counts in
  if Qlt_le_dec 0 total then map (λ c, c / total)%Q counts else probs.

Definition refit_probs (counts probs : tensor) : tensor :=
  zip_with (zip_with refit_row) counts probs.

Definition refit_reward (rc : list (Q * Q)) (rew : list Q) : list Q :=
  zip_with (λ '(acc, n) r, if Qlt_le_dec 0 n then (acc / n)%Q else r) rc rew.

Definition set_estimates (mdp : MDP) (tp : tensor) (rew : list Q) : MDP :=
  {| num_states := num_states mdp;
     state_discretization := state_discretization mdp;
     transition_counts := transition_counts mdp;
     transition_probs := tp;
     reward_counts := reward_counts mdp;
     reward := rew;
     value := value mdp |}.

Definition set_value (mdp : MDP) (v : list Q) : MDP :=
  {| num_states := num_states mdp;
     state_discretization := state_discretization mdp;
     transition_counts := transition_counts mdp;
     transition_probs := transition_probs mdp;
     reward_counts := reward_counts mdp;
     reward := reward mdp;
     value := v |}.

Definition dot (u v : list Q) : Q := np_sum (zip_with Qmult u v).

(** [np.dot(P[:, a, :], v)] *)
Definition action_values (P : tensor) (a : nat) (v : list Q) : list Q :=
  map (λ rows, dot (rows !!! a) v) P.

(** [np.max] of a non-empty array (the arrays here have [num_states >= 2]
    entries). *)
Definition np_max (l : list Q) : Q :=
  match l with
  | [] => 0%Q
  | x :: l' => foldl Qmax x l'
  end.

(** The Bellman update of one sweep, from the value vector [v]. *)
Definition bellman (mdp : MDP) (gamma : Q) (v : list Q) : list Q :=
  let value_nojump := action_values (transition_probs mdp) 0 v in
  let value_jump := action_values (transition_probs mdp) 1 v in
  zip_with Qplus (reward mdp)
    (map (Qmult gamma) (zip_with Qmax value_nojump value_jump)).

Definition max_abs_diff (new_value old : list Q) : Q :=
  np_max (map Qabs (zip_with Qminus new_value old)).

(** The [while True] loop; [fuel] bounds the number of sweeps run. *)
Fixpoint value_iteration (fuel : nat) (gamma tol : Q) (mdp : MDP) : result MDP :=
  match fuel with
  | O => OutOfFuel
  | S fuel' =>
      let new_value := bellman mdp gamma (value mdp) in
      let max_diff := max_abs_diff new_value (value mdp) in
      let mdp' := set_value mdp new_value in
      if Qlt_le_dec max_diff tol then Ok mdp'
      else value_iteration fuel' gamma tol mdp'
  end.

Definition refit_estimates (mdp : MDP) : MDP :=
  set_estimates mdp
    (refit_probs (transition_counts mdp) (transition_probs mdp))
    (refit_reward (reward_counts mdp) (reward mdp)).

Definition update_mdp_parameters (fuel : nat) (gamma tol : Q) (mdp : MDP) : result MDP :=
  value_iteration fuel gamma tol (refit_estimates mdp).

(** ** The policy *)

Definition Qgtb (x y : Q) : bool := if Qlt_le_dec y x then true else false.
Definition Qgeb (x y : Q) : bool := if Qlt_le_dec x y then false else true.

Definition best_action (mdp : MDP) (state : option obstacle) : result nat :=
  s ← get_closest_state_idx mdp state false;
  rows ← from_option IndexError (transition_probs mdp !! s);
  r0 ← from_option IndexError (rows !! 0%nat);
  r1 ← from_option IndexError (rows !! 1%nat);
  r2 ← from_option IndexError (rows !! 2%nat);
  let score_nothing := dot r0 (value mdp) in
  let score_jump := dot r1 (value mdp) in
  let score_duck := dot r2 (value mdp) in
  Ok (Nat.b2n (Qgtb score_jump score_nothing && Qgeb score_jump score_duck) * 1
      + Nat.b2n (Qgtb score_duck score_nothing && Qgtb score_duck score_jump) * 2)%nat.

(** ** binary64 *)

Definition prec : Z := 53.
Definition emax : Z := 1024.
Definition fadd : spec_float → spec_float → spec_float := SFadd prec emax.
Definition fmul : spec_float → spec_float → spec_float := SFmul prec emax.
Definition fdiv : spec_float → spec_float → spec_float := SFdiv prec emax.
Definition fltb : spec_float → spec_float → bool := SFltb.
Definition fleb : spec_float → spec_float → bool := SFleb.
Definition feqb : spec_float → spec_float → bool := SFeqb.
Definition float_of_Z (z : Z) : spec_float := binary_normalize prec emax z 0 false.

(** The literals [1.], [0.] and [0.01]; the last is the binary64 nearest to
    1/100, which is what the correctly rounded division gives. *)
Definition f1 : spec_float := float_of_Z 1.
Definition f0 : spec_float := float_of_Z 0.
Definition f0_01 : spec_float := fdiv (float_of_Z 1) (float_of_Z 100).

(** ** The agent *)

Record AIAgent := {
  args : Args;
  gamma : Q;
  eps : spec_float;
  tolerance : Q;
  mdp_data : MDP;
  state : option obstacle;
  action : nat
}.

(** [__init__]; [dino_state] is what [dino.get_state()] returns. *)
Definition init (a : Args) (dino_state : option obstacle) : AIAgent :=
  {| args := a;
     gamma := arg_gamma a;
     eps := f1;
     tolerance := arg_tolerance a;
     mdp_data := initialize_mdp_data a;
     state := dino_state;
     action := 0 |}.

Definition get_reward (isCrashed : bool) : Q :=
  if isCrashed then (-1000)%Q else 1%Q.

(** [reset]: refit, make the policy greedier; [dino.start()] is the
    environment's. *)
Definition reset (fuel : nat) (self : AIAgent) : result AIAgent :=
  mdp' ← update_mdp_parameters fuel (gamma self) (tolerance self) (mdp_data self);
  Ok {| args := args self;
        gamma := gamma self;
        eps := fadd (eps self) f0_01;
        tolerance := tolerance self;
        mdp_data := mdp';
        state := state self;
        action := action self |}.

Definition set_action (self : AIAgent) (a : nat) : AIAgent :=
  {| args := args self;
     gamma := gamma self;
     eps := eps self;
     tolerance := tolerance self;
     mdp_data := mdp_data self;
     state := state self;
     action := a |}.

(** What [choose_action] asks of the Dino. *)
Inductive command := DoNothing | Jump | Duck.

Definition issue (a : nat) : command :=
  match a with
  | 1%nat => Jump
  | 2%nat => Duck
  | _ => DoNothing
  end.

(** [choose_action]; [r1] and [r2] are the draws of [np.random.rand()], in
    [0, 1): [r1] decides the branch, [r2] is drawn in the exploration branch
    only, where the action is the boolean [r2 < 0.01] (equal to 1 or 0). *)
Definition choose_action (self : AIAgent) (r1 r2 : spec_float)
    : result (AIAgent * command) :=
  a ← (if fltb r1 (eps self) then best_action (mdp_data self) (state self)
       else Ok (Nat.b2n (fltb r2 f0_01)));
  Ok (set_action self a, issue a).

(** [set_transition]; [isCrashed] and [new_state] are what
    [dino.is_crashed()] and [dino.get_state()] return. *)
Definition set_transition (self : AIAgent) (isCrashed : bool)
    (new_state : option obstacle) : result AIAgent :=
  let r := get_reward isCrashed in
  mdp' ← update_mdp_counts (mdp_data self) (state self) (action self) new_state r isCrashed;
  Ok {| args := args self;
        gamma := gamma self;
        eps := eps self;
        tolerance := tolerance self;
        mdp_data := mdp';
        state := new_state;
        action := action self |}.

(** * Specification vocabulary *)

(** [i] is the first index at which [l] takes its least value. *)
Definition first_argmin (l : list Q) (i : nat) : Prop :=
  ∃ x, l !! i = Some x
       ∧ (∀ j y, l !! j = Some y → (x <= y)%Q)
       ∧ (∀ j y, (j < i)%nat → l !! j = Some y → (x < y)%Q).

(** The grid of configuration buckets the discretizer searches for an
    obstacle of type [ty]: pterodactyl heights, or cactus counts. *)
Definition config_grid (ty : string) : list Q :=
  if decide (ty = "PTERODACTYL") then map inject_Z PTERODACTYL_HEIGHTS
  else map Qnat (seq 1 MAX_CONSECUTIVE_OBS).

(** [j] is the nearest bucket of [grid] to [x], the lowest one on a tie. *)
Definition nearest (grid : list Q) (x : Q) (j : nat) : Prop :=
  first_argmin (abs_diff grid x) j.

Definition valid_observation (state : option obstacle) : Prop :=
  match state with
  | None => True
  | Some st => is_Some (OBSTACLE_TYPES !! type st)
  end.

(** The same observation, up to equality of rationals. *)
Definition same_observation (s1 s2 : option obstacle) : Prop :=
  match s1, s2 with
  | None, None => True
  | Some o1, Some o2 =>
      type o1 = type o2 ∧ (config o1 == config o2)%Q ∧ (dx o1 == dx o2)%Q
  | _, _ => False
  end.


(** Every row of [P] is a probability distribution over the next state. *)
Definition row_stochastic (P : tensor) : Prop :=
  ∀ s rows a row, P !! s = Some rows → rows !! a = Some row →
    (np_sum row == 1)%Q ∧ Forall (Qle 0) row.

Definition nonneg_counts (C : tensor) : Prop :=
  ∀ s rows a row, C !! s = Some rows → rows !! a = Some row → Forall (Qle 0) row.

(** The shape (n, 3, n). *)
Definition tensor_shape (n : nat) (t : tensor) : Prop :=
  length t = n
  ∧ ∀ s rows, t !! s = Some rows →
      length rows = 3%nat ∧ ∀ a row, rows !! a = Some row → length row = n.

(** The shapes [initialize_mdp_data] gives the arrays of a model. *)
Definition mdp_shape (m : MDP) : Prop :=
  (2 <= num_states m)%nat
  ∧ tensor_shape (num_states m) (transition_counts m)
  ∧ tensor_shape (num_states m) (transition_probs m)
  ∧ length (reward_counts m) = num_states m
  ∧ length (reward m) = num_states m
  ∧ length (value m) = num_states m.

(** The calls that change the model: [update_mdp_counts] (recordTransition)
    and [update_mdp_parameters] (refit), the latter with its fuel. *)
Inductive call :=
  | RecordTransition (state : option obstacle) (action : nat)
      (new_state : option obstacle) (r : Q) (isCrashed : bool)
  | Refit (fuel : nat).

Definition run_call (gamma tol : Q) (m : MDP) (c : call) : result MDP :=
  match c with
  | RecordTransition st act new_st r crashed => update_mdp_counts m st act new_st r crashed
  | Refit fuel => update_mdp_parameters fuel gamma tol m
  end.

Fixpoint run_calls (gamma tol : Q) (m : MDP) (cs : list call) : result MDP :=
  match cs with
  | [] => Ok m
  | c :: cs' => m' ← run_call gamma tol m c; run_calls gamma tol m' cs'
  end.

(** [u] and [v] have the same length and differ by at most [d] at every
    index. *)
Definition close (d : Q) (u v : list Q) : Prop :=
  Forall2 (λ x y, (Qabs (x - y) <= d)%Q) u v.

Fixpoint Qpow (q : Q) (k : nat) : Q :=
  match k with
  | O => 1%Q
  | S k' => (q * Qpow q k')%Q
  end.

(** The value vector after [k] sweeps started from [v]. *)
Definition sweeps (m : MDP) (gamma : Q) (k : nat) (v : list Q) : list Q :=
  Nat.iter k (bellman m gamma) v.

(** The [max_diff] the loop computes in its sweep number [k] (from 0). *)
Definition sweep_diff (m : MDP) (gamma : Q) (k : nat) (v : list Q) : Q :=
  max_abs_diff (sweeps m gamma (S k) v) (sweeps m gamma k v).

(** ** A small instance *)

(** One distance bucket, hence 11 states; the tolerance is large enough for
    value iteration on the fresh model to stop after one sweep. *)
Definition example_args : Args :=
  {| arg_gamma := 1 # 2; arg_tolerance := 2; n_x := 1; max_dx := 600 |}.

Definition small_cactus_ahead : option obstacle :=
  Some {| type := "CACTUS_SMALL"; config := 1; dx := 0 |}.

(** One transition from "no obstacle" by JUMP to the first cactus state,
    then the refit at the end of the episode. *)
Definition example_calls : list call :=
  [RecordTransition None 1 small_cactus_ahead 1 false; Refit 1].

(** ** The life of an agent *)

(** What happens to an agent after [__init__]: it chooses an action (with
    the two random draws), records the transition the environment reports,
    or is reset at the end of an episode. *)
Inductive event :=
  | ChooseAction (r1 r2 : spec_float)
  | SetTransition (isCrashed : bool) (new_state : option obstacle)
  | Reset (fuel : nat).

Definition step (self : AIAgent) (ev : event) : result AIAgent :=
  match ev with
  | ChooseAction r1 r2 => '(self', _) ← choose_action self r1 r2; Ok self'
  | SetTransition isCrashed new_state => set_transition self isCrashed new_state
  | Reset fuel => reset fuel self
  end.

Fixpoint run_agent (self : AIAgent) (evs : list event) : result AIAgent :=
  match evs with
  | [] => Ok self
  | ev :: evs' => self' ← step self ev; run_agent self' evs'
  end.

Definition is_reset (ev : event) : bool :=
  match ev with Reset _ => true | _ => false end.

(** The number of episode resets among [evs]. *)
Definition count_resets (evs : list event) : nat := length (List.filter is_reset evs).

(** [eps] after [n] resets: [0.01] added [n] times to [1.], in binary64. *)
Definition eps_after (n : nat) : spec_float := Nat.iter n (λ e, fadd e f0_01) f1.

(** The binary64 value of the expression [1.0 + 0.01 * n]. *)
Definition eps_closed_form (n : nat) : spec_float :=
  fadd f1 (fmul f0_01 (float_of_Z (Z.of_nat n))).

(** What [choose_action] does in its greedy branch. *)
Definition greedy_choice (self : AIAgent) : result (AIAgent * command) :=
  a ← best_action (mdp_data self) (state self);
  Ok (set_action self a, issue a).

(** A float that is [+inf] or a normal number at least 1. *)
Definition at_least_one (e : spec_float) : Prop :=
  e = S754_infinity false
  ∨ ∃ m ex, e = S754_finite false m ex ∧ (-52 <= ex)%Z ∧ (2 ^ 52 <= Z.pos m)%Z.

(** The model of an agent is well shaped, its rows are distributions, its
    discount is in (0, 1) and its tolerance is positive. *)
Definition agent_ok (self : AIAgent) : Prop :=
  mdp_shape (mdp_data self)
  ∧ nonneg_counts (transition_counts (mdp_data self))
  ∧ row_stochastic (transition_probs (mdp_data self))
  ∧ (0 < gamma self)%Q ∧ (gamma self < 1)%Q ∧ (0 < tolerance self)%Q.

(** The draw 0.5. *)
Definition f0_5 : spec_float := fdiv (float_of_Z 1) (float_of_Z 2).

Definition example_events : list event :=
  [ChooseAction f0_5 f0_5; SetTransition false small_cactus_ahead; Reset 1].

(** ** Further vocabulary *)

(** A grid whose points increase strictly with the index. *)
Definition ascending (l : list Q) : Prop :=
  ∀ i j x y, (i < j)%nat → l !! i = Some x → l !! j = Some y → (x < y)%Q.

(** The distance bucket and the configuration bucket an index encodes, for
    [n] distance buckets. *)
Definition distance_bucket (n idx : nat) : nat := ((idx - 2) mod n)%nat.
Definition config_bucket (n idx : nat) : nat := (((idx - 2) / n) mod 3)%nat.
Definition type_ordinal (n idx : nat) : nat := ((idx - 2) / n / 3)%nat.

(** A model the calls of the agent can produce from the fresh one. *)
Definition reachable (a : Args) (m : MDP) : Prop :=
  ∃ gamma tol cs, run_calls gamma tol (initialize_mdp_data a) cs = Ok m.

(** The sum of all the entries of a (num_states, 3, num_states) array. *)
Definition tensor_sum (t : tensor) : Q :=
  np_sum (map (λ rows, np_sum (map np_sum rows)) t).

Definition is_record (c : call) : bool :=
  match c with RecordTransition _ _ _ _ _ => true | Refit _ => false end.

(** The number of recorded transitions among [cs]. *)
Definition count_records (cs : list call) : nat := length (List.filter is_record cs).

(** The count stored at [s, a, s']. *)
Definition count_at (t : tensor) (s a s' : nat) : option Q :=
  match t !! s with
  | Some rows =>
      match rows !! a with
      | Some row => row !! s'
      | None => None
      end
  | None => None
  end.

(** The reward accumulators hold rewards between -1000 and 1 per visit. *)
Definition accumulators_bounded (m : MDP) : Prop :=
  ∀ s acc n, reward_counts m !! s = Some (acc, n) →
    (0 <= n)%Q ∧ (-1000 * n <= acc)%Q ∧ (acc <= n)%Q.

Definition rewards_bounded (m : MDP) : Prop :=
  ∀ s r, reward m !! s = Some r → (-1000 <= r)%Q ∧ (r <= 1)%Q.

(** Every value is between -1000 / (1 - gamma) and 1 / (1 - gamma). *)
Definition values_bounded (gamma : Q) (v : list Q) : Prop :=
  ∀ s x, v !! s = Some x → (-1000 <= (1 - gamma) * x)%Q ∧ ((1 - gamma) * x <= 1)%Q.

(** What the agent has learned about rewards: the FAIL state has only ever
    received -1000, the obstacle states only +1. *)
Definition rewards_learned (m : MDP) : Prop :=
  (∀ acc n, reward_counts m !! 0%nat = Some (acc, n) → (acc == -1000 * n)%Q)
  ∧ (∀ s acc n, (2 <= s)%nat → reward_counts m !! s = Some (acc, n) → (acc == n)%Q)
  ∧ (∀ r, reward m !! 0%nat = Some r → (r == 0)%Q ∨ (r == -1000)%Q)
  ∧ (∀ s r, (2 <= s)%nat → reward m !! s = Some r → (r == 0)%Q ∨ (r == 1)%Q).

(** [v] is left unchanged by the Bellman update of [m]: the optimal value
    function of the estimated model. *)
Definition bellman_fixed_point (m : MDP) (gamma : Q) (v : list Q) : Prop :=
  Forall2 Qeq (bellman m gamma v) v.

(** The optimal values of the eleven-state model with one observed
    transition from "no obstacle" to the first cactus state, discount 1/2. *)
Definition example_optimum : list Q :=
  [3 # 23; 13 # 23; 26 # 23] ++ replicate 8 (3 # 23).

(** * The binary64 model

    The discretizer and the value-iteration loop are the two places where
    the result of the code depends on rounding: which bucket is nearest, and
    whether the sweeps ever come within the tolerance.  They are modelled
    here a second time over binary64 floats proper, operation by operation.
    Observations are binary64 numbers (an integer observation below 2^53 is
    the same number). *)

Module Binary64.

Definition fsub : spec_float → spec_float → spec_float := SFsub prec emax.
Definition fabs : spec_float → spec_float := SFabs.
Definition is_nan (x : spec_float) : bool :=
  match x with S754_nan => true | _ => false end.

Record obstacle := { type : string; config : spec_float; dx : spec_float }.

Record Args := {
  arg_gamma : spec_float;
  arg_tolerance : spec_float;
  n_x : nat;
  max_dx : spec_float
}.

Abbreviation tensor := (list (list (list spec_float))).

Record MDP := {
  num_states : nat;
  state_discretization : list spec_float * list spec_float * list spec_float;
  transition_counts : tensor;
  transition_probs : tensor;
  reward_counts : list (spec_float * spec_float);
  reward : list spec_float;
  value : list spec_float
}.

(** ** numpy *)

(** [np.arange(0, num)] as floats. *)
Definition arange (num : nat) : list spec_float :=
  map (λ i, float_of_Z (Z.of_nat i)) (seq 0 num).

(** [np.linspace(start, stop, num)], as numpy computes it: the step is the
    rounded quotient [delta / (num - 1)], the points are the rounded products
    [i * step] plus [start] (when the step underflows to 0, [(i / div) * delta]
    instead), and the last point is overwritten by [stop]. *)
Definition linspace (start stop : spec_float) (num : nat) : list spec_float :=
  let div := (Z.of_nat num - 1)%Z in
  let start := fmul start f1 in
  let stop := fmul stop f1 in
  let delta := fsub stop start in
  let y := arange num in
  let y :=
    if (0 <? div)%Z then
      let step := fdiv delta (float_of_Z div) in
      if feqb step f0
      then map (λ v, fmul (fdiv v (float_of_Z div)) delta) y
      else map (λ v, fmul v step) y
    else map (λ v, fmul v delta) y in
  let y := map (λ v, fadd v start) y in
  if (1 <? num)%nat then <[(num - 1)%nat := stop]> y else y.

(** [np.argmin]: the first index of the least entry; a NaN counts as least,
    and the scan stops at the first one.  The test is the negated [x >= best]
    of numpy. *)
Fixpoint argmin_from (best : nat) (bv : spec_float) (i : nat) (l : list spec_float)
    : nat :=
  match l with
  | [] => best
  | x :: l' =>
      if fleb bv x then argmin_from best bv (S i) l'
      else if is_nan x then i
      else argmin_from i x (S i) l'
  end.

Definition argmin (l : list spec_float) : result nat :=
  match l with
  | [] => Raise ValueError
  | x :: l' => Ok (if is_nan x then 0%nat else argmin_from 0 x 1 l')
  end.

(** [abs(grid - x)] *)
Definition abs_diff (grid : list spec_float) (x : spec_float) : list spec_float :=
  map (λ g, fabs (fsub g x)) grid.

(** [np.maximum]: the first argument when it is a NaN or at least the
    second, else the second. *)
Definition maximum (x y : spec_float) : spec_float :=
  if fleb y x || is_nan x then x else y.

(** [np.max] *)
Definition np_max (l : list spec_float) : result spec_float :=
  match l with
  | [] => Raise ValueError
  | x :: l' => Ok (foldl maximum x l')
  end.

(** The sum of the products, added from left to right. *)
Definition dot (u v : list spec_float) : spec_float :=
  foldl fadd f0 (zip_with fmul u v).

(** A matrix times a vector, row by row. *)
Definition matvec (M : list (list spec_float)) (v : list spec_float)
    : list spec_float :=
  map (λ row, dot row v) M.

(** ** The discretizer *)

Definition get_closest_state_idx (mdp : MDP) (state : option obstacle)
    (isFail : bool) : result nat :=
  let '(dx_s, dn_cactus_s, dy_pter_s) := state_discretization mdp in
  match state with
  | None => Ok 1%nat
  | Some st =>
      obs_type ← from_option KeyError (OBSTACLE_TYPES !! type st);
      j ← (if decide (type st = "PTERODACTYL")
           then argmin (abs_diff dy_pter_s (config st))
           else argmin (abs_diff dn_cactus_s (config st)));
      k ← argmin (abs_diff dx_s (dx st));
      Ok ((if isFail then 0 else 1)
          * (obs_type * length dy_pter_s * length dx_s + j * length dx_s + k + 2))%nat
  end.

Definition initialize_mdp_data (a : Args) : MDP :=
  let num_states :=
    (((size OBSTACLE_TYPES - 1) * MAX_CONSECUTIVE_OBS
      + 1 * length PTERODACTYL_HEIGHTS) * n_x a + 2)%nat in
  let dx_s := linspace f0 (max_dx a) (n_x a) in
  let dn_cactus_s := map (λ i, float_of_Z (Z.of_nat i)) (seq 1 MAX_CONSECUTIVE_OBS) in
  let dy_pter_s := map float_of_Z PTERODACTYL_HEIGHTS in
  {| num_states := num_states;
     state_discretization := (dx_s, dn_cactus_s, dy_pter_s);
     transition_counts := replicate num_states (replicate 3 (replicate num_states f0));
     transition_probs :=
       replicate num_states
         (replicate 3
            (replicate num_states (fdiv f1 (float_of_Z (Z.of_nat num_states)))));
     reward_counts := replicate num_states (f0, f0);
     reward := replicate num_states f0;
     value := replicate num_states f0 |}.

(** ** Value iteration *)

Definition set_value (mdp : MDP) (v : list spec_float) : MDP :=
  {| num_states := num_states mdp;
     state_discretization := state_discretization mdp;
     transition_counts := transition_counts mdp;
     transition_probs := transition_probs mdp;
     reward_counts := reward_counts mdp;
     reward := reward mdp;
     value := v |}.

(** [P[:, a, :]] *)
Definition action_slice (P : tensor) (a : nat) : list (list spec_float) :=
  map (λ rows, default [] (rows !! a)) P.

(** [np.max(np.abs(new_value - value))] *)
Definition max_abs_diff (new_value old : list spec_float) : result spec_float :=
  np_max (map fabs (zip_with fsub new_value old)).

Section Sweep.

(** [np.dot] of a matrix and a vector.  The order in which the BLAS routine
    behind it adds the products, and so the rounding of each entry, is not
    fixed by the source: the sweep and the loop are modelled for any function
    in its place.  They are run with [matvec]. *)
Variable np_dot : list (list spec_float) → list spec_float → list spec_float.

(** The Bellman update of one sweep, from the value vector [v]. *)
Definition bellman (mdp : MDP) (gamma : spec_float) (v : list spec_float)
    : list spec_float :=
  let value_nojump := np_dot (action_slice (transition_probs mdp) 0) v in
  let value_jump := np_dot (action_slice (transition_probs mdp) 1) v in
  zip_with fadd (reward mdp)
    (map (fmul gamma) (zip_with maximum value_nojump value_jump)).

(** The [while True] loop; [fuel] bounds the number of sweeps run. *)
Fixpoint value_iteration (fuel : nat) (gamma tol : spec_float) (mdp : MDP)
    : result MDP :=
  match fuel with
  | O => OutOfFuel
  | S fuel' =>
      let new_value := bellman mdp gamma (value mdp) in
      max_diff ← max_abs_diff new_value (value mdp);
      let mdp' := set_value mdp new_value in
      if fltb max_diff tol then Ok mdp'
      else value_iteration fuel' gamma tol mdp'
  end.

(** The value vector after [k] sweeps started from [v]. *)
Definition sweeps (m : MDP) (gamma : spec_float) (k : nat) (v : list spec_float)
    : list spec_float :=
  Nat.iter k (bellman m gamma) v.

(** The sweep from [u] changes every entry by less than [tol]. *)
Definition converged (m : MDP) (gamma tol : spec_float) (u : list spec_float)
    : Prop :=
  ∀ s x y, bellman m gamma u !! s = Some x → u !! s = Some y →
    fltb (fabs (fsub x y)) tol = true.

End Sweep.

(** ** Specification vocabulary *)

(** What [np.argmin] promises of the index [i] it returns for [l]: the
    entry at [i] is the first NaN of [l], or [l] has no NaN and no entry is
    below the one at [i], those before it being strictly above. *)
Definition first_argmin (l : list spec_float) (i : nat) : Prop :=
  ∃ x, l !! i = Some x
       ∧ (∀ j y, (j < i)%nat → l !! j = Some y →
            is_nan y = false ∧ (is_nan x = true ∨ fltb x y = true))
       ∧ (is_nan x = false →
            ∀ j y, l !! j = Some y → is_nan y = false ∧ fleb x y = true).

(** The grid of configuration buckets searched for an obstacle of type
    [ty]. *)
Definition config_grid (ty : string) : list spec_float :=
  if decide (ty = "PTERODACTYL")
  then map float_of_Z PTERODACTYL_HEIGHTS
  else map (λ i, float_of_Z (Z.of_nat i)) (seq 1 MAX_CONSECUTIVE_OBS).

Definition valid_observation (state : option obstacle) : Prop :=
  match state with
  | None => True
  | Some st => is_Some (OBSTACLE_TYPES !! type st)
  end.

(** The arrays of the model have the shapes (n), (n, 3, n) with [n >= 1]. *)
Definition has_shape (m : MDP) : bool :=
  let n := length (value m) in
  (1 <=? n)%nat && (length (reward m) =? n)%nat
  && (length (transition_probs m) =? n)%nat
  && forallb (λ rows, (length rows =? 3)%nat
                      && forallb (λ row, (length row =? n)%nat) rows)
       (transition_probs m).

(** No sweep from the initial values of [m] brings the vector within [tol]
    of its own update: at every sweep some entry changes by [tol] or more. *)
Definition never_within_tolerance
    (np_dot : list (list spec_float) → list spec_float → list spec_float)
    (gamma tol : spec_float) (m : MDP) : Prop :=
  ∀ k, ∃ s x y,
    bellman np_dot m gamma (sweeps np_dot m gamma k (value m)) !! s = Some x
    ∧ sweeps np_dot m gamma k (value m) !! s = Some y
    ∧ fltb (fabs (fsub x y)) tol = false.

(** The loop never returns: it is still running after any number of
    sweeps. *)
Definition never_returns
    (np_dot : list (list spec_float) → list spec_float → list spec_float)
    (gamma tol : spec_float) (m : MDP) : Prop :=
  ∀ fuel, value_iteration np_dot fuel gamma tol m = OutOfFuel.

(** ** Small instances *)

(** Eight distance buckets up to 600. *)
Definition example_args : Args :=
  {| arg_gamma := fdiv (float_of_Z 3) (float_of_Z 4);
     arg_tolerance := fdiv (float_of_Z 1) (float_of_Z (10 ^ 15));
     n_x := 8;
     max_dx := float_of_Z 600 |}.

(** Two states that lead to each other whatever the action, each with
    reward 1; the values start at 0 and 10.  Every row has a single 1 among
    zeros, so the products [np.dot] adds are one value and zeros: their sum
    is that value in whatever order they are added. *)
Definition swap_model : MDP :=
  {| num_states := 2;
     state_discretization := ([], [], []);
     transition_counts := replicate 2 (replicate 3 (replicate 2 f0));
     transition_probs := [replicate 3 [f0; f1]; replicate 3 [f1; f0]];
     reward_counts := replicate 2 (f0, f0);
     reward := [f1; f1];
     value := [f0; float_of_Z 10] |}.

End Binary64.
(** * Verification *)

(** ** Results *)

Lemma bind_Ok {A B} (r : result A) (f : A → result B) b :
  r ≫= f = Ok b → ∃ a, r = Ok a ∧ f a = Ok b.
Proof. destruct r; simpl; [eauto | discriminate | discriminate]. Qed.

Ltac inv_bind H :=
  let a := fresh "a" in
  let Ha := fresh "Ha" in
  apply bind_Ok in H; destruct H as (a & Ha & H).

(** ** [np.argmin] *)

Lemma argmin_from_spec l : ∀ pre best bv,
  pre !! best = Some bv →
  (∀ j y, pre !! j = Some y → (bv <= y)%Q) →
  (∀ j y, (j < best)%nat → pre !! j = Some y → (bv < y)%Q) →
  first_argmin (pre ++ l) (argmin_from best bv (length pre) l).
Proof.
  induction l as [|x l IH]; intros pre best bv Hb Hle Hlt; simpl.
  - rewrite app_nil_r. exists bv. auto.
  - replace (pre ++ x :: l) with ((pre ++ [x]) ++ l) by (rewrite <- app_assoc; reflexivity).
    replace (S (length pre)) with (length (pre ++ [x])) by (rewrite length_app; simpl; lia).
    destruct (Qlt_le_dec x bv) as [Hx|Hx].
    + apply IH.
      * rewrite lookup_app_r by lia. rewrite Nat.sub_diag. reflexivity.
      * intros j y Hj. destruct (decide (j < length pre)%nat) as [Hlen|Hlen].
        -- rewrite lookup_app_l in Hj by exact Hlen.
           apply Hle in Hj. lra.
        -- rewrite lookup_app_r in Hj by lia.
           destruct (j - length pre)%nat; simpl in Hj; [|discriminate].
           injection Hj as <-. lra.
      * intros j y Hj Hy. rewrite lookup_app_l in Hy by exact Hj.
        apply Hle in Hy. lra.
    + apply IH.
      * rewrite lookup_app_l; [exact Hb|]. apply lookup_lt_Some in Hb. exact Hb.
      * intros j y Hj. destruct (decide (j < length pre)%nat) as [Hlen|Hlen].
        -- rewrite lookup_app_l in Hj by exact Hlen. eapply Hle; eassumption.
        -- rewrite lookup_app_r in Hj by lia.
           destruct (j - length pre)%nat; simpl in Hj; [|discriminate].
           injection Hj as <-. exact Hx.
      * intros j y Hj Hy. apply lookup_lt_Some in Hb.
        rewrite lookup_app_l in Hy by lia. eapply Hlt; eassumption.
Qed.

Lemma argmin_spec l i : argmin l = Ok i → first_argmin l i.
Proof.
  destruct l as [|x l]; simpl; [discriminate|].
  intros [= <-]. apply (argmin_from_spec l [x] 0%nat x).
  - reflexivity.
  - intros [|j] y Hj; simpl in Hj; [injection Hj as <-; lra | discriminate].
  - intros j y Hj. lia.
Qed.

Lemma first_argmin_lt l i : first_argmin l i → (i < length l)%nat.
Proof. intros (x & Hx & _). eapply lookup_lt_Some. exact Hx. Qed.

Lemma argmin_nonempty l : (0 < length l)%nat → ∃ i, argmin l = Ok i.
Proof. destruct l; simpl; [lia | eauto]. Qed.

Lemma argmin_empty_inv l : argmin l = Raise ValueError → l = [].
Proof. destruct l; simpl; [reflexivity | discriminate]. Qed.

(** [np.argmin] sees its argument up to equality of rationals. *)
Lemma argmin_from_Qeq l l' : Forall2 Qeq l l' → ∀ best bv bv' i,
  (bv == bv')%Q → argmin_from best bv i l = argmin_from best bv' i l'.
Proof.
  induction 1 as [|x x' l l' Hx Hl IH]; intros best bv bv' i Hbv; simpl; [reflexivity|].
  destruct (Qlt_le_dec x bv), (Qlt_le_dec x' bv'); try (exfalso; lra); apply IH; assumption.
Qed.

Lemma argmin_Qeq l l' : Forall2 Qeq l l' → argmin l = argmin l'.
Proof.
  destruct 1 as [|x x' l l' Hx Hl]; simpl; [reflexivity|].
  f_equal. apply argmin_from_Qeq; assumption.
Qed.

Lemma abs_diff_Qeq grid x x' : (x == x')%Q → Forall2 Qeq (abs_diff grid x) (abs_diff grid x').
Proof.
  intros Hx. unfold abs_diff. induction grid as [|g grid IH]; constructor; [|exact IH].
  apply Qabs_wd. rewrite Hx. reflexivity.
Qed.

Lemma length_abs_diff grid x : length (abs_diff grid x) = length grid.
Proof. unfold abs_diff. apply length_map. Qed.

(** ** The discretizer *)

Lemma OBSTACLE_TYPES_known t o :
  OBSTACLE_TYPES !! t = Some o →
  (t = "CACTUS_SMALL" ∧ o = 0%nat) ∨ (t = "CACTUS_LARGE" ∧ o = 1%nat)
  ∨ (t = "PTERODACTYL" ∧ o = 2%nat).
Proof.
  unfold OBSTACLE_TYPES. intros H.
  destruct (decide (t = "CACTUS_SMALL")) as [->|H1]; [left; split; [reflexivity|]|].
  { rewrite lookup_insert_eq in H. congruence. }
  rewrite lookup_insert_ne in H by congruence.
  destruct (decide (t = "CACTUS_LARGE")) as [->|H2]; [right; left; split; [reflexivity|]|].
  { rewrite lookup_insert_eq in H. congruence. }
  rewrite lookup_insert_ne in H by congruence.
  destruct (decide (t = "PTERODACTYL")) as [->|H3]; [right; right; split; [reflexivity|]|].
  { rewrite lookup_singleton_eq in H. congruence. }
  rewrite lookup_singleton_ne in H by congruence. discriminate.
Qed.

Lemma OBSTACLE_TYPES_unknown t :
  t ≠ "CACTUS_SMALL" → t ≠ "CACTUS_LARGE" → t ≠ "PTERODACTYL" →
  OBSTACLE_TYPES !! t = None.
Proof.
  intros H1 H2 H3. destruct (OBSTACLE_TYPES !! t) as [o|] eqn:E; [|reflexivity].
  apply OBSTACLE_TYPES_known in E. destruct E as [[? ?]|[[? ?]|[? ?]]]; congruence.
Qed.

Lemma size_OBSTACLE_TYPES : size OBSTACLE_TYPES = 3%nat.
Proof. reflexivity. Qed.

Lemma num_states_init a : num_states (initialize_mdp_data a) = (9 * n_x a + 2)%nat.
Proof. unfold initialize_mdp_data; simpl. rewrite size_OBSTACLE_TYPES. simpl. lia. Qed.

Lemma length_linspace0 stop n : length (linspace0 stop n) = n.
Proof. unfold linspace0. rewrite length_map, length_seq. reflexivity. Qed.

Lemma length_config_grid ty : length (config_grid ty) = 3%nat.
Proof. unfold config_grid. destruct (decide _); reflexivity. Qed.

Lemma get_closest_state_idx_present a st isFail t :
  (1 <= n_x a)%nat →
  OBSTACLE_TYPES !! type st = Some t →
  ∃ j k, nearest (config_grid (type st)) (config st) j
       ∧ nearest (linspace0 (max_dx a) (n_x a)) (dx st) k
       ∧ get_closest_state_idx (initialize_mdp_data a) (Some st) isFail
         = Ok ((if isFail then 0 else 1) * (t * 3 * n_x a + j * n_x a + k + 2))%nat.
Proof.
  intros Hn Ht.
  destruct (argmin_nonempty (abs_diff (config_grid (type st)) (config st))) as [j Hj].
  { rewrite length_abs_diff, length_config_grid. lia. }
  destruct (argmin_nonempty (abs_diff (linspace0 (max_dx a) (n_x a)) (dx st))) as [k Hk].
  { rewrite length_abs_diff, length_linspace0. lia. }
  exists j, k. split; [apply argmin_spec; exact Hj|]. split; [apply argmin_spec; exact Hk|].
  unfold get_closest_state_idx, initialize_mdp_data; cbn [state_discretization].
  rewrite Ht. cbn [from_option mbind result_bind].
  unfold config_grid in Hj.
  destruct (decide (type st = "PTERODACTYL")); rewrite Hj; cbn [mbind result_bind];
    rewrite Hk; cbn [mbind result_bind]; rewrite length_linspace0; reflexivity.
Qed.

Lemma get_closest_state_idx_same mdp s1 s2 isFail :
  same_observation s1 s2 →
  get_closest_state_idx mdp s1 isFail = get_closest_state_idx mdp s2 isFail.
Proof.
  unfold get_closest_state_idx.
  destruct (state_discretization mdp) as [[dx_s dn_cactus_s] dy_pter_s].
  destruct s1 as [o1|], s2 as [o2|]; simpl; try tauto.
  intros (Ht & Hc & Hd). rewrite Ht.
  rewrite (argmin_Qeq _ _ (abs_diff_Qeq dy_pter_s _ _ Hc)).
  rewrite (argmin_Qeq _ _ (abs_diff_Qeq dn_cactus_s _ _ Hc)).
  rewrite (argmin_Qeq _ _ (abs_diff_Qeq dx_s _ _ Hd)).
  reflexivity.
Qed.

(** The discretizer reads the grids of the model and nothing else. *)
Lemma get_closest_state_idx_grid m m' st isFail :
  state_discretization m = state_discretization m' →
  get_closest_state_idx m st isFail = get_closest_state_idx m' st isFail.
Proof. unfold get_closest_state_idx. intros ->. reflexivity. Qed.

Lemma get_closest_state_idx_lt a st isFail idx :
  get_closest_state_idx (initialize_mdp_data a) st isFail = Ok idx →
  (idx < num_states (initialize_mdp_data a))%nat.
Proof.
  rewrite num_states_init. destruct st as [st|]; [|intros [= <-]; lia].
  intros H.
  destruct (OBSTACLE_TYPES !! type st) as [t|] eqn:Ht.
  2:{ unfold get_closest_state_idx in H. cbn [initialize_mdp_data state_discretization] in H.
      rewrite Ht in H. discriminate. }
  destruct (Nat.eq_dec (n_x a) 0) as [Hz|Hz].
  { unfold get_closest_state_idx in H. cbn [initialize_mdp_data state_discretization] in H.
    rewrite Ht, Hz in H. cbn [from_option mbind result_bind] in H.
    destruct (decide _); simpl in H; discriminate. }
  destruct (get_closest_state_idx_present a st isFail t) as (j & k & Hj & Hk & E); [lia|exact Ht|].
  rewrite E in H. injection H as <-.
  apply first_argmin_lt in Hj, Hk.
  rewrite length_abs_diff in Hj, Hk. rewrite length_config_grid in Hj.
  rewrite length_linspace0 in Hk.
  assert (t <= 2)%nat.
  { apply OBSTACLE_TYPES_known in Ht. lia. }
  destruct isFail; [lia|]. nia.
Qed.

(** C1, at the input where the code departs from it: a crash reported with
    no obstacle on screen is discretized to the no-obstacle state 1, not to
    the FAIL state 0, because the test for an absent observation returns
    before [isFail] is looked at. *)
Theorem terminal_absent_is_state_1 (mdp : MDP) :
  get_closest_state_idx mdp None true = Ok 1%nat.
Proof.
  unfold get_closest_state_idx.
  destruct (state_discretization mdp) as [[? ?] ?]. reflexivity.
Qed.

(** The sibling path: with an obstacle on screen whose type is known, a crash
    is discretized to the FAIL state 0. *)
Lemma terminal_present_is_state_0 a st :
  (1 <= n_x a)%nat → is_Some (OBSTACLE_TYPES !! type st) →
  get_closest_state_idx (initialize_mdp_data a) (Some st) true = Ok 0%nat.
Proof.
  intros Hn [t Ht].
  destruct (get_closest_state_idx_present a st true t Hn Ht) as (j & k & _ & _ & E).
  rewrite E. reflexivity.
Qed.

(** C10: an observation whose obstacle type is none of the three keys of
    [OBSTACLE_TYPES] makes the discretizer raise [KeyError], whatever the
    model and the crash flag; no index is returned. *)
Theorem unknown_type_raises (mdp : MDP) (st : obstacle) (isFail : bool) :
  type st ≠ "CACTUS_SMALL" → type st ≠ "CACTUS_LARGE" → type st ≠ "PTERODACTYL" →
  get_closest_state_idx mdp (Some st) isFail = Raise KeyError.
Proof.
  intros H1 H2 H3. unfold get_closest_state_idx.
  destruct (state_discretization mdp) as [[? ?] ?].
  rewrite (OBSTACLE_TYPES_unknown _ H1 H2 H3). reflexivity.
Qed.

Lemma unknown_type_raises_witness :
  get_closest_state_idx
    (initialize_mdp_data {| arg_gamma := 1 # 2; arg_tolerance := 1 # 10; n_x := 4; max_dx := 600 |})
    (Some {| type := "BIRD"; config := 2; dx := 100 |}) true = Raise KeyError.
Proof. apply unknown_type_raises; simpl; discriminate. Defined.

(** ** The greedy action *)

Lemma Qgtb_true x y : Qgtb x y = true ↔ (y < x)%Q.
Proof. unfold Qgtb. destruct (Qlt_le_dec y x); split; intros; try lra; congruence. Qed.

Lemma Qgeb_true x y : Qgeb x y = true ↔ (y <= x)%Q.
Proof. unfold Qgeb. destruct (Qlt_le_dec x y); split; intros; try lra; congruence. Qed.

(** C7: [best_action] is JUMP (1) exactly when [Q_jump > Q_none] and
    [Q_jump >= Q_duck]; otherwise DUCK (2) exactly when [Q_duck > Q_none] and
    [Q_duck > Q_jump]; otherwise NONE (0), where each Q is the dot product of
    the state's row for that action with the value vector.  When the three
    are equal it is NONE. *)
Theorem best_action_spec (mdp : MDP) (state : option obstacle) (s : nat)
    (rows : list (list Q)) (r0 r1 r2 : list Q) :
  get_closest_state_idx mdp state false = Ok s →
  transition_probs mdp !! s = Some rows →
  rows !! 0%nat = Some r0 → rows !! 1%nat = Some r1 → rows !! 2%nat = Some r2 →
  let Q_none := dot r0 (value mdp) in
  let Q_jump := dot r1 (value mdp) in
  let Q_duck := dot r2 (value mdp) in
  ∃ act, best_action mdp state = Ok act
    ∧ (act = 1%nat ↔ (Q_none < Q_jump ∧ Q_duck <= Q_jump)%Q)
    ∧ (act = 2%nat ↔ ¬ (Q_none < Q_jump ∧ Q_duck <= Q_jump)%Q
                      ∧ (Q_none < Q_duck ∧ Q_jump < Q_duck)%Q)
    ∧ (act = 0%nat ↔ ¬ (Q_none < Q_jump ∧ Q_duck <= Q_jump)%Q
                      ∧ ¬ (Q_none < Q_duck ∧ Q_jump < Q_duck)%Q)
    ∧ ((Q_none == Q_jump)%Q → (Q_jump == Q_duck)%Q → act = 0%nat).
Proof.
  intros Hs Hrows H0 H1 H2 Q_none Q_jump Q_duck.
  unfold best_action. rewrite Hs. cbn [mbind result_bind].
  rewrite Hrows. cbn [from_option mbind result_bind].
  rewrite H0, H1, H2. cbn [from_option mbind result_bind].
  fold Q_none Q_jump Q_duck.
  eexists. split; [reflexivity|].
  pose proof (Qgtb_true Q_jump Q_none) as A.
  pose proof (Qgeb_true Q_jump Q_duck) as B.
  pose proof (Qgtb_true Q_duck Q_none) as C.
  pose proof (Qgtb_true Q_duck Q_jump) as D.
  destruct (Qgtb Q_jump Q_none), (Qgeb Q_jump Q_duck), (Qgtb Q_duck Q_none),
    (Qgtb Q_duck Q_jump); simpl;
    repeat match goal with
           | H : true = true ↔ _ |- _ => pose proof (proj1 H eq_refl); clear H
           | H : false = true ↔ _ |- _ =>
               let H' := fresh in
               assert (H' := λ x, diff_false_true (proj2 H x)); clear H
           end;
    repeat split; intros; try lia; try lra; try tauto.
Qed.

(** ** Sums *)

Lemma np_sum_cons x l : np_sum (x :: l) = (x + np_sum l)%Q.
Proof. reflexivity. Qed.

Lemma np_sum_scale (t : Q) l : (np_sum (map (λ c, c / t) l) == np_sum l / t)%Q.
Proof.
  induction l as [|x l IH]; [unfold np_sum; simpl; unfold Qdiv; ring|].
  change (map (λ c : Q, c / t) (x :: l))%Q with ((x / t)%Q :: map (λ c : Q, c / t)%Q l).
  rewrite !np_sum_cons, IH. unfold Qdiv. ring.
Qed.

Lemma np_sum_replicate n (x : Q) : (np_sum (replicate n x) == Qnat n * x)%Q.
Proof.
  induction n as [|n IH]; [unfold np_sum; simpl; unfold Qnat; simpl; ring|].
  change (replicate (S n) x) with (x :: replicate n x).
  rewrite np_sum_cons, IH. unfold Qnat. rewrite Nat2Z.inj_succ, <- Z.add_1_r, inject_Z_plus.
  ring.
Qed.

Lemma np_sum_nonneg l : Forall (Qle 0) l → (0 <= np_sum l)%Q.
Proof.
  induction 1 as [|x l Hx Hl IH]; [unfold np_sum; simpl; lra|].
  rewrite np_sum_cons. lra.
Qed.

Lemma Qnat_pos n : (0 < n)%nat → (0 < Qnat n)%Q.
Proof.
  intros H. unfold Qnat. change 0%Q with (inject_Z 0). rewrite <- Zlt_Qlt. lia.
Qed.

(** ** The refit *)

Lemma refit_row_stochastic counts probs :
  Forall (Qle 0) counts →
  (np_sum probs == 1)%Q ∧ Forall (Qle 0) probs →
  (np_sum (refit_row counts probs) == 1)%Q ∧ Forall (Qle 0) (refit_row counts probs).
Proof.
  intros Hc Hp. unfold refit_row. destruct (Qlt_le_dec 0 (np_sum counts)) as [Hpos|Hz]; [|exact Hp].
  split.
  - rewrite np_sum_scale. field. lra.
  - apply Forall_fmap. eapply Forall_impl; [exact Hc|].
    intros c Hc0. simpl. apply Qle_shift_div_l; [exact Hpos|]. lra.
Qed.

Lemma refit_probs_lookup counts probs s a crow prow crows prows :
  counts !! s = Some crows → crows !! a = Some crow →
  probs !! s = Some prows → prows !! a = Some prow →
  ∃ rows', refit_probs counts probs !! s = Some rows'
           ∧ rows' !! a = Some (refit_row crow prow).
Proof.
  intros Hc Hca Hp Hpa. unfold refit_probs.
  exists (zip_with refit_row crows prows). split.
  - rewrite lookup_zip_with, Hc, Hp. reflexivity.
  - rewrite lookup_zip_with, Hca, Hpa. reflexivity.
Qed.

Lemma refit_probs_lookup_inv counts probs s a rows' row' :
  refit_probs counts probs !! s = Some rows' → rows' !! a = Some row' →
  ∃ crows prows crow prow,
    counts !! s = Some crows ∧ crows !! a = Some crow
    ∧ probs !! s = Some prows ∧ prows !! a = Some prow
    ∧ row' = refit_row crow prow.
Proof.
  unfold refit_probs. rewrite lookup_zip_with. intros H Ha.
  destruct (counts !! s) as [crows|] eqn:Hc; [|discriminate].
  destruct (probs !! s) as [prows|] eqn:Hp; [|discriminate].
  simpl in H. injection H as <-.
  rewrite lookup_zip_with in Ha.
  destruct (crows !! a) as [crow|] eqn:Hca; [|discriminate].
  destruct (prows !! a) as [prow|] eqn:Hpa; [|discriminate].
  simpl in Ha. injection Ha as <-.
  exists crows, prows, crow, prow. auto.
Qed.

Lemma refit_probs_stochastic counts probs :
  nonneg_counts counts → row_stochastic probs →
  row_stochastic (refit_probs counts probs).
Proof.
  intros Hc Hp s rows a row Hs Ha.
  destruct (refit_probs_lookup_inv _ _ _ _ _ _ Hs Ha)
    as (crows & prows & crow & prow & H1 & H2 & H3 & H4 & ->).
  apply refit_row_stochastic; [eapply Hc | eapply Hp]; eassumption.
Qed.

(** Value iteration writes the value vector and nothing else. *)
Lemma value_iteration_frame fuel gamma tol : ∀ m m',
  value_iteration fuel gamma tol m = Ok m' →
  num_states m' = num_states m
  ∧ state_discretization m' = state_discretization m
  ∧ transition_counts m' = transition_counts m
  ∧ transition_probs m' = transition_probs m
  ∧ reward_counts m' = reward_counts m
  ∧ reward m' = reward m.
Proof.
  induction fuel as [|fuel IH]; intros m m' H; simpl in H; [discriminate|].
  destruct (Qlt_le_dec _ tol).
  - injection H as <-. simpl. auto 10.
  - apply IH in H. simpl in H. exact H.
Qed.

Lemma update_mdp_parameters_frame fuel gamma tol m m' :
  update_mdp_parameters fuel gamma tol m = Ok m' →
  num_states m' = num_states m
  ∧ state_discretization m' = state_discretization m
  ∧ transition_counts m' = transition_counts m
  ∧ transition_probs m' = refit_probs (transition_counts m) (transition_probs m)
  ∧ reward_counts m' = reward_counts m
  ∧ reward m' = refit_reward (reward_counts m) (reward m).
Proof.
  unfold update_mdp_parameters. intros H. apply value_iteration_frame in H.
  simpl in H. exact H.
Qed.

(** ** Counting *)

Lemma update_mdp_counts_Ok m st act new_st r crashed m' :
  update_mdp_counts m st act new_st r crashed = Ok m' →
  ∃ s new_s,
    get_closest_state_idx m st false = Ok s
    ∧ get_closest_state_idx m new_st crashed = Ok new_s
    ∧ m' = set_counts m
             (alter (alter (alter (λ c, c + 1)%Q new_s) act) s (transition_counts m))
             (alter (λ '(acc, n), (acc + r, n + 1))%Q new_s (reward_counts m)).
Proof.
  unfold update_mdp_counts. intros H.
  destruct (get_closest_state_idx m st false) as [s| |]; try discriminate.
  destruct (get_closest_state_idx m new_st crashed) as [new_s| |]; try discriminate.
  cbn [mbind result_bind] in H.
  destruct (transition_counts m !! s) as [rows|]; [|discriminate].
  cbn [from_option mbind result_bind] in H.
  destruct (rows !! act) as [row|]; [|discriminate].
  cbn [from_option mbind result_bind] in H.
  destruct (row !! new_s); [|discriminate].
  cbn [from_option mbind result_bind] in H.
  destruct (reward_counts m !! new_s); [|discriminate].
  cbn [from_option mbind result_bind] in H.
  injection H as <-. eauto.
Qed.

Lemma alter3_lookup_inv (f : Q → Q) (C : tensor) s a k s' a' rows' row' :
  alter (alter (alter f k) a) s C !! s' = Some rows' → rows' !! a' = Some row' →
  ∃ rows row, C !! s' = Some rows ∧ rows !! a' = Some row
    ∧ row' = (if decide (s = s' ∧ a = a') then alter f k row else row).
Proof.
  intros Hs Ha. rewrite list_lookup_alter in Hs.
  destruct (decide (s = s')) as [<-|Hne].
  - destruct (C !! s) as [rows|] eqn:E; [|discriminate]. simpl in Hs. injection Hs as <-.
    rewrite list_lookup_alter in Ha. destruct (decide (a = a')) as [<-|Hne].
    + destruct (rows !! a) as [row|] eqn:E'; [|discriminate]. simpl in Ha. injection Ha as <-.
      exists rows, row. rewrite decide_True by auto. auto.
    + exists rows, row'. rewrite decide_False by tauto. auto.
  - destruct (C !! s') as [rows|] eqn:E; [|discriminate]. injection Hs as <-.
    exists rows, row'. rewrite decide_False by tauto. auto.
Qed.

Lemma nonneg_counts_incr C s a k :
  nonneg_counts C → nonneg_counts (alter (alter (alter (λ c, c + 1)%Q k) a) s C).
Proof.
  intros HC s' rows' a' row' Hs Ha.
  destruct (alter3_lookup_inv _ _ _ _ _ _ _ _ _ Hs Ha) as (rows & row & H1 & H2 & ->).
  specialize (HC _ _ _ _ H1 H2). destruct (decide _); [|exact HC].
  apply Forall_lookup. intros i x Hi. rewrite list_lookup_alter in Hi.
  rewrite Forall_lookup in HC.
  destruct (decide (k = i)) as [<-|Hne]; [|eapply HC; exact Hi].
  destruct (row !! k) as [y|] eqn:E; [|discriminate]. simpl in Hi. injection Hi as <-.
  specialize (HC _ _ E). simpl in HC. lra.
Qed.

(** ** The initial model *)

Lemma init_nonneg_counts a : nonneg_counts (transition_counts (initialize_mdp_data a)).
Proof.
  intros s rows act row Hs Ha. cbn [initialize_mdp_data transition_counts] in Hs.
  apply lookup_replicate_1 in Hs as [-> _]. apply lookup_replicate_1 in Ha as [-> _].
  apply Forall_replicate. lra.
Qed.

Lemma init_uniform a s rows act row :
  transition_probs (initialize_mdp_data a) !! s = Some rows → rows !! act = Some row →
  row = replicate (num_states (initialize_mdp_data a))
          (1 / Qnat (num_states (initialize_mdp_data a)))%Q.
Proof.
  intros Hs Ha. cbn [initialize_mdp_data transition_probs] in Hs.
  apply lookup_replicate_1 in Hs as [-> _]. apply lookup_replicate_1 in Ha as [-> _].
  reflexivity.
Qed.

Lemma init_row_stochastic a : row_stochastic (transition_probs (initialize_mdp_data a)).
Proof.
  intros s rows act row Hs Ha. rewrite (init_uniform a s rows act row Hs Ha).
  rewrite num_states_init.
  assert (0 < Qnat (9 * n_x a + 2))%Q as Hpos by (apply Qnat_pos; lia).
  split.
  - rewrite np_sum_replicate. field. lra.
  - apply Forall_replicate. apply Qle_shift_div_l; [exact Hpos|]. lra.
Qed.

(** ** Row-stochasticity is an invariant *)

Lemma run_call_invariant gamma tol m c m' :
  run_call gamma tol m c = Ok m' →
  nonneg_counts (transition_counts m) ∧ row_stochastic (transition_probs m) →
  nonneg_counts (transition_counts m') ∧ row_stochastic (transition_probs m').
Proof.
  intros H [Hc Hp]. destruct c as [st act new_st r crashed|fuel]; simpl in H.
  - apply update_mdp_counts_Ok in H as (s & new_s & _ & _ & ->). simpl.
    split; [apply nonneg_counts_incr; exact Hc | exact Hp].
  - apply update_mdp_parameters_frame in H as (_ & _ & -> & -> & _ & _).
    split; [exact Hc | apply refit_probs_stochastic; assumption].
Qed.

Lemma run_calls_invariant gamma tol cs : ∀ m m',
  run_calls gamma tol m cs = Ok m' →
  nonneg_counts (transition_counts m) ∧ row_stochastic (transition_probs m) →
  nonneg_counts (transition_counts m') ∧ row_stochastic (transition_probs m').
Proof.
  induction cs as [|c cs IH]; intros m m' H Hinv; simpl in H.
  - injection H as <-. exact Hinv.
  - inv_bind H. eapply IH; [exact H|]. eapply run_call_invariant; eassumption.
Qed.

(** C4: starting from the freshly initialised model, after any sequence of
    recorded transitions and refits that the code completes, every (s, a)
    row of [transition_probs] has non-negative entries that sum to 1. *)
Theorem rows_sum_to_one (a : Args) (gamma tol : Q) (cs : list call) (m : MDP) :
  run_calls gamma tol (initialize_mdp_data a) cs = Ok m →
  ∀ s rows act row,
    transition_probs m !! s = Some rows → rows !! act = Some row →
    (np_sum row == 1)%Q ∧ Forall (Qle 0) row.
Proof.
  intros H. eapply run_calls_invariant; [exact H|].
  split; [apply init_nonneg_counts | apply init_row_stochastic].
Qed.

(** ** The postcondition of the refit *)

Lemma refit_reward_lookup rc rew s acc n r0 :
  rc !! s = Some (acc, n) → rew !! s = Some r0 →
  refit_reward rc rew !! s = Some (if Qlt_le_dec 0 n then (acc / n)%Q else r0).
Proof.
  intros H1 H2. unfold refit_reward. rewrite lookup_zip_with, H1, H2. reflexivity.
Qed.

Lemma np_sum_alter (f : Q → Q) l k x :
  l !! k = Some x → (np_sum (alter f k l) == np_sum l - x + f x)%Q.
Proof.
  revert k. induction l as [|y l IH]; intros [|k] H; simpl in H; try discriminate.
  - injection H as ->. change (alter f 0%nat (x :: l)) with (f x :: l).
    rewrite !np_sum_cons. ring.
  - change (alter f (S k) (y :: l)) with (y :: alter f k l).
    rewrite !np_sum_cons, (IH k H). ring.
Qed.

Lemma refit_row_unvisited n (u : list Q) : refit_row (replicate n 0%Q) u = u.
Proof.
  unfold refit_row. destruct (Qlt_le_dec 0 (np_sum (replicate n 0%Q))) as [H|H]; [|reflexivity].
  rewrite np_sum_replicate in H. lra.
Qed.

Lemma refit_row_single n k (u : list Q) j x :
  (k < n)%nat →
  refit_row (alter (λ c, c + 1)%Q k (replicate n 0%Q)) u !! j = Some x →
  (x == if decide (j = k) then 1 else 0)%Q.
Proof.
  intros Hk. unfold refit_row.
  assert (np_sum (alter (λ c, c + 1)%Q k (replicate n 0%Q)) == 1)%Q as Hsum.
  { rewrite (np_sum_alter _ _ k 0%Q) by (apply lookup_replicate_2; exact Hk).
    rewrite np_sum_replicate. ring. }
  destruct (Qlt_le_dec 0 _) as [H|H]; [|lra].
  rewrite list_lookup_fmap, list_lookup_alter. intros Hx.
  destruct (decide (k = j)) as [<-|Hne].
  - rewrite lookup_replicate_2 in Hx by exact Hk. simpl in Hx. injection Hx as <-.
    rewrite decide_True by reflexivity. rewrite Hsum. field.
  - destruct (replicate n 0%Q !! j) as [y|] eqn:E; [|discriminate].
    apply lookup_replicate_1 in E as [-> _]. simpl in Hx. injection Hx as <-.
    rewrite decide_False by congruence. rewrite Hsum. field.
Qed.

(** C5: what [update_mdp_parameters] leaves behind.  The counts and the
    reward accumulators are untouched; a row whose counts have a positive
    sum becomes the counts divided by that sum, any other row is kept; the
    reward of a state visited at least once becomes the mean reward received
    there, any other reward is kept.  And on the fresh model, after one
    recorded transition from state 1 by JUMP to state 2 with reward 1, the
    refit makes row (1, JUMP) the point mass on state 2, leaves rows
    (1, NONE) and (1, DUCK) uniform, and gives state 2 the reward 1. *)
Theorem refit_postcondition :
  (∀ fuel gamma tol m m',
     update_mdp_parameters fuel gamma tol m = Ok m' →
     transition_counts m' = transition_counts m
     ∧ reward_counts m' = reward_counts m
     ∧ (∀ s a crows crow prows prow,
          transition_counts m !! s = Some crows → crows !! a = Some crow →
          transition_probs m !! s = Some prows → prows !! a = Some prow →
          ∃ rows', transition_probs m' !! s = Some rows'
            ∧ ((0 < np_sum crow)%Q →
                 rows' !! a = Some (map (λ c, c / np_sum crow)%Q crow))
            ∧ (¬ (0 < np_sum crow)%Q → rows' !! a = Some prow))
     ∧ (∀ s acc n r0,
          reward_counts m !! s = Some (acc, n) → reward m !! s = Some r0 →
          ((0 < n)%Q → reward m' !! s = Some (acc / n)%Q)
          ∧ (¬ (0 < n)%Q → reward m' !! s = Some r0)))
  ∧ (∀ a fuel gamma tol st new_st m1 m2,
       get_closest_state_idx (initialize_mdp_data a) st false = Ok 1%nat →
       get_closest_state_idx (initialize_mdp_data a) new_st false = Ok 2%nat →
       update_mdp_counts (initialize_mdp_data a) st 1 new_st 1 false = Ok m1 →
       update_mdp_parameters fuel gamma tol m1 = Ok m2 →
       let n := num_states (initialize_mdp_data a) in
       let uniform := replicate n (1 / Qnat n)%Q in
       ∃ jump_row x,
         transition_probs m2 !! 1%nat = Some [uniform; jump_row; uniform]
         ∧ length jump_row = n
         ∧ (∀ j p, jump_row !! j = Some p → (p == if decide (j = 2%nat) then 1 else 0)%Q)
         ∧ reward m2 !! 2%nat = Some x ∧ (x == 1)%Q).
Proof.
  split.
  - intros fuel gamma tol m m' H.
    apply update_mdp_parameters_frame in H as (_ & _ & Hc & Hp & Hrc & Hr).
    split; [exact Hc|]. split; [exact Hrc|]. split.
    + intros s a crows crow prows prow H1 H2 H3 H4.
      destruct (refit_probs_lookup _ _ _ _ _ _ _ _ H1 H2 H3 H4) as (rows' & E & E').
      exists rows'. rewrite Hp. split; [exact E|].
      rewrite E'. unfold refit_row.
      destruct (Qlt_le_dec 0 (np_sum crow)); split; intros; try reflexivity; exfalso; lra.
    + intros s acc n r0 H1 H2. rewrite Hr, (refit_reward_lookup _ _ _ _ _ _ H1 H2).
      destruct (Qlt_le_dec 0 n); split; intros; try reflexivity; exfalso; lra.
  - intros a fuel gamma tol st new_st m1 m2 Hs Hnew H1 H2 n uniform.
    pose proof (get_closest_state_idx_lt _ _ _ _ Hnew) as Hlt. fold n in Hlt.
    apply update_mdp_counts_Ok in H1 as (s & new_s & Es & Enew & ->).
    rewrite Hs in Es. rewrite Hnew in Enew. injection Es as <-. injection Enew as <-.
    apply update_mdp_parameters_frame in H2 as (_ & _ & _ & Hp & _ & Hr).
    cbn [set_counts transition_counts transition_probs reward_counts reward] in Hp, Hr.
    cbn [initialize_mdp_data transition_counts transition_probs reward_counts reward] in Hp, Hr.
    change (num_states (initialize_mdp_data a)) with n in Hlt.
    assert (n = num_states (initialize_mdp_data a)) as Hn by reflexivity.
    cbn [initialize_mdp_data num_states] in Hn. rewrite <- Hn in Hp, Hr.
    exists (refit_row (alter (λ c, c + 1)%Q 2%nat (replicate n 0%Q)) uniform).
    exists ((0 + 1) / (0 + 1))%Q.
    split; [|split; [|split; [|split]]].
    + rewrite Hp. unfold refit_probs. rewrite lookup_zip_with.
      rewrite list_lookup_alter_eq, !lookup_replicate_2 by lia.
      cbn [fmap option_fmap option_map mbind option_bind].
      change (alter (alter (λ c, c + 1)%Q 2%nat) 1%nat (replicate 3 (replicate n 0%Q)))
        with [replicate n 0%Q; alter (λ c, c + 1)%Q 2%nat (replicate n 0%Q); replicate n 0%Q].
      change (replicate 3 (replicate n (1 / Qnat n)%Q)) with [uniform; uniform; uniform].
      cbn [zip_with]. rewrite !refit_row_unvisited. reflexivity.
    + unfold refit_row.
      destruct (Qlt_le_dec 0 _) as [H|H].
      * rewrite length_map, length_alter, length_replicate. reflexivity.
      * exfalso. rewrite (np_sum_alter _ _ 2%nat 0%Q) in H by (apply lookup_replicate_2; lia).
        rewrite np_sum_replicate in H. lra.
    + intros j p Hj. eapply refit_row_single; [|exact Hj]. lia.
    + rewrite Hr. unfold refit_reward. rewrite lookup_zip_with.
      rewrite list_lookup_alter_eq, !lookup_replicate_2 by lia. reflexivity.
    + reflexivity.
Qed.

(** ** Distances between value vectors *)

Lemma foldl_Qmax_ge l : ∀ x, (x <= foldl Qmax x l)%Q.
Proof.
  induction l as [|y l IH]; intros x; simpl; [lra|].
  eapply Qle_trans; [|apply IH]. apply Q.le_max_l.
Qed.

Lemma foldl_Qmax_mono l : ∀ x y, (x <= y)%Q → (foldl Qmax x l <= foldl Qmax y l)%Q.
Proof.
  induction l as [|z l IH]; intros x y H; simpl; [exact H|].
  apply IH. apply Q.max_le_compat_r. exact H.
Qed.

Lemma foldl_Qmax_le l d : ∀ x, (x <= d)%Q → Forall (λ y, y <= d)%Q l → (foldl Qmax x l <= d)%Q.
Proof.
  induction l as [|y l IH]; intros x Hx Hl; simpl; [exact Hx|].
  inversion Hl; subst. apply IH; [|assumption]. apply Q.max_lub; assumption.
Qed.

Lemma np_max_ge l : Forall (λ y, y <= np_max l)%Q l.
Proof.
  destruct l as [|x l]; [constructor|]. simpl. constructor; [apply foldl_Qmax_ge|].
  revert x. induction l as [|y l IH]; intros x; [constructor|]. simpl. constructor.
  - eapply Qle_trans; [|apply foldl_Qmax_ge]. apply Q.le_max_r.
  - apply IH.
Qed.

Lemma np_max_le l d : (0 <= d)%Q → Forall (λ y, y <= d)%Q l → (np_max l <= d)%Q.
Proof.
  intros Hd Hl. destruct l as [|x l]; simpl; [exact Hd|].
  inversion Hl; subst. apply foldl_Qmax_le; assumption.
Qed.

Lemma np_max_nonneg l : Forall (Qle 0) l → (0 <= np_max l)%Q.
Proof.
  destruct l as [|x l]; simpl; [lra|]. intros H. inversion H; subst.
  eapply Qle_trans; [|apply foldl_Qmax_ge]. assumption.
Qed.

Lemma max_abs_diff_nonneg u v : (0 <= max_abs_diff u v)%Q.
Proof.
  unfold max_abs_diff. apply np_max_nonneg. apply Forall_fmap.
  apply Forall_forall. intros x _. simpl. apply Qabs_nonneg.
Qed.

Lemma close_max_abs_diff u v : length u = length v → close (max_abs_diff u v) u v.
Proof.
  intros Hlen. unfold close, max_abs_diff.
  pose proof (np_max_ge (map Qabs (zip_with Qminus u v))) as H.
  set (d := np_max _) in *. clearbody d.
  revert v Hlen H. induction u as [|x u IH]; intros [|y v] Hlen H; simpl in *; try discriminate.
  - constructor.
  - inversion H; subst. constructor; [assumption|]. apply IH; [lia|assumption].
Qed.

Lemma max_abs_diff_le d u v : (0 <= d)%Q → close d u v → (max_abs_diff u v <= d)%Q.
Proof.
  intros Hd H. unfold max_abs_diff. apply np_max_le; [exact Hd|].
  induction H as [|x y u v Hxy Huv IH]; simpl; constructor; assumption.
Qed.

Lemma close_length d u v : close d u v → length u = length v.
Proof. apply Forall2_length. Qed.

Lemma close_mono d d' u v : (d <= d')%Q → close d u v → close d' u v.
Proof.
  intros Hd H. unfold close in *. eapply Forall2_impl; [exact H|].
  intros x y Hxy. simpl in *. lra.
Qed.

Lemma close_sym d u v : close d u v → close d v u.
Proof.
  unfold close. intros H. apply Forall2_flip. eapply Forall2_impl; [exact H|].
  intros x y Hxy. simpl in *. apply Qabs_diff_Qle_condition in Hxy.
  apply Qabs_diff_Qle_condition. lra.
Qed.

Lemma close_triangle d1 d2 u v w : close d1 u v → close d2 v w → close (d1 + d2) u w.
Proof.
  unfold close. intros H. revert w.
  induction H as [|x y u v Hxy Huv IH]; intros w Hw; inversion Hw; subst; constructor.
  - match goal with H : (Qabs (y - _) <= d2)%Q |- _ => apply Qabs_diff_Qle_condition in H end.
    apply Qabs_diff_Qle_condition in Hxy. apply Qabs_diff_Qle_condition. lra.
  - apply IH. assumption.
Qed.


(** ** The Bellman update is a contraction *)

Lemma dot_cons x y u v : dot (x :: u) (y :: v) = (x * y + dot u v)%Q.
Proof. reflexivity. Qed.
Lemma dot_nil_l u : dot [] u = 0%Q.
Proof. reflexivity. Qed.
Lemma dot_nil_r u : dot u [] = 0%Q.
Proof. destruct u; reflexivity. Qed.

Lemma dot_close d row : Forall (Qle 0) row → ∀ u v, (0 <= d)%Q → close d u v →
  (Qabs (dot row u - dot row v) <= d * np_sum row)%Q.
Proof.
  induction 1 as [|p row Hp Hrow IH]; intros u v Hd Huv.
  - rewrite !dot_nil_l. change (np_sum []) with 0%Q. apply Qabs_Qle_condition. lra.
  - destruct Huv as [|x y u v Hxy Huv].
    + rewrite !dot_nil_r, np_sum_cons.
      pose proof (np_sum_nonneg row Hrow). apply Qabs_Qle_condition. nra.
    + rewrite !dot_cons, np_sum_cons. specialize (IH u v Hd Huv).
      apply Qabs_Qle_condition in IH. apply Qabs_diff_Qle_condition in Hxy.
      apply Qabs_Qle_condition. nra.
Qed.

Lemma Qmax_close d a b a' b' :
  (Qabs (a - a') <= d)%Q → (Qabs (b - b') <= d)%Q →
  (Qabs (Qmax a b - Qmax a' b') <= d)%Q.
Proof.
  intros Ha Hb. apply Qabs_diff_Qle_condition in Ha, Hb. apply Qabs_diff_Qle_condition.
  destruct (Q.max_spec a b) as [[? ->]|[? ->]], (Q.max_spec a' b') as [[? ->]|[? ->]]; lra.
Qed.

Lemma zip_Qmax_close d a a' : close d a a' → ∀ b b', close d b b' →
  close d (zip_with Qmax a b) (zip_with Qmax a' b').
Proof.
  induction 1 as [|x x' a a' Hx Ha IH]; intros b b' Hb; [constructor|].
  destruct Hb as [|y y' b b' Hy Hb]; [constructor|].
  simpl. constructor; [apply Qmax_close; assumption | apply IH; assumption].
Qed.

Lemma scale_close g d u v : (0 <= g)%Q → close d u v →
  close (g * d) (map (Qmult g) u) (map (Qmult g) v).
Proof.
  intros Hg. induction 1 as [|x y u v Hxy Huv IH]; simpl; constructor; [|exact IH].
  apply Qabs_diff_Qle_condition in Hxy. apply Qabs_diff_Qle_condition. nra.
Qed.

Lemma shift_close d (r : list Q) : ∀ u v, close d u v →
  close d (zip_with Qplus r u) (zip_with Qplus r v).
Proof.
  induction r as [|z r IH]; intros u v Huv; [constructor|].
  destruct Huv as [|x y u v Hxy Huv]; [constructor|].
  simpl. constructor; [|apply IH; exact Huv].
  apply Qabs_diff_Qle_condition in Hxy. apply Qabs_diff_Qle_condition. lra.
Qed.

Lemma action_values_close (P : tensor) a d u v :
  row_stochastic P → (0 <= d)%Q → close d u v →
  close d (action_values P a u) (action_values P a v).
Proof.
  intros HP Hd Huv. unfold action_values, close.
  apply Forall2_fmap, Forall_Forall2_diag, Forall_lookup.
  intros s rows Hs. cbv beta.
  destruct (rows !! a) as [row|] eqn:Ha.
  - rewrite (list_lookup_total_correct _ _ _ Ha).
    destruct (HP _ _ _ _ Hs Ha) as [Hsum Hnn].
    pose proof (dot_close d row Hnn u v Hd Huv) as H. rewrite Hsum in H. lra.
  - rewrite list_lookup_total_alt, Ha. cbn [default]. change (@inhabitant (list Q) _) with (@nil Q). rewrite !dot_nil_l.
    apply Qabs_Qle_condition. lra.
Qed.

Lemma bellman_close m g d u v :
  row_stochastic (transition_probs m) → (0 <= g)%Q → (0 <= d)%Q → close d u v →
  close (g * d) (bellman m g u) (bellman m g v).
Proof.
  intros HP Hg Hd Huv. unfold bellman.
  apply shift_close, scale_close; [exact Hg|].
  apply zip_Qmax_close; apply action_values_close; assumption.
Qed.

Lemma bellman_contraction m g u v :
  row_stochastic (transition_probs m) → (0 <= g)%Q → length u = length v →
  (max_abs_diff (bellman m g u) (bellman m g v) <= g * max_abs_diff u v)%Q.
Proof.
  intros HP Hg Hlen. pose proof (max_abs_diff_nonneg u v) as Hd.
  apply max_abs_diff_le; [nra|].
  apply bellman_close; try assumption. apply close_max_abs_diff. exact Hlen.
Qed.

Lemma length_action_values (P : tensor) a v : length (action_values P a v) = length P.
Proof. unfold action_values. apply length_map. Qed.

Lemma length_bellman m g v :
  length (bellman m g v) = (length (reward m) `min` length (transition_probs m))%nat.
Proof.
  unfold bellman. rewrite length_zip_with, length_map, length_zip_with, !length_action_values.
  lia.
Qed.

(** ** The sweeps of value iteration *)

Lemma sweeps_shift m g k v : sweeps m g k (bellman m g v) = sweeps m g (S k) v.
Proof. unfold sweeps. rewrite Nat.iter_succ_r. reflexivity. Qed.

Lemma sweep_diff_shift m g x k v :
  sweep_diff (set_value m x) g k (bellman m g v) = sweep_diff m g (S k) v.
Proof.
  unfold sweep_diff.
  change (sweeps (set_value m x) g) with (sweeps m g).
  rewrite !sweeps_shift. reflexivity.
Qed.

Lemma length_sweeps m g n v : length (reward m) = n → length (transition_probs m) = n →
  length v = n → ∀ k, length (sweeps m g k v) = n.
Proof.
  intros Hr Hp Hv. induction k as [|k IH]; [exact Hv|].
  change (sweeps m g (S k) v) with (bellman m g (sweeps m g k v)).
  rewrite length_bellman. lia.
Qed.

(** The loop stops at the first sweep whose [max_diff] is below the
    tolerance, whatever fuel is left. *)
Lemma value_iteration_exact g tol k : ∀ m fuel,
  (∀ i, (i < k)%nat → (tol <= sweep_diff m g i (value m))%Q) →
  (sweep_diff m g k (value m) < tol)%Q →
  value_iteration fuel g tol m
  = if decide (k < fuel)%nat then Ok (set_value m (sweeps m g (S k) (value m)))
    else OutOfFuel.
Proof.
  induction k as [|k IH]; intros m [|fuel] Hge Hlt; try reflexivity.
  - cbn [value_iteration].
    change (max_abs_diff (bellman m g (value m)) (value m))
      with (sweep_diff m g 0 (value m)).
    destruct (Qlt_le_dec _ tol); [|lra].
    rewrite decide_True by lia. reflexivity.
  - cbn [value_iteration].
    change (max_abs_diff (bellman m g (value m)) (value m))
      with (sweep_diff m g 0 (value m)).
    pose proof (Hge 0%nat ltac:(lia)) as H0.
    destruct (Qlt_le_dec _ tol); [lra|].
    rewrite (IH (set_value m (bellman m g (value m))) fuel).
    + cbn [value set_value].
      change (sweeps (set_value m (bellman m g (value m))) g) with (sweeps m g).
      rewrite sweeps_shift.
      destruct (decide (k < fuel)%nat), (decide (S k < S fuel)%nat); try lia; reflexivity.
    + intros i Hi. cbn [value set_value]. rewrite sweep_diff_shift. apply Hge. lia.
    + cbn [value set_value]. rewrite sweep_diff_shift. exact Hlt.
Qed.

Lemma sweep_diff_decay m g v :
  row_stochastic (transition_probs m) → (0 <= g)%Q →
  length (reward m) = length v → length (transition_probs m) = length v →
  ∀ k, (sweep_diff m g k v <= Qpow g k * sweep_diff m g 0 v)%Q.
Proof.
  intros HP Hg Hr Hp. induction k as [|k IH]; [cbn [Qpow]; lra|].
  unfold sweep_diff at 1.
  change (sweeps m g (S (S k)) v) with (bellman m g (sweeps m g (S k) v)).
  change (sweeps m g (S k) v) with (bellman m g (sweeps m g k v)) at 2.
  eapply Qle_trans.
  { apply bellman_contraction; [exact HP | exact Hg |].
    rewrite !(length_sweeps m g (length v)) by auto. reflexivity. }
  fold (sweep_diff m g k v). cbn [Qpow]. nra.
Qed.

Lemma Qpow_nonneg g k : (0 <= g)%Q → (0 <= Qpow g k)%Q.
Proof. intros Hg. induction k as [|k IH]; cbn [Qpow]; [lra | nra]. Qed.

Lemma Qnat_S k : (Qnat (S k) == Qnat k + 1)%Q.
Proof. unfold Qnat. rewrite Nat2Z.inj_succ, <- Z.add_1_r, inject_Z_plus. reflexivity. Qed.

Lemma Qnat_nonneg k : (0 <= Qnat k)%Q.
Proof. unfold Qnat. change 0%Q with (inject_Z 0). rewrite <- Zle_Qle. lia. Qed.

(** Bernoulli's inequality, in the form that needs no division. *)
Lemma Qpow_bernoulli g k : (0 <= g)%Q → (g <= 1)%Q →
  (Qpow g k * (1 + Qnat k * (1 - g)) <= 1)%Q.
Proof.
  intros H0 H1. induction k as [|k IH].
  - cbn [Qpow]. change (Qnat 0) with 0%Q. lra.
  - cbn [Qpow]. rewrite Qnat_S.
    pose proof (Qpow_nonneg g k H0) as Hp. pose proof (Qnat_nonneg k) as Hk.
    assert (0 <= (Qnat k + 1) * ((1 - g) * (1 - g)))%Q as Hsq
      by (apply Qmult_le_0_compat; nra).
    assert (g * (1 + (Qnat k + 1) * (1 - g)) <= 1 + Qnat k * (1 - g))%Q as Hstep by nra.
    assert (Qpow g k * (g * (1 + (Qnat k + 1) * (1 - g)))
            <= Qpow g k * (1 + Qnat k * (1 - g)))%Q as Hmul by nra.
    nra.
Qed.

Lemma geometric_below g d tol : (0 <= g)%Q → (g < 1)%Q → (0 <= d)%Q → (0 < tol)%Q →
  ∃ k, (Qpow g k * d < tol)%Q.
Proof.
  intros H0 H1 Hd Htol.
  destruct (Qarchimedean (d / ((1 - g) * tol))) as [p Hp].
  exists (Pos.to_nat p).
  assert (Qnat (Pos.to_nat p) == Z.pos p # 1)%Q as Hk.
  { unfold Qnat. rewrite positive_nat_Z. reflexivity. }
  rewrite <- Hk in Hp. clear Hk.
  pose proof (Qpow_nonneg g (Pos.to_nat p) H0) as Hpow.
  pose proof (Qpow_bernoulli g (Pos.to_nat p) H0 ltac:(lra)) as Hb.
  pose proof (Qnat_nonneg (Pos.to_nat p)) as Hn.
  set (A := Qpow g (Pos.to_nat p)) in *. set (K := Qnat (Pos.to_nat p)) in *.
  assert (d < K * ((1 - g) * tol))%Q as Hdk.
  { assert (0 < (1 - g) * tol)%Q as Hpos by nra.
    assert (d == d / ((1 - g) * tol) * ((1 - g) * tol))%Q as Hq by (field; lra).
    rewrite Hq at 1. apply Qmult_lt_compat_r; assumption. }
  destruct (Qlt_le_dec 0 A) as [HA|HA].
  - assert (A * d < A * (K * ((1 - g) * tol)))%Q as H2 by nra.
    assert (A * (K * ((1 - g) * tol)) <= (1 - A) * tol)%Q as H3 by nra.
    nra.
  - assert (A == 0)%Q as -> by lra. lra.
Qed.

Lemma least_index (P : nat → Prop) (dec : ∀ i, {P i} + {¬ P i}) k :
  P k → ∃ k0, P k0 ∧ ∀ i, (i < k0)%nat → ¬ P i.
Proof.
  assert (∀ n, (∀ i, (i < n)%nat → ¬ P i)
               ∨ ∃ k0, P k0 ∧ ∀ i, (i < k0)%nat → ¬ P i) as Hscan.
  { induction n as [|n [IH|IH]]; [left; intros; lia | | right; exact IH].
    destruct (dec n) as [Hn|Hn]; [right; eauto|].
    left. intros i Hi. destruct (decide (i = n)) as [->|]; [exact Hn|]. apply IH. lia. }
  intros Hk. destruct (Hscan (S k)) as [Hnone|Hsome]; [|exact Hsome].
  exfalso. apply (Hnone k); [lia | exact Hk].
Qed.

(** ** Termination and the fixed point *)

Lemma mdp_shape_lengths m : mdp_shape m →
  length (reward m) = length (value m) ∧ length (transition_probs m) = length (value m).
Proof. intros (_ & _ & (Hp & _) & _ & Hr & Hv). split; congruence. Qed.

Lemma sweep_diff_nonneg m g k v : (0 <= sweep_diff m g k v)%Q.
Proof. apply max_abs_diff_nonneg. Qed.

Lemma stopping_sweep m g tol :
  mdp_shape m → row_stochastic (transition_probs m) →
  (0 <= g)%Q → (g < 1)%Q → (0 < tol)%Q →
  ∃ k, (sweep_diff m g k (value m) < tol)%Q
       ∧ ∀ i, (i < k)%nat → (tol <= sweep_diff m g i (value m))%Q.
Proof.
  intros Hshape HP H0 H1 Htol. destruct (mdp_shape_lengths m Hshape) as [Hr Hp].
  destruct (geometric_below g (sweep_diff m g 0 (value m)) tol H0 H1
              (sweep_diff_nonneg _ _ _ _) Htol) as [k1 Hk1].
  pose proof (sweep_diff_decay m g (value m) HP H0 Hr Hp k1) as Hdec.
  destruct (least_index (λ i, sweep_diff m g i (value m) < tol)%Q) with (k := k1)
    as (k & Hk & Hleast).
  - intros i. destruct (Qlt_le_dec (sweep_diff m g i (value m)) tol); [left|right]; lra.
  - lra.
  - exists k. split; [exact Hk|]. intros i Hi. apply Qnot_lt_le. apply Hleast. exact Hi.
Qed.

Lemma bellman_lookup m g v s r rows r0 r1 :
  reward m !! s = Some r → transition_probs m !! s = Some rows →
  rows !! 0%nat = Some r0 → rows !! 1%nat = Some r1 →
  bellman m g v !! s = Some (r + g * Qmax (dot r0 v) (dot r1 v))%Q.
Proof.
  intros Hr Hrows H0 H1. unfold bellman, action_values.
  rewrite lookup_zip_with, Hr. cbn [mbind option_bind].
  rewrite list_lookup_fmap, lookup_zip_with, !list_lookup_fmap, Hrows.
  cbn [fmap option_fmap option_map mbind option_bind].
  rewrite (list_lookup_total_correct _ _ _ H0), (list_lookup_total_correct _ _ _ H1).
  reflexivity.
Qed.

(** The vector the loop returns, [v = bellman u] with [u] the vector before
    the last sweep, is within [g * max_diff] of its own Bellman update. *)
Lemma bellman_residual m g u :
  row_stochastic (transition_probs m) → (0 <= g)%Q →
  length (bellman m g u) = length u →
  close (g * max_abs_diff (bellman m g u) u)
    (bellman m g (bellman m g u)) (bellman m g u).
Proof.
  intros HP Hg Hlen. apply bellman_close; [exact HP | exact Hg | apply max_abs_diff_nonneg |].
  apply close_max_abs_diff. exact Hlen.
Qed.

Lemma value_iteration_Ok fuel g tol : ∀ m m',
  value_iteration fuel g tol m = Ok m' →
  ∃ u, value m' = bellman m g u ∧ (max_abs_diff (bellman m g u) u < tol)%Q
       ∧ ∃ k, u = sweeps m g k (value m).
Proof.
  induction fuel as [|fuel IH]; intros m m' H; [discriminate|].
  cbn [value_iteration] in H. destruct (Qlt_le_dec _ tol) as [Hlt|Hge].
  - injection H as <-. exists (value m). split; [reflexivity|]. split; [exact Hlt|].
    exists 0%nat. reflexivity.
  - apply IH in H as (u & Hv & Hd & k & Hk).
    change (bellman (set_value m (bellman m g (value m))) g) with (bellman m g) in Hv, Hd.
    exists u. split; [exact Hv|]. split; [exact Hd|].
    exists (S k). rewrite Hk. cbn [value set_value].
    change (sweeps (set_value m (bellman m g (value m))) g) with (sweeps m g).
    apply sweeps_shift.
Qed.

(** The loop stops at the first sweep whose [max_diff] is below the
    tolerance. *)
Lemma value_iteration_stops (m : MDP) (gamma tol : Q) :
  mdp_shape m → row_stochastic (transition_probs m) →
  (0 < gamma)%Q → (gamma < 1)%Q → (0 < tol)%Q →
  ∃ k,
    (sweep_diff m gamma k (value m) < tol)%Q
    ∧ (∀ i, (i < k)%nat → (tol <= sweep_diff m gamma i (value m))%Q)
    ∧ ∀ fuel,
        value_iteration fuel gamma tol m
        = if decide (k < fuel)%nat
          then Ok (set_value m (sweeps m gamma (S k) (value m)))
          else OutOfFuel.
Proof.
  intros Hshape HP H0 H1 Htol.
  destruct (stopping_sweep m gamma tol Hshape HP ltac:(lra) H1 Htol) as (k & Hk & Hleast).
  exists k. split; [exact Hk|]. split; [exact Hleast|].
  intros fuel. apply value_iteration_exact; assumption.
Qed.

Lemma mdp_shape_set_value m v : mdp_shape m → length v = num_states m →
  mdp_shape (set_value m v).
Proof.
  intros (H1 & H2 & H3 & H4 & H5 & _) Hv.
  unfold mdp_shape. cbn [set_value num_states transition_counts transition_probs
    reward_counts reward value]. auto 10.
Qed.

Lemma length_sweeps_eq m g v w : length v = length w →
  ∀ k, length (sweeps m g k v) = length (sweeps m g k w).
Proof.
  intros Hlen [|k]; [exact Hlen|].
  change (sweeps m g (S k) ?x) with (bellman m g (sweeps m g k x)).
  rewrite !length_bellman. reflexivity.
Qed.

Lemma sweeps_contraction m g v w :
  row_stochastic (transition_probs m) → (0 <= g)%Q → length v = length w →
  ∀ k, (max_abs_diff (sweeps m g k v) (sweeps m g k w) <= Qpow g k * max_abs_diff v w)%Q.
Proof.
  intros HP Hg Hlen. induction k as [|k IH]; [cbn [Qpow]; unfold sweeps; simpl; lra|].
  change (sweeps m g (S k) ?x) with (bellman m g (sweeps m g k x)).
  eapply Qle_trans.
  { apply bellman_contraction; [exact HP | exact Hg | apply length_sweeps_eq; exact Hlen]. }
  cbn [Qpow]. nra.
Qed.

Lemma action_values_take (P : tensor) a v : (a < 2)%nat →
  action_values P a v = action_values (map (take 2) P) a v.
Proof.
  intros Ha. unfold action_values. rewrite map_map. apply map_ext. intros rows.
  rewrite lookup_total_take_lt by exact Ha. reflexivity.
Qed.

Lemma bellman_without_duck m m2 g v :
  reward m2 = reward m →
  map (take 2) (transition_probs m2) = map (take 2) (transition_probs m) →
  bellman m2 g v = bellman m g v.
Proof.
  intros Hr HP. unfold bellman.
  rewrite (action_values_take (transition_probs m2) 0), (action_values_take (transition_probs m2) 1),
    (action_values_take (transition_probs m) 0), (action_values_take (transition_probs m) 1) by lia.
  rewrite Hr, HP. reflexivity.
Qed.

(** Two vectors that are each within [e] of their own Bellman update are
    within [2 e / (1 - g)] of each other. *)
Lemma near_fixed_points_close m g e a b :
  row_stochastic (transition_probs m) → (0 <= g)%Q → (0 <= e)%Q →
  length a = length b →
  close e (bellman m g a) a → close e (bellman m g b) b →
  (max_abs_diff a b * (1 - g) <= 2 * e)%Q.
Proof.
  intros HP Hg He Hlen Ha Hb.
  pose proof (max_abs_diff_nonneg a b) as HD.
  assert (close (e + g * max_abs_diff a b + e) a b) as Hab.
  { eapply close_triangle; [eapply close_triangle|].
    - apply close_sym. exact Ha.
    - apply bellman_close; [exact HP | exact Hg | exact HD |].
      apply close_max_abs_diff. exact Hlen.
    - exact Hb. }
  apply max_abs_diff_le in Hab; [lra | nra].
Qed.

(** X17: value iteration in exact arithmetic.  With rationals in place of
    binary64 numbers, for a model with row-stochastic transition
    probabilities, a discount in (0, 1) and a positive tolerance, and from
    every initial value vector, the repeated sweep stops at a vector that
    satisfies the Bellman equation
    [v s = reward s + gamma * max (Q_none s) (Q_jump s)] within the tolerance
    at every state; the vectors reached from any two initial vectors are
    within [2 * gamma * tol / (1 - gamma)] of each other, and after [k]
    sweeps two value vectors are [gamma ^ k] times as close as they were; the
    rows of DUCK play no part in the sweep. *)
Theorem exact_value_iteration_converges (m : MDP) (gamma tol : Q) :
  mdp_shape m → row_stochastic (transition_probs m) →
  (0 < gamma)%Q → (gamma < 1)%Q → (0 < tol)%Q →
  (∀ v0, length v0 = num_states m →
     ∃ k m',
       (∀ fuel, (k < fuel)%nat →
          value_iteration fuel gamma tol (set_value m v0) = Ok m')
       ∧ transition_probs m' = transition_probs m ∧ reward m' = reward m
       ∧ length (value m') = num_states m
       ∧ ∀ s x r rows r0 r1,
           value m' !! s = Some x → reward m !! s = Some r →
           transition_probs m !! s = Some rows →
           rows !! 0%nat = Some r0 → rows !! 1%nat = Some r1 →
           (Qabs (x - (r + gamma * Qmax (dot r0 (value m')) (dot r1 (value m')))) < tol)%Q)
  ∧ (∀ v0 w0 f1 f2 m1 m2,
       length v0 = num_states m → length w0 = num_states m →
       value_iteration f1 gamma tol (set_value m v0) = Ok m1 →
       value_iteration f2 gamma tol (set_value m w0) = Ok m2 →
       (max_abs_diff (value m1) (value m2) * (1 - gamma) < 2 * gamma * tol)%Q)
  ∧ (∀ v0 w0 k, length v0 = length w0 →
       (max_abs_diff (sweeps m gamma k v0) (sweeps m gamma k w0)
        <= Qpow gamma k * max_abs_diff v0 w0)%Q)
  ∧ (∀ m2 v, reward m2 = reward m →
       map (take 2) (transition_probs m2) = map (take 2) (transition_probs m) →
       bellman m2 gamma v = bellman m gamma v).
Proof.
  intros Hshape HP H0 H1 Htol.
  destruct (mdp_shape_lengths m Hshape) as [Hr Hp].
  assert (length (value m) = num_states m) as Hn by apply Hshape.
  assert (∀ v k, length v = num_states m → length (sweeps m gamma k v) = num_states m) as Hlen.
  { intros v k Hv. apply length_sweeps; congruence. }
  split; [|split; [|split]].
  - intros v0 Hv0.
    destruct (value_iteration_stops (set_value m v0) gamma tol) as (k & Hk & _ & Hrun);
      try assumption.
    { apply mdp_shape_set_value; assumption. }
    cbn [value set_value] in Hk, Hrun.
    change (sweeps (set_value m v0) gamma) with (sweeps m gamma) in Hrun.
    exists k, (set_value (set_value m v0) (sweeps m gamma (S k) v0)).
    split; [intros fuel Hfuel; rewrite Hrun, decide_True by exact Hfuel; reflexivity|].
    split; [reflexivity|]. split; [reflexivity|].
    cbn [value set_value]. split; [apply Hlen; exact Hv0|].
    intros s x r rows r0 r1 Hx Hrs Hrows Hr0 Hr1.
    set (u := sweeps m gamma k v0) in *.
    change (sweeps m gamma (S k) v0) with (bellman m gamma u) in *.
    assert (length (bellman m gamma u) = length u) as Hlu.
    { unfold u. change (bellman m gamma (sweeps m gamma k v0)) with (sweeps m gamma (S k) v0).
      rewrite !Hlen by exact Hv0. reflexivity. }
    pose proof (bellman_residual m gamma u HP ltac:(lra) Hlu) as Hres.
    pose proof (bellman_lookup m gamma (bellman m gamma u) s r rows r0 r1 Hrs Hrows Hr0 Hr1) as Hb.
    pose proof (Forall2_lookup_lr _ _ _ _ _ _ Hres Hb Hx) as Hsx. cbv beta in Hsx.
    unfold sweep_diff in Hk. change (sweeps (set_value m v0) gamma) with (sweeps m gamma) in Hk.
    fold u in Hk. change (sweeps m gamma (S k) v0) with (bellman m gamma u) in Hk.
    pose proof (max_abs_diff_nonneg (bellman m gamma u) u) as Hd.
    apply Qabs_diff_Qle_condition in Hsx. apply Qabs_diff_Qlt_condition. split; nra.
  - intros v0 w0 f1 f2 m1 m2 Hv0 Hw0 E1 E2.
    apply value_iteration_Ok in E1 as (u & Hu & Hdu & ku & ->).
    apply value_iteration_Ok in E2 as (w & Hw & Hdw & kw & ->).
    cbn [value set_value] in *.
    change (bellman (set_value m ?x) gamma) with (bellman m gamma) in *.
    change (sweeps (set_value m ?x) gamma) with (sweeps m gamma) in *.
    rewrite Hu, Hw.
    set (u := sweeps m gamma ku v0) in *. set (w := sweeps m gamma kw w0) in *.
    assert (length (bellman m gamma u) = length u) as Hlu.
    { unfold u. change (bellman m gamma (sweeps m gamma ku v0)) with (sweeps m gamma (S ku) v0).
      rewrite !Hlen by exact Hv0. reflexivity. }
    assert (length (bellman m gamma w) = length w) as Hlw.
    { unfold w. change (bellman m gamma (sweeps m gamma kw w0)) with (sweeps m gamma (S kw) w0).
      rewrite !Hlen by exact Hw0. reflexivity. }
    pose proof (bellman_residual m gamma u HP ltac:(lra) Hlu) as Hru.
    pose proof (bellman_residual m gamma w HP ltac:(lra) Hlw) as Hrw.
    pose proof (max_abs_diff_nonneg (bellman m gamma u) u) as Hdu0.
    pose proof (max_abs_diff_nonneg (bellman m gamma w) w) as Hdw0.
    set (e := Qmax (gamma * max_abs_diff (bellman m gamma u) u)
                   (gamma * max_abs_diff (bellman m gamma w) w)).
    assert (gamma * max_abs_diff (bellman m gamma u) u <= e)%Q as Heu by apply Q.le_max_l.
    assert (gamma * max_abs_diff (bellman m gamma w) w <= e)%Q as Hew by apply Q.le_max_r.
    assert (e < gamma * tol)%Q as Hetol.
    { unfold e. apply Q.max_lub_lt; nra. }
    pose proof (near_fixed_points_close m gamma e (bellman m gamma u) (bellman m gamma w) HP
                  ltac:(lra) ltac:(nra)) as Hnear.
    assert (max_abs_diff (bellman m gamma u) (bellman m gamma w) * (1 - gamma) <= 2 * e)%Q.
    { apply Hnear.
      - unfold u, w.
        change (bellman m gamma (sweeps m gamma ?k ?x)) with (sweeps m gamma (S k) x).
        rewrite !Hlen by assumption. reflexivity.
      - eapply close_mono; [exact Heu | exact Hru].
      - eapply close_mono; [exact Hew | exact Hrw]. }
    lra.
  - intros v0 w0 k Hl. apply sweeps_contraction; [exact HP | lra | exact Hl].
  - intros m2 v Hr2 HP2. apply bellman_without_duck; assumption.
Qed.

(** ** The shape of the model is an invariant *)

Lemma tensor_shape_replicate n (x : Q) :
  tensor_shape n (replicate n (replicate 3 (replicate n x))).
Proof.
  split; [apply length_replicate|]. intros s rows Hs.
  apply lookup_replicate_1 in Hs as [-> _]. split; [apply length_replicate|].
  intros a row Ha. apply lookup_replicate_1 in Ha as [-> _]. apply length_replicate.
Qed.

Lemma init_mdp_shape a : mdp_shape (initialize_mdp_data a).
Proof.
  unfold mdp_shape. rewrite num_states_init.
  pose proof (num_states_init a) as Hn.
  cbn [initialize_mdp_data num_states] in Hn.
  cbn [initialize_mdp_data transition_counts transition_probs reward_counts reward value].
  rewrite Hn. split; [lia|].
  split; [apply tensor_shape_replicate|]. split; [apply tensor_shape_replicate|].
  rewrite !length_replicate. auto.
Qed.

Lemma tensor_shape_incr n (f : Q → Q) (C : tensor) s a k :
  tensor_shape n C → tensor_shape n (alter (alter (alter f k) a) s C).
Proof.
  intros [Hlen Hrows]. split; [rewrite length_alter; exact Hlen|].
  intros s' rows' Hs'. rewrite list_lookup_alter in Hs'.
  destruct (decide (s = s')) as [<-|Hne]; [|apply Hrows in Hs'; exact Hs'].
  destruct (C !! s) as [rows|] eqn:E; [|discriminate]. simpl in Hs'. injection Hs' as <-.
  destruct (Hrows _ _ E) as [H3 Hrow]. split; [rewrite length_alter; exact H3|].
  intros a' row' Ha'. rewrite list_lookup_alter in Ha'.
  destruct (decide (a = a')) as [<-|Hne]; [|eapply Hrow; exact Ha'].
  destruct (rows !! a) as [row|] eqn:E'; [|discriminate]. simpl in Ha'. injection Ha' as <-.
  rewrite length_alter. eapply Hrow; exact E'.
Qed.

Lemma length_refit_row n counts probs : length counts = n → length probs = n →
  length (refit_row counts probs) = n.
Proof.
  intros Hc Hp. unfold refit_row. destruct (Qlt_le_dec _ _); [|exact Hp].
  rewrite length_map. exact Hc.
Qed.

Lemma tensor_shape_refit n counts probs :
  tensor_shape n counts → tensor_shape n probs → tensor_shape n (refit_probs counts probs).
Proof.
  intros [Hc Hcr] [Hp Hpr]. split; [unfold refit_probs; rewrite length_zip_with; lia|].
  intros s rows' Hs. unfold refit_probs in Hs. rewrite lookup_zip_with in Hs.
  destruct (counts !! s) as [crows|] eqn:E1; [|discriminate].
  destruct (probs !! s) as [prows|] eqn:E2; [|discriminate].
  simpl in Hs. injection Hs as <-.
  destruct (Hcr _ _ E1) as [Hc3 Hcrow]. destruct (Hpr _ _ E2) as [Hp3 Hprow].
  split; [rewrite length_zip_with; lia|].
  intros a row' Ha. rewrite lookup_zip_with in Ha.
  destruct (crows !! a) as [crow|] eqn:E3; [|discriminate].
  destruct (prows !! a) as [prow|] eqn:E4; [|discriminate].
  simpl in Ha. injection Ha as <-. apply length_refit_row; eauto.
Qed.

Lemma mdp_shape_refit m : mdp_shape m → mdp_shape (refit_estimates m).
Proof.
  intros (H1 & H2 & H3 & H4 & H5 & H6). unfold mdp_shape, refit_estimates.
  cbn [set_estimates num_states transition_counts transition_probs reward_counts reward value].
  split; [exact H1|]. split; [exact H2|]. split; [apply tensor_shape_refit; assumption|].
  split; [exact H4|]. split; [|exact H6].
  unfold refit_reward. rewrite length_zip_with. lia.
Qed.

Lemma mdp_shape_value_iteration fuel g tol m m' :
  mdp_shape m → value_iteration fuel g tol m = Ok m' → mdp_shape m'.
Proof.
  intros Hshape H. destruct (mdp_shape_lengths m Hshape) as [Hr Hp].
  destruct (value_iteration_Ok _ _ _ _ _ H) as (u & Hv & _ & k & ->).
  apply value_iteration_frame in H as (E1 & _ & E2 & E3 & E4 & E5).
  destruct Hshape as (H1 & H2 & H3 & H4 & H5 & H6).
  unfold mdp_shape. rewrite E1, E2, E3, E4, E5.
  split; [exact H1|]. split; [exact H2|]. split; [exact H3|].
  split; [exact H4|]. split; [exact H5|].
  rewrite Hv. change (bellman m g (sweeps m g k (value m))) with (sweeps m g (S k) (value m)).
  apply length_sweeps; [exact H5 | apply H3 | exact H6].
Qed.

Lemma run_call_shape gamma tol m c m' :
  run_call gamma tol m c = Ok m' → mdp_shape m → mdp_shape m'.
Proof.
  intros H Hshape. destruct c as [st act new_st r crashed|fuel]; simpl in H.
  - apply update_mdp_counts_Ok in H as (s & new_s & _ & _ & ->).
    destruct Hshape as (H1 & H2 & H3 & H4 & H5 & H6). unfold mdp_shape.
    cbn [set_counts num_states transition_counts transition_probs reward_counts reward value].
    split; [exact H1|]. split; [apply tensor_shape_incr; exact H2|].
    split; [exact H3|]. rewrite length_alter. auto.
  - unfold update_mdp_parameters in H.
    eapply mdp_shape_value_iteration; [|exact H]. apply mdp_shape_refit. exact Hshape.
Qed.

Lemma run_call_grid gamma tol m c m' :
  run_call gamma tol m c = Ok m' →
  num_states m' = num_states m ∧ state_discretization m' = state_discretization m.
Proof.
  intros H. destruct c as [st act new_st r crashed|fuel]; simpl in H.
  - apply update_mdp_counts_Ok in H as (s & new_s & _ & _ & ->). auto.
  - apply update_mdp_parameters_frame in H as (H1 & H2 & _). auto.
Qed.

(** What holds of every model the agent can reach. *)
Lemma run_calls_reachable gamma tol cs : ∀ m m',
  run_calls gamma tol m cs = Ok m' →
  mdp_shape m → nonneg_counts (transition_counts m) → row_stochastic (transition_probs m) →
  mdp_shape m' ∧ nonneg_counts (transition_counts m') ∧ row_stochastic (transition_probs m')
  ∧ num_states m' = num_states m ∧ state_discretization m' = state_discretization m.
Proof.
  induction cs as [|c cs IH]; intros m m' H Hs Hc Hp; simpl in H.
  - injection H as <-. auto.
  - inv_bind H.
    destruct (run_call_invariant _ _ _ _ _ Ha (conj Hc Hp)) as [Hc' Hp'].
    destruct (run_call_grid _ _ _ _ _ Ha) as [E1 E2].
    destruct (IH _ _ H (run_call_shape _ _ _ _ _ Ha Hs) Hc' Hp') as (? & ? & ? & ? & ?).
    split; [assumption|]. split; [assumption|]. split; [assumption|]. split; congruence.
Qed.

(** A refit of a reachable model returns, given enough fuel. *)
Lemma update_mdp_parameters_terminates gamma tol m :
  mdp_shape m → nonneg_counts (transition_counts m) → row_stochastic (transition_probs m) →
  (0 < gamma)%Q → (gamma < 1)%Q → (0 < tol)%Q →
  ∃ k m', ∀ fuel, (k < fuel)%nat → update_mdp_parameters fuel gamma tol m = Ok m'.
Proof.
  intros Hs Hc Hp H0 H1 Htol. unfold update_mdp_parameters.
  destruct (value_iteration_stops (refit_estimates m) gamma tol) as (k & _ & _ & Hrun);
    try assumption.
  - apply mdp_shape_refit. exact Hs.
  - apply refit_probs_stochastic; assumption.
  - exists k. eexists. intros fuel Hfuel. rewrite Hrun, decide_True by exact Hfuel. reflexivity.
Qed.

(** ** The claims on a small instance *)

Lemma rows_sum_to_one_witness :
  ∃ m, run_calls (1 # 2) 2 (initialize_mdp_data example_args) example_calls = Ok m
       ∧ ∀ s rows act row,
           transition_probs m !! s = Some rows → rows !! act = Some row →
           (np_sum row == 1)%Q ∧ Forall (Qle 0) row.
Proof.
  eexists. split.
  - vm_compute. reflexivity.
  - apply (rows_sum_to_one example_args (1 # 2) 2 example_calls). vm_compute. reflexivity.
Defined.

Lemma refit_postcondition_witness :
  ∃ m1 m2,
    update_mdp_counts (initialize_mdp_data example_args) None 1 small_cactus_ahead 1 false
    = Ok m1
    ∧ update_mdp_parameters 1 (1 # 2) 2 m1 = Ok m2
    ∧ ∃ jump_row x,
        transition_probs m2 !! 1%nat
        = Some [replicate 11 (1 / Qnat 11)%Q; jump_row; replicate 11 (1 / Qnat 11)%Q]
        ∧ (∀ j p, jump_row !! j = Some p → (p == if decide (j = 2%nat) then 1 else 0)%Q)
        ∧ reward m2 !! 2%nat = Some x ∧ (x == 1)%Q.
Proof.
  assert (∃ m1 m2,
            update_mdp_counts (initialize_mdp_data example_args) None 1 small_cactus_ahead 1 false
            = Ok m1
            ∧ update_mdp_parameters 1 (1 # 2) 2 m1 = Ok m2) as (m1 & m2 & E1 & E2).
  { eexists. eexists. split; vm_compute; reflexivity. }
  assert (get_closest_state_idx (initialize_mdp_data example_args) None false = Ok 1%nat)
    as Hs by (vm_compute; reflexivity).
  assert (get_closest_state_idx (initialize_mdp_data example_args) small_cactus_ahead false
          = Ok 2%nat) as Hnew by (vm_compute; reflexivity).
  exists m1, m2. split; [exact E1|]. split; [exact E2|].
  destruct (proj2 refit_postcondition example_args 1%nat (1 # 2)%Q 2%Q None small_cactus_ahead
              m1 m2 Hs Hnew E1 E2)
    as (jump_row & x & H1 & _ & H2 & H3 & H4).
  exists jump_row, x. split; [exact H1|]. split; [exact H2|]. split; [exact H3 | exact H4].
Defined.

Lemma best_action_spec_witness :
  best_action (initialize_mdp_data example_args) None = Ok 0%nat.
Proof.
  destruct (best_action_spec (initialize_mdp_data example_args) None 1
              (replicate 3 (replicate 11 (1 / Qnat 11)%Q))
              (replicate 11 (1 / Qnat 11)%Q) (replicate 11 (1 / Qnat 11)%Q)
              (replicate 11 (1 / Qnat 11)%Q) eq_refl eq_refl eq_refl eq_refl eq_refl)
    as (act & E & _ & _ & _ & Htie).
  rewrite E. f_equal. apply Htie; vm_compute; reflexivity.
Defined.

Lemma exact_value_iteration_converges_witness :
  ∃ k m', ∀ fuel, (k < fuel)%nat →
    value_iteration fuel (1 # 2) 2
      (set_value (initialize_mdp_data example_args) (replicate 11 5%Q)) = Ok m'.
Proof.
  destruct (exact_value_iteration_converges (initialize_mdp_data example_args) (1 # 2) 2)
    as (Hrun & _).
  - apply init_mdp_shape.
  - apply init_row_stochastic.
  - reflexivity.
  - reflexivity.
  - reflexivity.
  - destruct (Hrun (replicate 11 5%Q) eq_refl) as (k & m' & H & _).
    exists k, m'. exact H.
Defined.

(** ** binary64 arithmetic on [eps] *)

Lemma f1_eq : f1 = S754_finite false 4503599627370496 (-52).
Proof. vm_compute. reflexivity. Qed.

Lemma f0_01_eq : f0_01 = S754_finite false 5764607523034235 (-59).
Proof. vm_compute. reflexivity. Qed.

Lemma digits2_bounds p :
  (2 ^ (Z.pos (digits2_pos p) - 1) <= Z.pos p < 2 ^ Z.pos (digits2_pos p))%Z.
Proof.
  induction p as [p IH|p IH|]; cbn [digits2_pos]; rewrite ?Pos2Z.inj_succ.
  - replace (Z.succ (Z.pos (digits2_pos p)) - 1)%Z with (Z.succ (Z.pos (digits2_pos p) - 1))%Z by lia.
    rewrite !Z.pow_succ_r by lia. rewrite (Pos2Z.inj_xI p). lia.
  - replace (Z.succ (Z.pos (digits2_pos p)) - 1)%Z with (Z.succ (Z.pos (digits2_pos p) - 1))%Z by lia.
    rewrite !Z.pow_succ_r by lia. rewrite (Pos2Z.inj_xO p). lia.
  - simpl. lia.
Qed.

Lemma digits2_unique p k :
  (2 ^ (k - 1) <= Z.pos p < 2 ^ k)%Z → Z.pos (digits2_pos p) = k.
Proof.
  intros [Hlo Hhi]. pose proof (digits2_bounds p) as [Hlo' Hhi'].
  set (d := Z.pos (digits2_pos p)) in *.
  assert (0 < k)%Z as Hk.
  { destruct (Z.lt_trichotomy k 0) as [H|[->|H]]; [|simpl in Hhi; lia|exact H].
    rewrite Z.pow_neg_r in Hhi by exact H. lia. }
  destruct (Z.lt_trichotomy d k) as [H|[H|H]]; [|exact H|].
  - assert (2 ^ d <= 2 ^ (k - 1))%Z by (apply Z.pow_le_mono_r; lia). lia.
  - assert (2 ^ k <= 2 ^ (d - 1))%Z by (apply Z.pow_le_mono_r; lia). lia.
Qed.

Lemma shr_1_m r : (0 <= shr_m r)%Z → shr_m (shr_1 r) = (shr_m r / 2)%Z ∧ (0 <= shr_m (shr_1 r))%Z.
Proof.
  destruct r as [m r s]. cbn [shr_m]. intros Hm.
  destruct m as [|[p|p|]|p]; cbn [shr_1 shr_m]; try lia.
  - split; [reflexivity | lia].
  - rewrite (Pos2Z.inj_xI p). split; [|lia]. apply Z.div_unique with 1%Z; lia.
  - rewrite (Pos2Z.inj_xO p). split; [|lia]. apply Z.div_unique with 0%Z; lia.
  - split; [reflexivity | lia].
Qed.

Lemma iter_pos_shr_m n : ∀ r, (0 <= shr_m r)%Z →
  shr_m (SpecFloat.iter_pos shr_1 n r) = (shr_m r / 2 ^ Z.pos n)%Z
  ∧ (0 <= shr_m (SpecFloat.iter_pos shr_1 n r))%Z.
Proof.
  induction n as [n IH|n IH|]; intros r Hr; cbn [SpecFloat.iter_pos].
  - destruct (shr_1_m r Hr) as [E1 H1].
    destruct (IH _ H1) as [E2 H2]. destruct (IH _ H2) as [E3 H3].
    split; [|exact H3]. rewrite E3, E2, E1.
    rewrite !Z.div_div by lia. f_equal.
    rewrite (Pos2Z.inj_xI n), Z.pow_add_r, Z.pow_mul_r by lia.
    change (2 ^ 2)%Z with 4%Z. change (2 ^ 1)%Z with 2%Z.
    assert (2 ^ Z.pos n * 2 ^ Z.pos n = 4 ^ Z.pos n)%Z as ->.
    { rewrite <- Z.pow_mul_l. reflexivity. }
    lia.
  - destruct (IH _ Hr) as [E2 H2]. destruct (IH _ H2) as [E3 H3].
    split; [|exact H3]. rewrite E3, E2.
    rewrite !Z.div_div by lia. f_equal.
    rewrite (Pos2Z.inj_xO n), Z.pow_mul_r by lia. change (2 ^ 2)%Z with 4%Z.
    rewrite <- Z.pow_mul_l. reflexivity.
  - destruct (shr_1_m r Hr) as [E1 H1]. split; [|exact H1]. rewrite E1. reflexivity.
Qed.

Lemma iter_xO_Z m d : Z.pos (Pos.iter xO m d) = (Z.pos m * 2 ^ Z.pos d)%Z.
Proof.
  induction d as [|d IH] using Pos.peano_ind.
  - simpl. lia.
  - rewrite Pos.iter_succ, (Pos2Z.inj_xO (Pos.iter xO m d)), IH, Pos2Z.inj_succ, Z.pow_succ_r by lia. lia.
Qed.

Lemma fexp_normal e : (-1021 <= e)%Z → fexp prec emax e = (e - 53)%Z.
Proof. intros H. unfold fexp, emin, prec, emax. lia. Qed.

Lemma round_nearest_even_cases m l :
  round_nearest_even m l = m ∨ round_nearest_even m l = (m + 1)%Z.
Proof.
  unfold round_nearest_even. destruct l as [|[| |]]; auto. destruct (Z.even m); auto.
Qed.

(** Shifting a long mantissa down to 53 bits. *)
Lemma shr_fexp_shift M e l :
  (54 <= Z.pos (digits2_pos M))%Z → (-52 <= Z.pos (digits2_pos M) + e - 53)%Z →
  ∃ mrs, shr_fexp prec emax (Z.pos M) e l = (mrs, (Z.pos (digits2_pos M) + e - 53)%Z)
         ∧ (2 ^ 52 <= shr_m mrs < 2 ^ 53)%Z.
Proof.
  intros Hd He. unfold shr_fexp. cbn [Zdigits2].
  rewrite fexp_normal by lia.
  set (d := Z.pos (digits2_pos M)) in *.
  replace (d + e - 53 - e)%Z with (d - 53)%Z by lia.
  destruct (d - 53)%Z as [|p|p] eqn:Ep; try lia.
  cbn [shr].
  destruct (iter_pos_shr_m p (shr_record_of_loc (Z.pos M) l)) as [Em _].
  { destruct l as [|[| |]]; cbn [shr_record_of_loc shr_m]; lia. }
  eexists. split; [f_equal; lia|].
  rewrite Em.
  assert (shr_m (shr_record_of_loc (Z.pos M) l) = Z.pos M) as ->
    by (destruct l as [|[| |]]; reflexivity).
  pose proof (digits2_bounds M) as [Hlo Hhi]. fold d in Hlo, Hhi.
  assert (0 < 2 ^ Z.pos p)%Z as Hpow by (apply Z.pow_pos_nonneg; lia).
  assert (2 ^ (d - 1) = 2 ^ 52 * 2 ^ Z.pos p)%Z as E1.
  { rewrite <- Z.pow_add_r by lia. f_equal. lia. }
  assert (2 ^ d = 2 ^ 53 * 2 ^ Z.pos p)%Z as E2.
  { rewrite <- Z.pow_add_r by lia. f_equal. lia. }
  split.
  - apply Z.div_le_lower_bound; [exact Hpow|]. lia.
  - apply Z.div_lt_upper_bound; [exact Hpow|]. lia.
Qed.

(** A 53-bit mantissa with a normal exponent is left as it is. *)
Lemma shr_fexp_keep m e :
  (2 ^ 52 <= Z.pos m < 2 ^ 53)%Z → (-52 <= e)%Z →
  shr_fexp prec emax (Z.pos m) e loc_Exact
  = ({| shr_m := Z.pos m; shr_r := false; shr_s := false |}, e).
Proof.
  intros Hm He. unfold shr_fexp. cbn [Zdigits2].
  rewrite (digits2_unique m 53) by exact Hm.
  rewrite fexp_normal by lia.
  replace (53 + e - 53 - e)%Z with 0%Z by lia. reflexivity.
Qed.

(** Rounding up to 2^53 renormalises to 2^52 with the next exponent. *)
Lemma shr_fexp_carry e :
  (-52 <= e)%Z →
  shr_fexp prec emax (2 ^ 53) e loc_Exact
  = ({| shr_m := 2 ^ 52; shr_r := false; shr_s := false |}, (e + 1)%Z).
Proof.
  intros He. unfold shr_fexp.
  change (Zdigits2 (2 ^ 53)) with 54%Z.
  rewrite fexp_normal by lia.
  replace (54 + e - 53 - e)%Z with 1%Z by lia. reflexivity.
Qed.

Lemma binary_round_aux_at_least_one M e :
  (54 <= Z.pos (digits2_pos M))%Z → (-52 <= Z.pos (digits2_pos M) + e - 53)%Z →
  at_least_one (binary_round_aux prec emax false (Z.pos M) e loc_Exact).
Proof.
  intros Hd He. unfold binary_round_aux.
  destruct (shr_fexp_shift M e loc_Exact Hd He) as (mrs & -> & Hm).
  set (e1 := (Z.pos (digits2_pos M) + e - 53)%Z) in *.
  destruct (round_nearest_even_cases (shr_m mrs) (loc_of_shr_record mrs)) as [->| ->].
  - destruct (shr_m mrs) as [|m1|m1] eqn:Em; try lia.
    rewrite shr_fexp_keep by assumption. cbn [shr_m].
    destruct (e1 <=? emax - prec)%Z; [right|left; reflexivity].
    exists m1, e1. split; [reflexivity|]. lia.
  - destruct (Z.eq_dec (shr_m mrs + 1) (2 ^ 53))%Z as [E|E].
    + rewrite E, shr_fexp_carry by exact He. cbn [shr_m].
      change (2 ^ 52)%Z with (Z.pos 4503599627370496).
      destruct (e1 + 1 <=? emax - prec)%Z; [right|left; reflexivity].
      exists 4503599627370496%positive, (e1 + 1)%Z. split; [reflexivity|].
      change (2 ^ 52)%Z with 4503599627370496%Z. lia.
    + destruct (shr_m mrs + 1)%Z as [|m1|m1] eqn:Em; try lia.
      rewrite shr_fexp_keep by (try assumption; lia). cbn [shr_m].
      destruct (e1 <=? emax - prec)%Z; [right|left; reflexivity].
      exists m1, e1. split; [reflexivity|]. lia.
Qed.

Lemma shl_align_below m ex ez :
  (ez < ex)%Z →
  ∃ m', shl_align m ex ez = (m', ez) ∧ Z.pos m' = (Z.pos m * 2 ^ (ex - ez))%Z.
Proof.
  intros H. unfold shl_align. destruct (ez - ex)%Z as [|d|d] eqn:E; try lia.
  eexists. split; [reflexivity|]. rewrite iter_xO_Z. f_equal. f_equal. lia.
Qed.

Lemma shl_align_above m ex ez : (ex <= ez)%Z → shl_align m ex ez = (m, ex).
Proof.
  intros H. unfold shl_align. destruct (ez - ex)%Z as [|d|d] eqn:E; try lia; reflexivity.
Qed.

(** Adding 0.01 to a float that is at least 1 gives a float that is at
    least 1. *)
Lemma at_least_one_step e : at_least_one e → at_least_one (fadd e f0_01).
Proof.
  intros [->|(m & ex & -> & Hex & Hm)]; [left; rewrite f0_01_eq; reflexivity|].
  rewrite f0_01_eq. unfold fadd, SFadd.
  replace (Z.min ex (-59)) with (-59)%Z by lia.
  destruct (shl_align_below m ex (-59) ltac:(lia)) as (m' & -> & Hm').
  rewrite (shl_align_above 5764607523034235 (-59) (-59)) by lia.
  cbn [fst cond_Zopp].
  change (Z.pos m' + 5764607523034235)%Z with (Z.pos (m' + 5764607523034235)).
  cbn [binary_normalize]. unfold binary_round.
  set (M := (m' + 5764607523034235)%positive).
  assert (2 ^ 59 <= Z.pos M)%Z as HM.
  { unfold M. rewrite Pos2Z.inj_add, Hm'.
    assert (2 ^ 7 <= 2 ^ (ex - -59))%Z by (apply Z.pow_le_mono_r; lia).
    change (2 ^ 59)%Z with (2 ^ 52 * 2 ^ 7)%Z. nia. }
  assert (60 <= Z.pos (digits2_pos M))%Z as Hd.
  { pose proof (digits2_bounds M) as [_ Hhi].
    destruct (Z_lt_le_dec (Z.pos (digits2_pos M)) 60) as [Hlt|]; [|assumption].
    assert (2 ^ Z.pos (digits2_pos M) <= 2 ^ 59)%Z by (apply Z.pow_le_mono_r; lia). lia. }
  rewrite fexp_normal by lia.
  rewrite shl_align_above by lia.
  apply binary_round_aux_at_least_one; lia.
Qed.

Lemma at_least_one_f1 : at_least_one f1.
Proof.
  right. exists 4503599627370496%positive, (-52)%Z.
  split; [apply f1_eq|]. split; [lia | vm_compute; discriminate].
Qed.

Lemma at_least_one_eps_after n : at_least_one (eps_after n).
Proof.
  induction n as [|n IH]; [apply at_least_one_f1|].
  change (eps_after (S n)) with (fadd (eps_after n) f0_01).
  apply at_least_one_step. exact IH.
Qed.

Lemma Zcompare_cases (a b : Z) :
  ((a ?= b)%Z = Eq ∧ a = b) ∨ ((a ?= b)%Z = Lt ∧ (a < b)%Z) ∨ ((a ?= b)%Z = Gt ∧ (b < a)%Z).
Proof. destruct (Z.compare_spec a b); auto. Qed.

Lemma Poscompare_cases (a b : positive) :
  (PosDef.Pos.compare_cont Eq a b = Eq ∧ Z.pos a = Z.pos b)
  ∨ (PosDef.Pos.compare_cont Eq a b = Lt ∧ (Z.pos a < Z.pos b)%Z)
  ∨ (PosDef.Pos.compare_cont Eq a b = Gt ∧ (Z.pos b < Z.pos a)%Z).
Proof.
  change (PosDef.Pos.compare_cont Eq a b) with (Pos.compare a b).
  destruct (Pos.compare_spec a b) as [->|H|H]; auto.
Qed.

Lemma at_least_one_ge e : at_least_one e → fleb f1 e = true.
Proof.
  intros [->|(m & ex & -> & Hex & Hm)]; [rewrite f1_eq; reflexivity|].
  rewrite f1_eq. unfold fleb, SFleb, SFcompare.
  change (2 ^ 52)%Z with (Z.pos 4503599627370496) in Hm.
  destruct (Zcompare_cases (-52) ex) as [[E H]|[[E H]|[E H]]]; rewrite E.
  - destruct (Poscompare_cases 4503599627370496 m) as [[E' H']|[[E' H']|[E' H']]];
      rewrite E'; try reflexivity.
    exfalso. eapply Z.lt_irrefl. eapply Z.lt_le_trans; eassumption.
  - reflexivity.
  - exfalso. eapply Z.lt_irrefl. eapply Z.lt_le_trans; eassumption.
Qed.

(** What it is to be below 1, and to be at least 1. *)
Lemma fltb_f1_inv r :
  fltb r f1 = true →
  match r with
  | S754_zero _ => True
  | S754_infinity s => s = true
  | S754_nan => False
  | S754_finite s m e =>
      s = true ∨ (e < -52)%Z ∨ (e = (-52)%Z ∧ (Z.pos m < Z.pos 4503599627370496)%Z)
  end.
Proof.
  rewrite f1_eq. unfold fltb, SFltb, SFcompare.
  destruct r as [s|s| |s m e]; try discriminate; try (intros; exact I).
  - destruct s; [reflexivity | discriminate].
  - destruct s; [left; reflexivity|]. intros H. right.
    destruct (Zcompare_cases e (-52)) as [[E He]|[[E He]|[E He]]]; rewrite E in H.
    + right. split; [exact He|].
      destruct (Poscompare_cases m 4503599627370496) as [[E' Hm]|[[E' Hm]|[E' Hm]]];
        rewrite E' in H; try discriminate. exact Hm.
    + left. exact He.
    + discriminate.
Qed.

Lemma fleb_f1_inv e :
  fleb f1 e = true →
  match e with
  | S754_infinity s => s = false
  | S754_finite s m ex =>
      s = false
      ∧ ((-52 < ex)%Z ∨ (ex = (-52)%Z ∧ (Z.pos 4503599627370496 <= Z.pos m)%Z))
  | _ => False
  end.
Proof.
  rewrite f1_eq. unfold fleb, SFleb, SFcompare.
  destruct e as [s|s| |s m ex]; try discriminate.
  - destruct s; [discriminate | reflexivity].
  - destruct s; [discriminate|]. intros H. split; [reflexivity|].
    destruct (Zcompare_cases (-52) ex) as [[E He]|[[E He]|[E He]]]; rewrite E in H.
    + right. split; [symmetry; exact He|].
      destruct (Poscompare_cases 4503599627370496 m) as [[E' Hm]|[[E' Hm]|[E' Hm]]];
        rewrite E' in H; try discriminate.
      * rewrite <- Hm. apply Z.le_refl.
      * apply Z.lt_le_incl. exact Hm.
    + left. exact He.
    + discriminate.
Qed.

(** A draw below 1 is below every float that is at least 1. *)
Lemma below_one_below r e : fltb r f1 = true → fleb f1 e = true → fltb r e = true.
Proof.
  intros Hr He. apply fltb_f1_inv in Hr. apply fleb_f1_inv in He.
  unfold fltb, SFltb, SFcompare.
  destruct r as [sr|sr| |sr mr er], e as [se|se| |se me ee]; try contradiction;
    try (subst; reflexivity).
  - destruct He as [-> _]. reflexivity.
  - destruct He as [-> He]. destruct sr; [reflexivity|].
    destruct Hr as [Hr|Hr]; [discriminate|].
    destruct (Zcompare_cases er ee) as [[E H]|[[E H]|[E H]]]; rewrite E.
    + destruct (Poscompare_cases mr me) as [[E' Hm]|[[E' Hm]|[E' Hm]]]; rewrite E'.
      * exfalso. clear E E'. destruct Hr as [?|[? ?]], He as [?|[? ?]]; subst.
        all: try (apply (Z.lt_irrefl ee); eapply Z.lt_trans; eassumption).
        all: try (eapply Z.lt_irrefl; eassumption).
        rewrite Hm in *. eapply Z.lt_irrefl. eapply Z.lt_le_trans; eassumption.
      * reflexivity.
      * exfalso. clear E E'. destruct Hr as [?|[? ?]], He as [?|[? ?]]; subst.
        all: try (apply (Z.lt_irrefl ee); eapply Z.lt_trans; eassumption).
        all: try (eapply Z.lt_irrefl; eassumption).
        eapply Z.lt_irrefl. eapply Z.lt_trans; [exact Hm|].
        eapply Z.lt_le_trans; eassumption.
    + reflexivity.
    + exfalso. clear E. destruct Hr as [?|[? ?]], He as [?|[? ?]]; subst.
      * apply (Z.lt_irrefl ee). eapply Z.lt_trans; [exact H|]. eapply Z.lt_trans; eassumption.
      * apply (Z.lt_irrefl er). eapply Z.lt_trans; eassumption.
      * apply (Z.lt_irrefl ee). eapply Z.lt_trans; eassumption.
      * eapply Z.lt_irrefl; eassumption.
Qed.

(** ** [eps] along the life of an agent *)

Lemma step_eps self ev self' :
  step self ev = Ok self' →
  eps self' = if is_reset ev then fadd (eps self) f0_01 else eps self.
Proof.
  destruct ev as [r1 r2|crashed new_st|fuel]; cbn [step is_reset]; intros H.
  - inv_bind H. destruct a as [s c]. injection H as <-.
    unfold choose_action in Ha. inv_bind Ha. injection Ha as <- _. reflexivity.
  - unfold set_transition in H. inv_bind H. injection H as <-. reflexivity.
  - unfold reset in H. inv_bind H. injection H as <-. reflexivity.
Qed.

Lemma run_agent_eps evs : ∀ self self',
  run_agent self evs = Ok self' →
  eps self' = Nat.iter (count_resets evs) (λ e, fadd e f0_01) (eps self).
Proof.
  induction evs as [|ev evs IH]; intros self self' H; cbn [run_agent] in H.
  - injection H as <-. reflexivity.
  - inv_bind H. rewrite (IH _ _ H), (step_eps _ _ _ Ha).
    unfold count_resets. cbn [List.filter].
    destruct (is_reset ev); [|reflexivity].
    cbn [length]. rewrite Nat.iter_succ_r. reflexivity.
Qed.

Lemma choose_action_greedy self r1 r2 :
  fltb r1 (eps self) = true → choose_action self r1 r2 = greedy_choice self.
Proof. intros H. unfold choose_action, greedy_choice. rewrite H. reflexivity. Qed.

Lemma fltb_fleb x y : fltb x y = true → fleb x y = true.
Proof.
  unfold fltb, fleb, SFltb, SFleb. destruct (SFcompare x y) as [[| |]|]; congruence.
Qed.

Lemma eps_after_closed_form n :
  (n <= 12)%nat → feqb (eps_after n) (eps_closed_form n) = true.
Proof.
  intros H.
  do 13 (destruct n as [|n]; [vm_compute; reflexivity|]). lia.
Qed.

(** C8, as the code has it: after the agent's [__init__] and any events
    with N resets among them, [eps] is 0.01 added N times to 1.0 in
    binary64; that is the binary64 value of [1.0 + 0.01 * N] for N up to
    12; and once [eps > 1], for every draw below 1 [choose_action] takes its
    greedy branch. *)
Theorem eps_after_resets (a : Args) (s0 : option obstacle) (evs : list event)
    (self : AIAgent) :
  run_agent (init a s0) evs = Ok self →
  eps self = eps_after (count_resets evs)
  ∧ ((count_resets evs <= 12)%nat →
       feqb (eps self) (eps_closed_form (count_resets evs)) = true)
  ∧ ∀ r1 r2, fltb f1 (eps self) = true → fltb r1 f1 = true →
      fltb r1 (eps self) = true ∧ choose_action self r1 r2 = greedy_choice self.
Proof.
  intros H. apply run_agent_eps in H. cbn [init eps] in H. fold (eps_after (count_resets evs)) in H.
  split; [exact H|]. split.
  - intros Hn. rewrite H. apply eps_after_closed_form. exact Hn.
  - intros r1 r2 Heps Hr.
    assert (fltb r1 (eps self) = true) as Hlt.
    { apply below_one_below; [exact Hr | apply fltb_fleb; exact Heps]. }
    split; [exact Hlt | apply choose_action_greedy; exact Hlt].
Qed.

(** C9: at every point of the agent's life, from [__init__] on, [eps] is
    at least 1, so for every draw below 1 the test [r < eps] succeeds and
    [choose_action] takes its greedy branch. *)
Theorem eps_never_below_one (a : Args) (s0 : option obstacle) (evs : list event)
    (self : AIAgent) :
  run_agent (init a s0) evs = Ok self →
  fleb f1 (eps self) = true
  ∧ ∀ r1 r2, fleb f0 r1 = true → fltb r1 f1 = true →
      fltb r1 (eps self) = true ∧ choose_action self r1 r2 = greedy_choice self.
Proof.
  intros H. apply run_agent_eps in H. cbn [init eps] in H. fold (eps_after (count_resets evs)) in H.
  assert (fleb f1 (eps self) = true) as Hge.
  { rewrite H. apply at_least_one_ge, at_least_one_eps_after. }
  split; [exact Hge|]. intros r1 r2 _ Hr.
  assert (fltb r1 (eps self) = true) as Hlt by (apply below_one_below; assumption).
  split; [exact Hlt | apply choose_action_greedy; exact Hlt].
Qed.

(** ** Episodes can be run *)

Lemma init_agent_ok a s0 :
  (0 < arg_gamma a)%Q → (arg_gamma a < 1)%Q → (0 < arg_tolerance a)%Q →
  agent_ok (init a s0).
Proof.
  intros H0 H1 Ht. unfold agent_ok. cbn [init mdp_data gamma tolerance].
  split; [apply init_mdp_shape|]. split; [apply init_nonneg_counts|].
  split; [apply init_row_stochastic|]. auto.
Qed.

Lemma reset_terminates self :
  agent_ok self →
  ∃ k self', (∀ fuel, (k < fuel)%nat → reset fuel self = Ok self') ∧ agent_ok self'.
Proof.
  intros (Hs & Hc & Hp & H0 & H1 & Ht).
  destruct (update_mdp_parameters_terminates (gamma self) (tolerance self) (mdp_data self)
              Hs Hc Hp H0 H1 Ht) as (k & m' & Hrun).
  exists k. eexists. split.
  - intros fuel Hfuel. unfold reset. rewrite (Hrun fuel Hfuel). reflexivity.
  - pose proof (Hrun (S k) ltac:(lia)) as Hk.
    change (update_mdp_parameters (S k) (gamma self) (tolerance self) (mdp_data self))
      with (run_call (gamma self) (tolerance self) (mdp_data self) (Refit (S k))) in Hk.
    destruct (run_call_invariant _ _ _ _ _ Hk (conj Hc Hp)) as [Hc' Hp'].
    pose proof (run_call_shape _ _ _ _ _ Hk Hs) as Hs'.
    unfold agent_ok. cbn [mdp_data gamma tolerance]. auto 10.
Qed.

Lemma resets_exist n : ∀ self, agent_ok self →
  ∃ evs self', count_resets evs = n ∧ run_agent self evs = Ok self'.
Proof.
  induction n as [|n IH]; intros self Hok.
  - exists [], self. split; reflexivity.
  - destruct (reset_terminates self Hok) as (k & self1 & Hrun & Hok1).
    destruct (IH self1 Hok1) as (evs & self' & Hn & Hevs).
    exists (Reset (S k) :: evs), self'. split.
    + unfold count_resets in *. cbn [List.filter is_reset length]. rewrite Hn. reflexivity.
    + cbn [run_agent step]. rewrite (Hrun (S k)) by lia. exact Hevs.
Qed.

(** C8 as stated fails at N = 13: thirteen additions of 0.01 to 1.0 give
    1.1300000000000001, the float above the value of [1.0 + 0.01 * 13]. *)
Lemma eps_after_13_resets_differs :
  ∃ evs self,
    count_resets evs = 13%nat
    ∧ run_agent (init example_args None) evs = Ok self
    ∧ feqb (eps self) (eps_closed_form 13) = false.
Proof.
  destruct (resets_exist 13 (init example_args None)) as (evs & self & Hn & Hrun).
  { apply init_agent_ok; reflexivity. }
  exists evs, self. split; [exact Hn|]. split; [exact Hrun|].
  apply run_agent_eps in Hrun. rewrite Hrun, Hn. vm_compute. reflexivity.
Qed.

Lemma eps_after_resets_witness :
  ∃ self, run_agent (init example_args None) example_events = Ok self
          ∧ eps self = eps_after 1.
Proof.
  assert (∃ self, run_agent (init example_args None) example_events = Ok self) as [self E].
  { eexists. vm_compute. reflexivity. }
  exists self. split; [exact E|].
  exact (proj1 (eps_after_resets example_args None example_events self E)).
Defined.

Lemma eps_never_below_one_witness :
  ∃ self, run_agent (init example_args None) example_events = Ok self
          ∧ fleb f1 (eps self) = true.
Proof.
  assert (∃ self, run_agent (init example_args None) example_events = Ok self) as [self E].
  { eexists. vm_compute. reflexivity. }
  exists self. split; [exact E|].
  exact (proj1 (eps_never_below_one example_args None example_events self E)).
Defined.

(** * Further properties *)

(** ** Nearest buckets on an ascending grid *)


Lemma abs_diff_lookup grid x i g :
  grid !! i = Some g → abs_diff grid x !! i = Some (Qabs (g - x)).
Proof. intros H. unfold abs_diff. rewrite list_lookup_fmap, H. reflexivity. Qed.

Lemma abs_diff_lookup_inv grid x i d :
  abs_diff grid x !! i = Some d → ∃ g, grid !! i = Some g ∧ d = Qabs (g - x).
Proof.
  unfold abs_diff. rewrite list_lookup_fmap. destruct (grid !! i) as [g|]; [|discriminate].
  intros [= <-]. eauto.
Qed.


(** Below the grid, the nearest bucket is the first one. *)
Lemma nearest_below grid x g0 :
  ascending grid → grid !! 0%nat = Some g0 → (x <= g0)%Q → nearest grid x 0.
Proof.
  intros Hasc H0 Hx. exists (Qabs (g0 - x)). split; [apply abs_diff_lookup; exact H0|].
  split; [|intros j y Hlt; lia].
  intros j y Hj. apply abs_diff_lookup_inv in Hj as (g' & Hg' & ->).
  assert (g0 <= g')%Q as Hgg.
  { destruct j as [|j]; [rewrite H0 in Hg'; injection Hg' as <-; lra|].
    apply Qlt_le_weak. eapply Hasc; [|exact H0|exact Hg']. lia. }
  rewrite !Qabs_pos by lra. lra.
Qed.

(** Above the grid, the nearest bucket is the last one. *)
Lemma nearest_above grid x i g :
  ascending grid → grid !! i = Some g → S i = length grid → (g <= x)%Q → nearest grid x i.
Proof.
  intros Hasc Hi Hlast Hx. exists (Qabs (g - x)). split; [apply abs_diff_lookup; exact Hi|].
  assert (∀ j g', grid !! j = Some g' → (j < i)%nat ∨ (j = i ∧ g' = g)) as Hcases.
  { intros j g' Hj. pose proof (lookup_lt_Some _ _ _ Hj) as Hlt.
    destruct (decide (j = i)) as [->|Hne]; [right; split; [reflexivity | congruence]|].
    left. lia. }
  split.
  - intros j y Hj. apply abs_diff_lookup_inv in Hj as (g' & Hg' & ->).
    destruct (Hcases _ _ Hg') as [Hlt|[-> ->]]; [|lra].
    pose proof (Hasc _ _ _ _ Hlt Hg' Hi) as Hgg.
    rewrite !Qabs_neg by lra. lra.
  - intros j y Hlt Hj. apply abs_diff_lookup_inv in Hj as (g' & Hg' & ->).
    pose proof (Hasc _ _ _ _ Hlt Hg' Hi) as Hgg.
    rewrite !Qabs_neg by lra. lra.
Qed.





(** ** The index of an observation *)


Lemma decode_index n t j k :
  (j < 3)%nat → (k < n)%nat →
  distance_bucket n (t * 3 * n + j * n + k + 2) = k
  ∧ config_bucket n (t * 3 * n + j * n + k + 2) = j
  ∧ type_ordinal n (t * 3 * n + j * n + k + 2) = t.
Proof.
  intros Hj Hk. unfold distance_bucket, config_bucket, type_ordinal.
  replace (t * 3 * n + j * n + k + 2 - 2)%nat with (k + (t * 3 + j) * n)%nat by lia.
  rewrite Nat.Div0.mod_add, Nat.mod_small by lia.
  rewrite Nat.div_add by lia. rewrite (Nat.div_small k n) by lia.
  replace (0 + (t * 3 + j))%nat with (j + t * 3)%nat by lia.
  rewrite Nat.Div0.mod_add, Nat.mod_small by lia.
  rewrite Nat.div_add by lia. rewrite (Nat.div_small j 3) by lia. auto.
Qed.



(** X2: the two reserved states.  With at least one distance bucket, the
    discretizer returns the FAIL state 0 exactly for a crash with an
    obstacle of a known type on screen, and the no-obstacle state 1 exactly
    when no obstacle is on screen, crash or not. *)
Theorem reserved_states (a : Args) (state : option obstacle) (isFail : bool) :
  (1 <= n_x a)%nat →
  (get_closest_state_idx (initialize_mdp_data a) state isFail = Ok 0%nat
   ↔ isFail = true ∧ ∃ st, state = Some st ∧ is_Some (OBSTACLE_TYPES !! type st))
  ∧ (get_closest_state_idx (initialize_mdp_data a) state isFail = Ok 1%nat
     ↔ state = None).
Proof.
  intros Hn. destruct state as [st|].
  - destruct (OBSTACLE_TYPES !! type st) as [t|] eqn:Ht.
    + destruct (get_closest_state_idx_present a st isFail t Hn Ht) as (j & k & _ & _ & E).
      rewrite E. destruct isFail; cbn [Nat.mul].
      * split; split; try discriminate.
        -- intros _. split; [reflexivity|]. exists st. rewrite Ht. eauto.
        -- reflexivity.
      * split; split; try discriminate.
        -- intros [= H]. lia.
        -- intros [H _]. discriminate.
        -- intros [= H]. lia.
    + assert (get_closest_state_idx (initialize_mdp_data a) (Some st) isFail = Raise KeyError) as E.
      { unfold get_closest_state_idx. cbn [initialize_mdp_data state_discretization].
        rewrite Ht. reflexivity. }
      rewrite E. split; split; try discriminate.
      intros (_ & st' & [= <-] & [t' Ht']). congruence.
  - assert (get_closest_state_idx (initialize_mdp_data a) None isFail = Ok 1%nat) as E
      by reflexivity.
    rewrite E. split; split; try discriminate; try reflexivity.
    intros (_ & st & Hst & _). discriminate.
Qed.

Lemma reserved_states_witness :
  get_closest_state_idx (initialize_mdp_data example_args) small_cactus_ahead true = Ok 0%nat.
Proof.
  apply (reserved_states example_args small_cactus_ahead true).
  - simpl. lia.
  - split; [reflexivity|]. eexists. split; [reflexivity|]. exists 0%nat. reflexivity.
Defined.

(** ** Recording transitions *)

Lemma reachable_facts a m :
  reachable a m →
  mdp_shape m ∧ nonneg_counts (transition_counts m) ∧ row_stochastic (transition_probs m)
  ∧ num_states m = (9 * n_x a + 2)%nat
  ∧ state_discretization m = state_discretization (initialize_mdp_data a).
Proof.
  intros (gamma & tol & cs & H).
  destruct (run_calls_reachable _ _ _ _ _ H (init_mdp_shape a) (init_nonneg_counts a)
              (init_row_stochastic a)) as (H1 & H2 & H3 & H4 & H5).
  rewrite num_states_init in H4. auto.
Qed.

Lemma get_closest_state_idx_valid a o f :
  (1 <= n_x a)%nat → valid_observation o →
  ∃ i, get_closest_state_idx (initialize_mdp_data a) o f = Ok i
       ∧ (i < num_states (initialize_mdp_data a))%nat.
Proof.
  intros Hn Hv.
  assert (∃ i, get_closest_state_idx (initialize_mdp_data a) o f = Ok i) as [i E].
  { destruct o as [st|]; [|exists 1%nat; reflexivity].
    destruct Hv as [t Ht].
    destruct (get_closest_state_idx_present a st f t Hn Ht) as (j & k & _ & _ & E). eauto. }
  exists i. split; [exact E|]. eapply get_closest_state_idx_lt. exact E.
Qed.

Lemma count_at_Some (t : tensor) n s a s' :
  tensor_shape n t → (s < n)%nat → (a < 3)%nat → (s' < n)%nat →
  ∃ rows row c, t !! s = Some rows ∧ rows !! a = Some row ∧ row !! s' = Some c.
Proof.
  intros [Hlen Hrows] Hs Ha Hs'.
  destruct (lookup_lt_is_Some_2 t s ltac:(lia)) as [rows E].
  destruct (Hrows _ _ E) as [H3 Hrow].
  destruct (lookup_lt_is_Some_2 rows a ltac:(lia)) as [row E'].
  pose proof (Hrow _ _ E') as Hn.
  destruct (lookup_lt_is_Some_2 row s' ltac:(lia)) as [c E''].
  eauto 10.
Qed.

Lemma count_at_alter (f : Q → Q) (C : tensor) s a k s1 a1 k1 :
  count_at (alter (alter (alter f k) a) s C) s1 a1 k1
  = if decide (s = s1 ∧ a = a1 ∧ k = k1) then f <$> count_at C s1 a1 k1
    else count_at C s1 a1 k1.
Proof.
  unfold count_at. rewrite list_lookup_alter.
  destruct (decide (s = s1)) as [<-|Hs].
  - destruct (C !! s) as [rows|]; cbn [fmap option_fmap option_map].
    + rewrite list_lookup_alter. destruct (decide (a = a1)) as [<-|Ha].
      * destruct (rows !! a) as [row|]; cbn [fmap option_fmap option_map].
        -- rewrite list_lookup_alter. destruct (decide (k = k1)) as [<-|Hk].
           ++ rewrite decide_True by auto. reflexivity.
           ++ rewrite decide_False by tauto. reflexivity.
        -- destruct (decide _); reflexivity.
      * rewrite decide_False by tauto. reflexivity.
    + destruct (decide _); reflexivity.
  - rewrite decide_False by tauto. reflexivity.
Qed.

Lemma update_mdp_counts_Ok_lookups m st act new_st r crashed m' :
  update_mdp_counts m st act new_st r crashed = Ok m' →
  ∃ s new_s c acc n,
    get_closest_state_idx m st false = Ok s
    ∧ get_closest_state_idx m new_st crashed = Ok new_s
    ∧ count_at (transition_counts m) s act new_s = Some c
    ∧ reward_counts m !! new_s = Some (acc, n)
    ∧ m' = set_counts m
             (alter (alter (alter (λ c, c + 1)%Q new_s) act) s (transition_counts m))
             (alter (λ '(acc, n), (acc + r, n + 1))%Q new_s (reward_counts m)).
Proof.
  unfold update_mdp_counts. intros H.
  destruct (get_closest_state_idx m st false) as [s| |]; try discriminate.
  destruct (get_closest_state_idx m new_st crashed) as [new_s| |]; try discriminate.
  cbn [mbind result_bind] in H.
  destruct (transition_counts m !! s) as [rows|] eqn:E1; [|discriminate].
  cbn [from_option mbind result_bind] in H.
  destruct (rows !! act) as [row|] eqn:E2; [|discriminate].
  cbn [from_option mbind result_bind] in H.
  destruct (row !! new_s) as [c|] eqn:E3; [|discriminate].
  cbn [from_option mbind result_bind] in H.
  destruct (reward_counts m !! new_s) as [[acc n]|] eqn:E4; [|discriminate].
  cbn [from_option mbind result_bind] in H.
  injection H as <-. exists s, new_s, c, acc, n.
  unfold count_at. rewrite E1, E2, E3. auto 10.
Qed.

(** X6: what one recorded transition changes.  The count at (s, action, s')
    goes up by 1 and every other count is as before; state s' gets the
    reward added to its accumulated reward and one more visit, the
    accumulators of the other states are as before; the probabilities, the
    rewards and the values are untouched. *)
Theorem update_mdp_counts_effect (m : MDP) (st : option obstacle) (act : nat)
    (new_st : option obstacle) (r : Q) (crashed : bool) (m' : MDP) :
  update_mdp_counts m st act new_st r crashed = Ok m' →
  ∃ s new_s c acc n,
    get_closest_state_idx m st false = Ok s
    ∧ get_closest_state_idx m new_st crashed = Ok new_s
    ∧ count_at (transition_counts m) s act new_s = Some c
    ∧ count_at (transition_counts m') s act new_s = Some (c + 1)%Q
    ∧ (∀ s1 a1 k1, (s1, a1, k1) ≠ (s, act, new_s) →
         count_at (transition_counts m') s1 a1 k1 = count_at (transition_counts m) s1 a1 k1)
    ∧ reward_counts m !! new_s = Some (acc, n)
    ∧ reward_counts m' !! new_s = Some (acc + r, n + 1)%Q
    ∧ (∀ s1, s1 ≠ new_s → reward_counts m' !! s1 = reward_counts m !! s1)
    ∧ transition_probs m' = transition_probs m
    ∧ reward m' = reward m ∧ value m' = value m.
Proof.
  intros H.
  apply update_mdp_counts_Ok_lookups in H as (s & new_s & c & acc & n & Es & Enew & Ec & Erc & ->).
  exists s, new_s, c, acc, n.
  cbn [set_counts transition_counts reward_counts transition_probs reward value].
  split; [exact Es|]. split; [exact Enew|]. split; [exact Ec|]. split.
  { rewrite count_at_alter, decide_True, Ec by auto. reflexivity. }
  split.
  { intros s1 a1 k1 Hne. rewrite count_at_alter, decide_False; [reflexivity|].
    intros (-> & -> & ->). apply Hne. reflexivity. }
  split; [exact Erc|]. split.
  { rewrite list_lookup_alter_eq, Erc. reflexivity. }
  split; [|auto].
  intros s1 Hne. apply list_lookup_alter_ne. congruence.
Qed.

Lemma update_mdp_counts_effect_witness :
  ∃ m', update_mdp_counts (initialize_mdp_data example_args) None 1 small_cactus_ahead 1 false
        = Ok m'
        ∧ count_at (transition_counts m') 1 1 2 = Some (0 + 1)%Q.
Proof.
  assert (∃ m', update_mdp_counts (initialize_mdp_data example_args) None 1
                  small_cactus_ahead 1 false = Ok m') as [m' E].
  { eexists. vm_compute. reflexivity. }
  exists m'. split; [exact E|].
  destruct (update_mdp_counts_effect _ _ _ _ _ _ _ E)
    as (s & new_s & c & acc & n & Es & Enew & Ec & Ec' & _).
  vm_compute in Es. injection Es as <-. vm_compute in Enew. injection Enew as <-.
  vm_compute in Ec. injection Ec as <-. exact Ec'.
Defined.

(** ** Counts along the calls *)

Lemma run_call_counts_grow gamma tol m c m' :
  run_call gamma tol m c = Ok m' →
  ∀ s a s' x, count_at (transition_counts m) s a s' = Some x →
    ∃ y, count_at (transition_counts m') s a s' = Some y ∧ (x <= y)%Q.
Proof.
  intros H s a s' x Hx. destruct c as [st act new_st r crashed|fuel]; simpl in H.
  - apply update_mdp_counts_Ok in H as (s0 & new_s & _ & _ & ->).
    cbn [set_counts transition_counts]. rewrite count_at_alter, Hx.
    destruct (decide _); cbn [fmap option_fmap option_map]; eexists; split;
      try reflexivity; lra.
  - apply update_mdp_parameters_frame in H as (_ & _ & -> & _). exists x. split; [exact Hx|lra].
Qed.

(** X7: counts are never reset and never decrease: whatever transitions are
    recorded and whatever refits are run, every entry of [transition_counts]
    is still there and is at least what it was. *)
Theorem counts_never_decrease (gamma tol : Q) (cs : list call) (m m' : MDP) :
  run_calls gamma tol m cs = Ok m' →
  ∀ s a s' x, count_at (transition_counts m) s a s' = Some x →
    ∃ y, count_at (transition_counts m') s a s' = Some y ∧ (x <= y)%Q.
Proof.
  revert m. induction cs as [|c cs IH]; intros m H s a s' x Hx; simpl in H.
  - injection H as <-. exists x. split; [exact Hx | lra].
  - inv_bind H.
    destruct (run_call_counts_grow _ _ _ _ _ Ha s a s' x Hx) as (y & Hy & Hxy).
    destruct (IH _ H s a s' y Hy) as (z & Hz & Hyz).
    exists z. split; [exact Hz | lra].
Qed.

Lemma counts_never_decrease_witness :
  ∃ m' y, run_calls (1 # 2) 2 (initialize_mdp_data example_args) example_calls = Ok m'
          ∧ count_at (transition_counts m') 1 1 2 = Some y ∧ (0 <= y)%Q.
Proof.
  assert (∃ m', run_calls (1 # 2) 2 (initialize_mdp_data example_args) example_calls = Ok m')
    as [m' E] by (eexists; vm_compute; reflexivity).
  destruct (counts_never_decrease _ _ _ _ _ E 1%nat 1%nat 2%nat 0%Q eq_refl) as (y & Hy & Hle).
  exists m', y. auto.
Defined.

(** ** Every recorded transition is counted once *)

Lemma np_sum_map_alter {A} (f : A → Q) (g : A → A) (l : list A) i x :
  l !! i = Some x →
  (np_sum (map f (alter g i l)) == np_sum (map f l) - f x + f (g x))%Q.
Proof.
  revert i. induction l as [|y l IH]; intros [|i] H; simpl in H; try discriminate.
  - injection H as ->. change (map f (alter g 0%nat (x :: l))) with (f (g x) :: map f l).
    change (map f (x :: l)) with (f x :: map f l). rewrite !np_sum_cons. ring.
  - change (map f (alter g (S i) (y :: l))) with (f y :: map f (alter g i l)).
    change (map f (y :: l)) with (f y :: map f l). rewrite !np_sum_cons, (IH i H). ring.
Qed.

Lemma np_sum_map_replicate {A} (f : A → Q) n (x : A) :
  (np_sum (map f (replicate n x)) == Qnat n * f x)%Q.
Proof.
  induction n as [|n IH]; [change (Qnat 0) with 0%Q; unfold np_sum; simpl; ring|].
  change (map f (replicate (S n) x)) with (f x :: map f (replicate n x)).
  rewrite np_sum_cons, IH, Qnat_S. ring.
Qed.

Lemma tensor_sum_incr (C : tensor) s a k c :
  count_at C s a k = Some c →
  (tensor_sum (alter (alter (alter (λ c, c + 1) k) a) s C) == tensor_sum C + 1)%Q.
Proof.
  unfold count_at, tensor_sum. intros H.
  destruct (C !! s) as [rows|] eqn:E1; [|discriminate].
  destruct (rows !! a) as [row|] eqn:E2; [|discriminate].
  rewrite (np_sum_map_alter _ _ C s rows E1).
  rewrite (np_sum_map_alter np_sum _ rows a row E2).
  rewrite (np_sum_alter _ row k c H). ring.
Qed.

Lemma tensor_sum_init a : (tensor_sum (transition_counts (initialize_mdp_data a)) == 0)%Q.
Proof.
  unfold tensor_sum. cbn [initialize_mdp_data transition_counts].
  rewrite np_sum_map_replicate, np_sum_map_replicate, np_sum_replicate. ring.
Qed.

Lemma run_call_totals gamma tol m c m' :
  run_call gamma tol m c = Ok m' →
  (tensor_sum (transition_counts m')
   == tensor_sum (transition_counts m) + (if is_record c then 1 else 0))%Q
  ∧ (np_sum (map snd (reward_counts m'))
     == np_sum (map snd (reward_counts m)) + (if is_record c then 1 else 0))%Q.
Proof.
  intros H. destruct c as [st act new_st r crashed|fuel]; cbn [run_call is_record] in *.
  - apply update_mdp_counts_Ok_lookups in H as (s & new_s & c & acc & n & _ & _ & Ec & Erc & ->).
    cbn [set_counts transition_counts reward_counts]. split.
    + apply (tensor_sum_incr _ _ _ _ _ Ec).
    + rewrite (np_sum_map_alter snd _ _ new_s (acc, n) Erc). cbn [snd]. ring.
  - apply update_mdp_parameters_frame in H as (_ & _ & -> & _ & -> & _). split; ring.
Qed.

(** X8: every recorded transition is counted exactly once.  After any calls
    on the fresh model, the entries of [transition_counts] add up to the
    number of transitions recorded, and so do the visit counts of
    [reward_counts]; refits add nothing. *)
Theorem counts_add_up (a : Args) (gamma tol : Q) (cs : list call) (m : MDP) :
  run_calls gamma tol (initialize_mdp_data a) cs = Ok m →
  (tensor_sum (transition_counts m) == Qnat (count_records cs))%Q
  ∧ (np_sum (map snd (reward_counts m)) == Qnat (count_records cs))%Q.
Proof.
  assert (∀ cs m0 m1, run_calls gamma tol m0 cs = Ok m1 →
            (tensor_sum (transition_counts m1)
             == tensor_sum (transition_counts m0) + Qnat (count_records cs))%Q
            ∧ (np_sum (map snd (reward_counts m1))
               == np_sum (map snd (reward_counts m0)) + Qnat (count_records cs))%Q) as Hgen.
  { clear. induction cs as [|c cs IH]; intros m0 m1 H; simpl in H.
    - injection H as <-. change (Qnat (count_records [])) with 0%Q. split; ring.
    - inv_bind H. destruct (run_call_totals _ _ _ _ _ Ha) as [H1 H2].
      destruct (IH _ _ H) as [H3 H4]. rewrite H3, H4, H1, H2.
      unfold count_records. cbn [List.filter].
      destruct (is_record c); cbn [length]; rewrite ?Qnat_S; split; ring. }
  intros H. destruct (Hgen _ _ _ H) as [H1 H2]. rewrite H1, H2, tensor_sum_init.
  cbn [initialize_mdp_data reward_counts]. rewrite np_sum_map_replicate. cbn [snd].
  split; ring.
Qed.

Lemma counts_add_up_witness :
  ∃ m, run_calls (1 # 2) 2 (initialize_mdp_data example_args) example_calls = Ok m
       ∧ (tensor_sum (transition_counts m) == 1)%Q.
Proof.
  assert (∃ m, run_calls (1 # 2) 2 (initialize_mdp_data example_args) example_calls = Ok m)
    as [m E] by (eexists; vm_compute; reflexivity).
  exists m. split; [exact E|].
  exact (proj1 (counts_add_up example_args (1 # 2) 2 example_calls m E)).
Defined.

(** ** Refitting twice *)

Lemma refit_row_idem counts probs :
  refit_row counts (refit_row counts probs) = refit_row counts probs.
Proof. unfold refit_row. destruct (Qlt_le_dec 0 (np_sum counts)); reflexivity. Qed.

Lemma zip_with_idem {A B} (f : A → B → B) (l : list A) (k : list B) :
  (∀ x y, f x (f x y) = f x y) → zip_with f l (zip_with f l k) = zip_with f l k.
Proof.
  intros Hf. revert k. induction l as [|x l IH]; intros [|y k]; simpl; try reflexivity.
  rewrite Hf, IH. reflexivity.
Qed.

(** X9: the refit is idempotent.  Refitting a second time with no
    transition recorded in between leaves the probabilities and the rewards
    exactly as the first refit left them. *)
Theorem refit_twice (fuel1 fuel2 : nat) (gamma tol : Q) (m m1 m2 : MDP) :
  update_mdp_parameters fuel1 gamma tol m = Ok m1 →
  update_mdp_parameters fuel2 gamma tol m1 = Ok m2 →
  transition_probs m2 = transition_probs m1 ∧ reward m2 = reward m1
  ∧ transition_counts m2 = transition_counts m ∧ reward_counts m2 = reward_counts m.
Proof.
  intros H1 H2.
  apply update_mdp_parameters_frame in H1 as (_ & _ & Ec1 & Ep1 & Erc1 & Er1).
  apply update_mdp_parameters_frame in H2 as (_ & _ & Ec2 & Ep2 & Erc2 & Er2).
  rewrite Ep2, Er2, Ec2, Erc2, Ec1, Erc1, Ep1, Er1.
  split; [|split; [|auto]].
  - unfold refit_probs. apply zip_with_idem. intros x y. apply zip_with_idem.
    apply refit_row_idem.
  - unfold refit_reward. apply zip_with_idem. intros [acc n] y.
    destruct (Qlt_le_dec 0 n); reflexivity.
Qed.

Lemma refit_twice_witness :
  ∃ m1 m2,
    update_mdp_parameters 1 (1 # 2) 2 (initialize_mdp_data example_args) = Ok m1
    ∧ update_mdp_parameters 1 (1 # 2) 2 m1 = Ok m2
    ∧ transition_probs m2 = transition_probs m1.
Proof.
  assert (∃ m1 m2,
            update_mdp_parameters 1 (1 # 2) 2 (initialize_mdp_data example_args) = Ok m1
            ∧ update_mdp_parameters 1 (1 # 2) 2 m1 = Ok m2) as (m1 & m2 & E1 & E2).
  { eexists. eexists. split; vm_compute; reflexivity. }
  exists m1, m2. split; [exact E1|]. split; [exact E2|].
  exact (proj1 (refit_twice _ _ _ _ _ _ _ E1 E2)).
Defined.

(** ** Rewards and values stay bounded *)

Lemma step_model self ev self' :
  step self ev = Ok self' →
  args self' = args self ∧ gamma self' = gamma self ∧ tolerance self' = tolerance self
  ∧ (mdp_data self' = mdp_data self
     ∨ (∃ crashed new_st,
          update_mdp_counts (mdp_data self) (state self) (action self) new_st
            (get_reward crashed) crashed = Ok (mdp_data self'))
     ∨ (∃ fuel,
          update_mdp_parameters fuel (gamma self) (tolerance self) (mdp_data self)
          = Ok (mdp_data self'))).
Proof.
  destruct ev as [r1 r2|crashed new_st|fuel]; cbn [step]; intros H.
  - inv_bind H. destruct a as [s c]. injection H as <-.
    unfold choose_action in Ha. inv_bind Ha. injection Ha as <- _. auto 10.
  - unfold set_transition in H. inv_bind H. injection H as <-.
    cbn [args gamma tolerance mdp_data]. repeat split. right. left. eauto.
  - unfold reset in H. inv_bind H. injection H as <-.
    cbn [args gamma tolerance mdp_data]. repeat split. right. right. eauto.
Qed.

Lemma run_calls_snoc gamma tol cs : ∀ m m1 c m2,
  run_calls gamma tol m cs = Ok m1 → run_call gamma tol m1 c = Ok m2 →
  run_calls gamma tol m (cs ++ [c]) = Ok m2.
Proof.
  induction cs as [|c0 cs IH]; intros m m1 c m2 H1 H2; cbn [run_calls app] in *.
  - injection H1 as <-. rewrite H2. reflexivity.
  - inv_bind H1. rewrite Ha. cbn [mbind result_bind]. eapply IH; eassumption.
Qed.

(** The model of an agent is one its calls produce from the fresh model,
    with the discount and tolerance of its arguments. *)
Lemma run_agent_calls a s0 evs : ∀ self,
  run_agent (init a s0) evs = Ok self →
  gamma self = arg_gamma a ∧ tolerance self = arg_tolerance a
  ∧ ∃ cs, run_calls (arg_gamma a) (arg_tolerance a) (initialize_mdp_data a) cs
          = Ok (mdp_data self).
Proof.
  assert (∀ evs self0 self,
            run_agent self0 evs = Ok self →
            gamma self0 = arg_gamma a → tolerance self0 = arg_tolerance a →
            (∃ cs, run_calls (arg_gamma a) (arg_tolerance a) (initialize_mdp_data a) cs
                   = Ok (mdp_data self0)) →
            gamma self = arg_gamma a ∧ tolerance self = arg_tolerance a
            ∧ ∃ cs, run_calls (arg_gamma a) (arg_tolerance a) (initialize_mdp_data a) cs
                    = Ok (mdp_data self)) as Hgen.
  { clear. induction evs as [|ev evs IH]; intros self0 self H Hg Ht Hr; cbn [run_agent] in H.
    - injection H as <-. auto.
    - inv_bind H. rename a0 into self1.
      destruct (step_model _ _ _ Ha) as (_ & Eg & Et & Hm).
      apply (IH _ _ H); [congruence | congruence |].
      destruct Hr as (cs & Hcs).
      destruct Hm as [->|[(crashed & new_st & Hu)|(fuel & Hu)]].
      + exists cs. exact Hcs.
      + exists (cs ++ [RecordTransition (state self0) (action self0) new_st
                        (get_reward crashed) crashed]).
        eapply run_calls_snoc; [exact Hcs | exact Hu].
      + exists (cs ++ [Refit fuel]).
        eapply run_calls_snoc; [exact Hcs|]. cbn [run_call]. rewrite <- Hg, <- Ht. exact Hu. }
  intros self H. apply (Hgen evs (init a s0) self H); try reflexivity.
  exists []. reflexivity.
Qed.

Lemma run_agent_reachable a s0 evs self :
  run_agent (init a s0) evs = Ok self → reachable a (mdp_data self).
Proof.
  intros H. destruct (run_agent_calls a s0 evs self H) as (_ & _ & cs & Hcs).
  exists (arg_gamma a), (arg_tolerance a), cs. exact Hcs.
Qed.

Lemma get_reward_cases crashed : get_reward crashed = (-1000)%Q ∨ get_reward crashed = 1%Q.
Proof. destruct crashed; auto. Qed.

Lemma accumulators_bounded_record m st act new_st crashed m' :
  update_mdp_counts m st act new_st (get_reward crashed) crashed = Ok m' →
  accumulators_bounded m → accumulators_bounded m'.
Proof.
  intros H Hacc. apply update_mdp_counts_Ok in H as (s & new_s & _ & _ & ->).
  intros s1 acc n Hs1. cbn [set_counts reward_counts] in Hs1.
  rewrite list_lookup_alter in Hs1. destruct (decide (new_s = s1)) as [<-|Hne].
  - destruct (reward_counts m !! new_s) as [[acc0 n0]|] eqn:E; [|discriminate].
    cbn [fmap option_fmap option_map] in Hs1. injection Hs1 as <- <-.
    destruct (Hacc _ _ _ E) as (H0 & H1 & H2).
    destruct (get_reward_cases crashed) as [-> | ->]; (split; [lra | split; lra]).
  - eapply Hacc. exact Hs1.
Qed.

Lemma rewards_bounded_refit m :
  accumulators_bounded m → rewards_bounded m → rewards_bounded (refit_estimates m).
Proof.
  intros Hacc Hrew s r Hs. cbn [refit_estimates set_estimates reward] in Hs.
  unfold refit_reward in Hs. rewrite lookup_zip_with in Hs.
  destruct (reward_counts m !! s) as [[acc n]|] eqn:E; [|discriminate].
  destruct (reward m !! s) as [r0|] eqn:E'; [|discriminate].
  cbn [mbind option_bind] in Hs. injection Hs as <-.
  destruct (Qlt_le_dec 0 n) as [Hn|Hn]; [|eapply Hrew; exact E'].
  destruct (Hacc _ _ _ E) as (_ & H1 & H2). split.
  - apply Qle_shift_div_l; [exact Hn | lra].
  - apply Qle_shift_div_r; [exact Hn | lra].
Qed.

Lemma step_rewards_bounded self ev self' :
  step self ev = Ok self' →
  accumulators_bounded (mdp_data self) ∧ rewards_bounded (mdp_data self) →
  accumulators_bounded (mdp_data self') ∧ rewards_bounded (mdp_data self').
Proof.
  intros H [Hacc Hrew].
  destruct (step_model _ _ _ H) as (_ & _ & _ & [->|[(crashed & new_st & Hu)|(fuel & Hu)]]).
  - auto.
  - split; [eapply accumulators_bounded_record; eassumption|].
    apply update_mdp_counts_Ok in Hu as (s & new_s & _ & _ & ->). exact Hrew.
  - pose proof (rewards_bounded_refit _ Hacc Hrew) as Hrew'.
    apply update_mdp_parameters_frame in Hu as (_ & _ & _ & _ & Erc & Er).
    split.
    + intros s acc n Hs. rewrite Erc in Hs. eapply Hacc. exact Hs.
    + intros s r Hs. rewrite Er in Hs. apply (Hrew' s r). exact Hs.
Qed.

Lemma run_agent_rewards_bounded a s0 evs self :
  run_agent (init a s0) evs = Ok self →
  accumulators_bounded (mdp_data self) ∧ rewards_bounded (mdp_data self).
Proof.
  assert (∀ evs self0 self, run_agent self0 evs = Ok self →
            accumulators_bounded (mdp_data self0) ∧ rewards_bounded (mdp_data self0) →
            accumulators_bounded (mdp_data self) ∧ rewards_bounded (mdp_data self)) as Hgen.
  { clear. induction evs as [|ev evs IH]; intros self0 self H Hinv; cbn [run_agent] in H.
    - injection H as <-. exact Hinv.
    - inv_bind H. eapply IH; [exact H|]. eapply step_rewards_bounded; eassumption. }
  intros H. apply (Hgen _ _ _ H). cbn [init mdp_data]. split.
  - intros s acc n Hs. cbn [initialize_mdp_data reward_counts] in Hs.
    apply lookup_replicate_1 in Hs as [[= -> ->] _]. split; [lra | split; lra].
  - intros s r Hs. cbn [initialize_mdp_data reward] in Hs.
    apply lookup_replicate_1 in Hs as [-> _]. split; lra.
Qed.

(** X10: the reward estimates never leave [-1000, 1].  At every point of
    the agent's life, each entry of [reward] is between the reward of a crash
    and the reward of staying alive. *)
Theorem rewards_stay_bounded (a : Args) (s0 : option obstacle) (evs : list event)
    (self : AIAgent) :
  run_agent (init a s0) evs = Ok self →
  ∀ s r, reward (mdp_data self) !! s = Some r → (-1000 <= r)%Q ∧ (r <= 1)%Q.
Proof. intros H. apply (run_agent_rewards_bounded a s0 evs self H). Qed.

Lemma rewards_stay_bounded_witness :
  ∃ self, run_agent (init example_args None) example_events = Ok self
          ∧ ∀ s r, reward (mdp_data self) !! s = Some r → (-1000 <= r)%Q ∧ (r <= 1)%Q.
Proof.
  assert (∃ self, run_agent (init example_args None) example_events = Ok self) as [self E].
  { eexists. vm_compute. reflexivity. }
  exists self. split; [exact E|].
  exact (rewards_stay_bounded example_args None example_events self E).
Defined.

(** A distribution averages: the dot product of a row of probabilities
    with a vector lies between the bounds of the vector. *)
Lemma dot_between lo hi row : Forall (Qle 0) row → ∀ v,
  length row = length v →
  (∀ i x, v !! i = Some x → (lo <= x)%Q ∧ (x <= hi)%Q) →
  (lo * np_sum row <= dot row v)%Q ∧ (dot row v <= hi * np_sum row)%Q.
Proof.
  induction 1 as [|p row Hp Hrow IH]; intros v Hlen Hv.
  - rewrite dot_nil_l. change (np_sum []) with 0%Q. split; lra.
  - destruct v as [|x v]; [discriminate|].
    rewrite dot_cons, np_sum_cons.
    destruct (Hv 0%nat x eq_refl) as [Hlo Hhi].
    destruct (IH v) as [IHlo IHhi].
    + simpl in Hlen. lia.
    + intros i y Hy. apply (Hv (S i) y). exact Hy.
    + split; nra.
Qed.

Lemma bellman_lookup_inv m g v s y :
  bellman m g v !! s = Some y →
  ∃ r rows, reward m !! s = Some r ∧ transition_probs m !! s = Some rows
            ∧ y = (r + g * Qmax (dot (rows !!! 0%nat) v) (dot (rows !!! 1%nat) v))%Q.
Proof.
  unfold bellman, action_values. rewrite lookup_zip_with. intros H.
  destruct (reward m !! s) as [r|]; [|discriminate]. cbn [mbind option_bind] in H.
  rewrite list_lookup_fmap, lookup_zip_with, !list_lookup_fmap in H.
  destruct (transition_probs m !! s) as [rows|]; [|discriminate].
  cbn [fmap option_fmap option_map mbind option_bind] in H. injection H as <-.
  exists r, rows. auto.
Qed.

Lemma values_bounded_bellman m g v :
  mdp_shape m → row_stochastic (transition_probs m) → rewards_bounded m →
  (0 <= g)%Q → (g < 1)%Q → length v = num_states m →
  values_bounded g v → values_bounded g (bellman m g v).
Proof.
  intros (_ & _ & (Hlen & Hrows) & _ & _ & _) HP Hrew H0 H1 Hv Hb s y Hy.
  apply bellman_lookup_inv in Hy as (r & rows & Hr & Hrs & ->).
  destruct (Hrew _ _ Hr) as [Hr0 Hr1]. destruct (Hrows _ _ Hrs) as [H3 Hrow].
  assert (∀ a, (a < 3)%nat →
            (-1000 <= (1 - g) * dot (rows !!! a) v)%Q
            ∧ ((1 - g) * dot (rows !!! a) v <= 1)%Q) as Hdot.
  { intros a Ha. destruct (lookup_lt_is_Some_2 rows a ltac:(lia)) as [row E].
    rewrite (list_lookup_total_correct _ _ _ E).
    destruct (HP _ _ _ _ Hrs E) as [Hsum Hnn].
    destruct (dot_between (-1000 / (1 - g)) (1 / (1 - g)) row Hnn v) as [Hlo Hhi].
    - rewrite (Hrow _ _ E). congruence.
    - intros i x Hx. destruct (Hb _ _ Hx) as [Hx0 Hx1]. split.
      + apply Qle_shift_div_r; lra.
      + apply Qle_shift_div_l; lra.
    - rewrite Hsum in Hlo, Hhi.
      assert ((1 - g) * (-1000 / (1 - g) * 1) == -1000)%Q as E1 by (field; lra).
      assert ((1 - g) * (1 / (1 - g) * 1) == 1)%Q as E2 by (field; lra).
      split; nra. }
  destruct (Hdot 0%nat ltac:(lia)) as [A0 A1]. destruct (Hdot 1%nat ltac:(lia)) as [B0 B1].
  destruct (Q.max_spec (dot (rows !!! 0%nat) v) (dot (rows !!! 1%nat) v)) as [[_ ->]|[_ ->]];
    split; nra.
Qed.

Lemma values_bounded_sweeps m g v :
  mdp_shape m → row_stochastic (transition_probs m) → rewards_bounded m →
  (0 <= g)%Q → (g < 1)%Q → length v = num_states m →
  values_bounded g v → ∀ k, values_bounded g (sweeps m g k v).
Proof.
  intros Hs HP Hrew H0 H1 Hv Hb. induction k as [|k IH]; [exact Hb|].
  change (sweeps m g (S k) v) with (bellman m g (sweeps m g k v)).
  apply values_bounded_bellman; try assumption.
  destruct (mdp_shape_lengths m Hs) as [Hr Hp].
  apply length_sweeps; [| |exact Hv].
  - destruct Hs as (_ & _ & _ & _ & Hr' & _). exact Hr'.
  - destruct Hs as (_ & _ & (Hp' & _) & _). exact Hp'.
Qed.

Lemma run_agent_snoc_inv evs : ∀ self0 ev self,
  run_agent self0 (evs ++ [ev]) = Ok self →
  ∃ self1, run_agent self0 evs = Ok self1 ∧ step self1 ev = Ok self.
Proof.
  induction evs as [|e evs IH]; intros self0 ev self H; cbn [app run_agent] in *.
  - inv_bind H. injection H as <-. eauto.
  - inv_bind H. destruct (IH _ _ _ H) as (self1 & H1 & H2).
    exists self1. rewrite Ha. cbn [mbind result_bind]. auto.
Qed.

Lemma run_agent_values_bounded a s0 evs : ∀ self,
  (0 <= arg_gamma a)%Q → (arg_gamma a < 1)%Q →
  run_agent (init a s0) evs = Ok self →
  values_bounded (arg_gamma a) (value (mdp_data self)).
Proof.
  intros self H0 H1. revert self.
  induction evs as [|ev evs IH] using rev_ind; intros self H.
  - injection H as <-. intros s x Hx. cbn [init mdp_data initialize_mdp_data value] in Hx.
    apply lookup_replicate_1 in Hx as [-> _]. split; lra.
  - apply run_agent_snoc_inv in H as (self1 & Hrun & Hstep).
    specialize (IH _ Hrun).
    destruct (run_agent_calls _ _ _ _ Hrun) as (Hg & _ & _).
    destruct (reachable_facts a _ (run_agent_reachable _ _ _ _ Hrun)) as (Hs & Hc & Hp & _ & _).
    destruct (run_agent_rewards_bounded _ _ _ _ Hrun) as [Hacc Hrew].
    destruct (step_model _ _ _ Hstep) as (_ & _ & _ & [->|[(crashed & new_st & Hu)|(fuel & Hu)]]).
    + exact IH.
    + apply update_mdp_counts_Ok in Hu as (s & new_s & _ & _ & ->). exact IH.
    + rewrite Hg in Hu. unfold update_mdp_parameters in Hu.
      apply value_iteration_Ok in Hu as (u & -> & _ & k & ->).
      change (bellman (refit_estimates (mdp_data self1)) (arg_gamma a)
                (sweeps (refit_estimates (mdp_data self1)) (arg_gamma a) k
                   (value (refit_estimates (mdp_data self1)))))
        with (sweeps (refit_estimates (mdp_data self1)) (arg_gamma a) (S k)
                (value (mdp_data self1))).
      apply values_bounded_sweeps; try assumption.
      * apply mdp_shape_refit. exact Hs.
      * apply refit_probs_stochastic; assumption.
      * apply rewards_bounded_refit; assumption.
      * apply Hs.
Qed.

(** X11: the values never blow up.  With a discount in [0, 1), at every
    point of the agent's life each entry [v] of the value vector satisfies
    [-1000 <= (1 - gamma) * v <= 1]: it lies between the value of crashing
    at every step and the value of surviving for ever. *)
Theorem values_stay_bounded (a : Args) (s0 : option obstacle) (evs : list event)
    (self : AIAgent) :
  (0 <= arg_gamma a)%Q → (arg_gamma a < 1)%Q →
  run_agent (init a s0) evs = Ok self →
  ∀ s x, value (mdp_data self) !! s = Some x →
    (-1000 <= (1 - arg_gamma a) * x)%Q ∧ ((1 - arg_gamma a) * x <= 1)%Q.
Proof. intros H0 H1 H. apply (run_agent_values_bounded a s0 evs self H0 H1 H). Qed.

Lemma values_stay_bounded_witness :
  ∃ self, run_agent (init example_args None) example_events = Ok self
          ∧ ∀ s x, value (mdp_data self) !! s = Some x →
              (-1000 <= (1 - (1 # 2)) * x)%Q ∧ ((1 - (1 # 2)) * x <= 1)%Q.
Proof.
  assert (∃ self, run_agent (init example_args None) example_events = Ok self) as [self E].
  { eexists. vm_compute. reflexivity. }
  exists self. split; [exact E|].
  apply (values_stay_bounded example_args None example_events self); [| |exact E].
  - vm_compute. discriminate.
  - reflexivity.
Defined.

(** ** What the rewards become *)

Lemma get_closest_state_idx_crash m o i :
  get_closest_state_idx m o true = Ok i → i = 0%nat ∨ i = 1%nat.
Proof.
  unfold get_closest_state_idx. destruct (state_discretization m) as [[dx_s dn] dy].
  destruct o as [st|]; [|intros [= <-]; auto].
  intros H. inv_bind H. inv_bind H. inv_bind H. injection H as <-. left. reflexivity.
Qed.

Lemma get_closest_state_idx_alive m o i :
  get_closest_state_idx m o false = Ok i → (1 <= i)%nat.
Proof.
  unfold get_closest_state_idx. destruct (state_discretization m) as [[dx_s dn] dy].
  destruct o as [st|]; [|intros [= <-]; lia].
  intros H. inv_bind H. inv_bind H. inv_bind H. injection H as <-. lia.
Qed.

Lemma rewards_learned_record m st act new_st crashed m' :
  update_mdp_counts m st act new_st (get_reward crashed) crashed = Ok m' →
  rewards_learned m → rewards_learned m'.
Proof.
  intros H (H0 & H2 & Hr0 & Hr2).
  apply update_mdp_counts_Ok in H as (s & new_s & _ & Enew & ->).
  unfold rewards_learned. cbn [set_counts reward_counts reward].
  split; [|split; [|split; [exact Hr0 | exact Hr2]]].
  - intros acc n Hs. rewrite list_lookup_alter in Hs.
    destruct (decide (new_s = 0%nat)) as [->|Hne]; [|eapply H0; exact Hs].
    destruct (reward_counts m !! 0%nat) as [[acc0 n0]|] eqn:E; [|discriminate].
    cbn [fmap option_fmap option_map] in Hs. injection Hs as <- <-.
    pose proof (H0 _ _ eq_refl) as Hacc.
    destruct crashed; [cbn [get_reward]; lra|].
    apply get_closest_state_idx_alive in Enew. lia.
  - intros s1 acc n Hs1 Hs. rewrite list_lookup_alter in Hs.
    destruct (decide (new_s = s1)) as [->|Hne]; [|eapply H2; eassumption].
    destruct (reward_counts m !! s1) as [[acc0 n0]|] eqn:E; [|discriminate].
    cbn [fmap option_fmap option_map] in Hs. injection Hs as <- <-.
    pose proof (H2 _ _ _ Hs1 E) as Hacc.
    destruct crashed; [|cbn [get_reward]; lra].
    apply get_closest_state_idx_crash in Enew. lia.
Qed.

Lemma rewards_learned_refit fuel g tol m m' :
  update_mdp_parameters fuel g tol m = Ok m' →
  rewards_learned m → rewards_learned m'.
Proof.
  intros H (H0 & H2 & Hr0 & Hr2).
  apply update_mdp_parameters_frame in H as (_ & _ & _ & _ & Erc & Er).
  unfold rewards_learned. rewrite Erc, Er.
  split; [exact H0|]. split; [exact H2|]. split.
  - intros r Hs. unfold refit_reward in Hs. rewrite lookup_zip_with in Hs.
    destruct (reward_counts m !! 0%nat) as [[acc n]|] eqn:E; [|discriminate].
    destruct (reward m !! 0%nat) as [r0|] eqn:E'; [|discriminate].
    cbn [mbind option_bind] in Hs. injection Hs as <-.
    destruct (Qlt_le_dec 0 n) as [Hn|Hn]; [|apply Hr0; reflexivity].
    right. rewrite (H0 _ _ eq_refl). field. lra.
  - intros s r Hs2 Hs. unfold refit_reward in Hs. rewrite lookup_zip_with in Hs.
    destruct (reward_counts m !! s) as [[acc n]|] eqn:E; [|discriminate].
    destruct (reward m !! s) as [r0|] eqn:E'; [|discriminate].
    cbn [mbind option_bind] in Hs. injection Hs as <-.
    destruct (Qlt_le_dec 0 n) as [Hn|Hn]; [|eapply Hr2; eassumption].
    right. rewrite (H2 _ _ _ Hs2 E). field. lra.
Qed.

(** X12: what the agent learns about rewards.  At every point of its life
    the FAIL state 0 has accumulated exactly -1000 per visit and every
    obstacle state (index 2 and up) exactly +1 per visit, so the reward
    estimate of the FAIL state is 0 or exactly -1000, and that of an
    obstacle state 0 or exactly 1.  (State 1 is exempt: a crash with no
    obstacle on screen is recorded there.) *)
Theorem rewards_are_learned (a : Args) (s0 : option obstacle) (evs : list event)
    (self : AIAgent) :
  run_agent (init a s0) evs = Ok self → rewards_learned (mdp_data self).
Proof.
  assert (∀ evs self0 self, run_agent self0 evs = Ok self →
            rewards_learned (mdp_data self0) → rewards_learned (mdp_data self)) as Hgen.
  { clear. induction evs as [|ev evs IH]; intros self0 self H Hinv; cbn [run_agent] in H.
    - injection H as <-. exact Hinv.
    - inv_bind H. eapply IH; [exact H|].
      destruct (step_model _ _ _ Ha) as (_ & _ & _ & [->|[(crashed & new_st & Hu)|(fuel & Hu)]]).
      + exact Hinv.
      + eapply rewards_learned_record; eassumption.
      + eapply rewards_learned_refit; eassumption. }
  intros H. apply (Hgen _ _ _ H). cbn [init mdp_data].
  unfold rewards_learned. cbn [initialize_mdp_data reward_counts reward].
  split; [|split; [|split]].
  - intros acc n Hs. apply lookup_replicate_1 in Hs as [[= -> ->] _]. lra.
  - intros s acc n _ Hs. apply lookup_replicate_1 in Hs as [[= -> ->] _]. lra.
  - intros r Hs. apply lookup_replicate_1 in Hs as [-> _]. left. lra.
  - intros s r _ Hs. apply lookup_replicate_1 in Hs as [-> _]. left. lra.
Qed.

Lemma rewards_are_learned_witness :
  ∃ self, run_agent (init example_args None) example_events = Ok self
          ∧ rewards_learned (mdp_data self).
Proof.
  assert (∃ self, run_agent (init example_args None) example_events = Ok self) as [self E].
  { eexists. vm_compute. reflexivity. }
  exists self. split; [exact E|].
  exact (rewards_are_learned example_args None example_events self E).
Defined.

(** ** The agent's calls succeed *)

Lemma best_action_le m st a : best_action m st = Ok a → (a <= 2)%nat.
Proof.
  unfold best_action. intros H. do 5 inv_bind H. injection H as <-.
  set (sn := dot a2 (value m)). set (sj := dot a3 (value m)). set (sd := dot a4 (value m)).
  destruct (Qgtb sj sn && Qgeb sj sd) eqn:E1;
    destruct (Qgtb sd sn && Qgtb sd sj) eqn:E2; cbn [Nat.b2n]; try lia.
  apply andb_true_iff in E1 as [_ E1]. apply andb_true_iff in E2 as [_ E2].
  apply Qgeb_true in E1. apply Qgtb_true in E2. lra.
Qed.

Lemma get_closest_state_idx_Ok_valid m o f i :
  get_closest_state_idx m o f = Ok i → valid_observation o.
Proof.
  unfold get_closest_state_idx. destruct (state_discretization m) as [[dx_s dn] dy].
  destruct o as [st|]; [|intros _; exact I].
  intros H. inv_bind H. cbn [valid_observation].
  destruct (OBSTACLE_TYPES !! type st); [eauto|discriminate].
Qed.

Lemma step_action_state self ev self' :
  step self ev = Ok self' →
  (action self <= 2)%nat → valid_observation (state self) →
  (action self' <= 2)%nat ∧ valid_observation (state self').
Proof.
  destruct ev as [r1 r2|crashed new_st|fuel]; cbn [step]; intros H Ha0 Hv.
  - inv_bind H. destruct a as [s c]. injection H as <-.
    unfold choose_action in Ha. inv_bind Ha. injection Ha as <- _.
    cbn [set_action action state]. split; [|exact Hv].
    destruct (fltb r1 (eps self)).
    + eapply best_action_le; eassumption.
    + injection Ha1 as <-. destruct (fltb r2 f0_01); cbn [Nat.b2n]; lia.
  - unfold set_transition in H. inv_bind H. injection H as <-.
    cbn [action state]. split; [exact Ha0|].
    apply update_mdp_counts_Ok in Ha as (s & new_s & _ & E & _).
    eapply get_closest_state_idx_Ok_valid; eassumption.
  - unfold reset in H. inv_bind H. injection H as <-.
    cbn [action state]. auto.
Qed.

Lemma run_agent_action_state evs : ∀ self self',
  run_agent self evs = Ok self' →
  (action self <= 2)%nat → valid_observation (state self) →
  (action self' <= 2)%nat ∧ valid_observation (state self').
Proof.
  induction evs as [|ev evs IH]; intros self self' H Ha0 Hv; cbn [run_agent] in H.
  - injection H as <-. auto.
  - inv_bind H. destruct (step_action_state _ _ _ Ha Ha0 Hv) as [H1 H2].
    eapply IH; eassumption.
Qed.

Lemma best_action_Ok a m st :
  reachable a m → (1 <= n_x a)%nat → valid_observation st →
  ∃ act, best_action m st = Ok act.
Proof.
  intros Hreach Hn Hv.
  destruct (reachable_facts a m Hreach) as (Hshape & _ & _ & Hnum & Hgrid).
  destruct (get_closest_state_idx_valid a st false Hn Hv) as (s & Es & Hs).
  assert (get_closest_state_idx m st false = Ok s) as Es'.
  { unfold get_closest_state_idx in *. rewrite Hgrid. exact Es. }
  rewrite num_states_init in Hs.
  destruct Hshape as (_ & _ & (Hlen & Hrows) & _).
  destruct (lookup_lt_is_Some_2 (transition_probs m) s ltac:(lia)) as [rows E].
  destruct (Hrows _ _ E) as [H3 _].
  destruct (lookup_lt_is_Some_2 rows 0 ltac:(lia)) as [r0 E0].
  destruct (lookup_lt_is_Some_2 rows 1 ltac:(lia)) as [r1 E1].
  destruct (lookup_lt_is_Some_2 rows 2 ltac:(lia)) as [r2 E2].
  unfold best_action. rewrite Es'. cbn [mbind result_bind].
  rewrite E. cbn [from_option mbind result_bind].
  rewrite E0, E1, E2. cbn [from_option mbind result_bind]. eauto.
Qed.

Lemma update_mdp_counts_succeeds a m st act new_st r crashed :
  reachable a m → (1 <= n_x a)%nat →
  valid_observation st → valid_observation new_st → (act < 3)%nat →
  ∃ m', update_mdp_counts m st act new_st r crashed = Ok m'.
Proof.
  intros Hreach Hn Hv Hv' Hact.
  destruct (reachable_facts a m Hreach) as (Hshape & _ & _ & Hnum & Hgrid).
  assert (∀ o f, valid_observation o →
            ∃ i, get_closest_state_idx m o f = Ok i ∧ (i < num_states m)%nat) as Hvalid.
  { intros o f Ho. rewrite (get_closest_state_idx_grid _ _ _ _ Hgrid).
    destruct (get_closest_state_idx_valid a o f Hn Ho) as (i & E & Hi).
    exists i. split; [exact E|]. rewrite Hnum, <- num_states_init. exact Hi. }
  destruct Hshape as (_ & Hcounts & _ & Hrc & _).
  destruct (Hvalid st false Hv) as (s & Es & Hs).
  destruct (Hvalid new_st crashed Hv') as (s' & Es' & Hs').
  destruct (count_at_Some _ _ s act s' Hcounts Hs Hact Hs') as (rows & row & c & E1 & E2 & E3).
  destruct (lookup_lt_is_Some_2 (reward_counts m) s' ltac:(lia)) as [rc E4].
  unfold update_mdp_counts. rewrite Es, Es'. cbn [mbind result_bind].
  rewrite E1. cbn [from_option mbind result_bind].
  rewrite E2. cbn [from_option mbind result_bind].
  rewrite E3. cbn [from_option mbind result_bind].
  rewrite E4. cbn [from_option mbind result_bind]. eauto.
Qed.

(** ** The first episode *)

Lemma dot_zeros r : ∀ n, (dot r (replicate n 0%Q) == 0)%Q.
Proof.
  induction r as [|x r IH]; intros [|n]; cbn [replicate]; try reflexivity.
  rewrite dot_cons, IH. lra.
Qed.

Lemma best_action_zero_value m st a :
  value m = replicate (num_states m) 0%Q → best_action m st = Ok a → a = 0%nat.
Proof.
  intros Hv. unfold best_action. intros H. do 5 inv_bind H. injection H as <-.
  rewrite Hv.
  assert (Qgtb (dot a3 (replicate (num_states m) 0%Q)) (dot a2 (replicate (num_states m) 0%Q))
          = false) as ->.
  { destruct (Qgtb _ _) eqn:E; [|reflexivity].
    apply Qgtb_true in E. rewrite !dot_zeros in E. lra. }
  assert (Qgtb (dot a4 (replicate (num_states m) 0%Q)) (dot a2 (replicate (num_states m) 0%Q))
          = false) as ->.
  { destruct (Qgtb _ _) eqn:E; [|reflexivity].
    apply Qgtb_true in E. rewrite !dot_zeros in E. lra. }
  reflexivity.
Qed.

Lemma step_value_no_reset self ev self' :
  step self ev = Ok self' → is_reset ev = false →
  value (mdp_data self') = value (mdp_data self)
  ∧ num_states (mdp_data self') = num_states (mdp_data self).
Proof.
  destruct ev as [r1 r2|crashed new_st|fuel]; cbn [step is_reset]; intros H Hr;
    [| |discriminate].
  - inv_bind H. destruct a as [s c]. injection H as <-.
    unfold choose_action in Ha. inv_bind Ha. injection Ha as <- _. auto.
  - unfold set_transition in H. inv_bind H. injection H as <-. cbn [mdp_data].
    apply update_mdp_counts_Ok in Ha as (s & new_s & _ & _ & ->). auto.
Qed.

Lemma run_agent_value_no_reset evs : ∀ self self',
  run_agent self evs = Ok self' → count_resets evs = 0%nat →
  value (mdp_data self') = value (mdp_data self)
  ∧ num_states (mdp_data self') = num_states (mdp_data self).
Proof.
  induction evs as [|ev evs IH]; intros self self' H Hc; cbn [run_agent] in H.
  - injection H as <-. auto.
  - inv_bind H. unfold count_resets in Hc. cbn [List.filter] in Hc.
    destruct (is_reset ev) eqn:E; [discriminate|].
    destruct (step_value_no_reset _ _ _ Ha E) as [<- <-].
    apply IH; assumption.
Qed.

(** X14: the first episode.  Until the first [reset] the value function is
    still all zero and [eps] is still 1, so every draw in [0, 1) takes the
    greedy branch, whose three scores tie at 0: [choose_action] stores
    action 0 and asks the Dino neither to jump nor to duck. *)
Theorem first_episode_does_nothing (a : Args) (s0 : option obstacle) (evs : list event)
    (self : AIAgent) (r1 r2 : spec_float) (self' : AIAgent) (c : command) :
  run_agent (init a s0) evs = Ok self → count_resets evs = 0%nat →
  fltb r1 f1 = true →
  choose_action self r1 r2 = Ok (self', c) →
  c = DoNothing ∧ action self' = 0%nat.
Proof.
  intros H Hc Hr Hch.
  destruct (run_agent_value_no_reset _ _ _ H Hc) as [Hv Hn].
  assert (eps self = f1) as He
    by (rewrite (run_agent_eps _ _ _ H), Hc; reflexivity).
  unfold choose_action in Hch. rewrite He, Hr in Hch. inv_bind Hch.
  injection Hch as <- <-.
  assert (a0 = 0%nat) as ->.
  { eapply best_action_zero_value; [|exact Ha]. rewrite Hv, Hn. reflexivity. }
  split; reflexivity.
Qed.

Lemma first_episode_does_nothing_witness :
  ∃ self self' c,
    run_agent (init example_args None)
      [ChooseAction f0_5 f0_5; SetTransition false small_cactus_ahead] = Ok self
    ∧ choose_action self f0_5 f0_5 = Ok (self', c)
    ∧ c = DoNothing ∧ action self' = 0%nat.
Proof.
  assert (∃ self self' c,
    run_agent (init example_args None)
      [ChooseAction f0_5 f0_5; SetTransition false small_cactus_ahead] = Ok self
    ∧ choose_action self f0_5 f0_5 = Ok (self', c)) as (self & self' & c & E1 & E2).
  { do 3 eexists. split; vm_compute; reflexivity. }
  exists self, self', c. split; [exact E1|]. split; [exact E2|].
  apply (first_episode_does_nothing example_args None _ self f0_5 f0_5 self' c E1).
  - reflexivity.
  - vm_compute. reflexivity.
  - exact E2.
Defined.

(** ** How good the value function is on exit *)

Lemma fixed_point_close m g v : bellman_fixed_point m g v → close 0 (bellman m g v) v.
Proof.
  unfold bellman_fixed_point, close. intros H.
  eapply Forall2_impl; [exact H|]. intros x y E. cbv beta.
  apply Qabs_Qle_condition. lra.
Qed.

Lemma value_iteration_near_optimum fuel g tol m m' vstar :
  mdp_shape m → row_stochastic (transition_probs m) → (0 <= g)%Q → (g < 1)%Q →
  value_iteration fuel g tol m = Ok m' → bellman_fixed_point m g vstar →
  ∀ s x y, value m' !! s = Some x → vstar !! s = Some y →
    ((1 - g) * Qabs (x - y) <= g * tol)%Q.
Proof.
  intros Hshape HP G0 G1 Hvi Hfix s x y Hx Hy.
  destruct (value_iteration_Ok _ _ _ _ _ Hvi) as (u & Hval & Hdiff & k & Hu).
  destruct (mdp_shape_lengths m Hshape) as [Lr Lp].
  assert (length u = length (value m)) as Lu
    by (rewrite Hu; apply length_sweeps; auto).
  assert (length (bellman m g u) = length (value m)) as LTu
    by (rewrite length_bellman, Lr, Lp; apply Nat.min_id).
  pose proof (fixed_point_close _ _ _ Hfix) as Hc.
  assert (length vstar = length (value m)) as Lv.
  { rewrite <- (Forall2_length _ _ _ Hfix), length_bellman, Lr, Lp. apply Nat.min_id. }
  set (D := max_abs_diff (bellman m g u) vstar).
  set (d := max_abs_diff (bellman m g u) u) in *.
  assert (close D (bellman m g u) vstar) as HD
    by (apply close_max_abs_diff; congruence).
  assert (0 <= D)%Q as HD0 by apply max_abs_diff_nonneg.
  assert (0 <= d)%Q as Hd0 by apply max_abs_diff_nonneg.
  assert (max_abs_diff u vstar <= d + D)%Q as Htri.
  { apply max_abs_diff_le; [lra|].
    eapply close_triangle; [|exact HD].
    apply close_sym, close_max_abs_diff. congruence. }
  assert (D <= g * (d + D))%Q as Hstep.
  { apply max_abs_diff_le; [nra|].
    eapply close_mono; [|eapply close_triangle;
      [apply (bellman_close m g (d + D) u vstar HP G0); [lra|] | exact Hc]].
    - lra.
    - eapply close_mono; [exact Htri|]. apply close_max_abs_diff. congruence. }
  rewrite Hval in Hx.
  pose proof (Forall2_lookup_lr _ _ _ _ _ _ HD Hx Hy) as Hxy. cbv beta in Hxy.
  nra.
Qed.

(** X15: how good the value function is when the refit returns.  If [vstar]
    is the optimal value function of the refit model (a fixed point of its
    Bellman update), then every value the refit stores is within
    gamma * tolerance / (1 - gamma) of it. *)
Theorem refit_near_optimum (a : Args) (m : MDP) (fuel : nat) (gamma tol : Q) (m' : MDP)
    (vstar : list Q) :
  reachable a m → (0 <= gamma)%Q → (gamma < 1)%Q →
  update_mdp_parameters fuel gamma tol m = Ok m' →
  bellman_fixed_point m' gamma vstar →
  ∀ s x y, value m' !! s = Some x → vstar !! s = Some y →
    ((1 - gamma) * Qabs (x - y) <= gamma * tol)%Q.
Proof.
  intros Hreach G0 G1 Hup Hfix.
  destruct (reachable_facts a m Hreach) as (Hshape & Hnn & Hrs & _).
  destruct (update_mdp_parameters_frame _ _ _ _ _ Hup) as (_ & _ & _ & Hp & _ & Hr).
  unfold update_mdp_parameters in Hup.
  apply (value_iteration_near_optimum fuel gamma tol (refit_estimates m) m' vstar);
    [apply mdp_shape_refit; exact Hshape
    |cbn [refit_estimates set_estimates transition_probs];
     apply refit_probs_stochastic; assumption
    |assumption..|].
  unfold bellman_fixed_point in *.
  rewrite <- (bellman_without_duck (refit_estimates m) m' gamma vstar); [exact Hfix| |].
  - rewrite Hr. reflexivity.
  - rewrite Hp. reflexivity.
Qed.

Lemma refit_near_optimum_witness :
  ∃ m m',
    run_calls (1 # 2) 2 (initialize_mdp_data example_args)
      [RecordTransition None 1 small_cactus_ahead 1 false] = Ok m
    ∧ update_mdp_parameters 1 (1 # 2) 2 m = Ok m'
    ∧ bellman_fixed_point m' (1 # 2) example_optimum
    ∧ ∀ s x y, value m' !! s = Some x → example_optimum !! s = Some y →
        ((1 - (1 # 2)) * Qabs (x - y) <= (1 # 2) * 2)%Q.
Proof.
  assert (∃ m m',
    run_calls (1 # 2) 2 (initialize_mdp_data example_args)
      [RecordTransition None 1 small_cactus_ahead 1 false] = Ok m
    ∧ update_mdp_parameters 1 (1 # 2) 2 m = Ok m'
    ∧ bellman_fixed_point m' (1 # 2) example_optimum) as (m & m' & E1 & E2 & E3).
  { eexists. eexists. split; [vm_compute; reflexivity|].
    split; [vm_compute; reflexivity|].
    vm_compute. repeat constructor. }
  exists m, m'. split; [exact E1|]. split; [exact E2|]. split; [exact E3|].
  apply (refit_near_optimum example_args m 1 (1 # 2) 2 m' example_optimum).
  - exists (1 # 2)%Q, 2%Q. eexists. exact E1.
  - vm_compute. discriminate.
  - vm_compute. reflexivity.
  - exact E2.
  - exact E3.
Defined.

(** ** A tolerance that is not positive *)

Lemma value_iteration_tolerance fuel g tol : (tol <= 0)%Q →
  ∀ m, value_iteration fuel g tol m = OutOfFuel.
Proof.
  intros Ht. induction fuel as [|fuel IH]; intros m; cbn [value_iteration]; [reflexivity|].
  destruct (Qlt_le_dec _ _) as [Hlt|_]; [|apply IH].
  pose proof (max_abs_diff_nonneg (bellman m g (value m)) (value m)). lra.
Qed.

(** X16: the tolerance must be positive.  With a tolerance of zero or less
    the convergence test can never succeed: whatever the model and the
    discount, the loop of [update_mdp_parameters] runs through any number of
    sweeps without returning, and so does [reset]. *)
Theorem nonpositive_tolerance_never_returns (tol : Q) :
  (tol <= 0)%Q →
  (∀ fuel gamma m, update_mdp_parameters fuel gamma tol m = OutOfFuel)
  ∧ (∀ fuel self, tolerance self = tol → reset fuel self = OutOfFuel).
Proof.
  intros Ht. split.
  - intros fuel g m. apply value_iteration_tolerance. exact Ht.
  - intros fuel self E. unfold reset, update_mdp_parameters.
    rewrite value_iteration_tolerance; [reflexivity|]. rewrite E. exact Ht.
Qed.

Lemma nonpositive_tolerance_never_returns_witness :
  (0 <= 0)%Q
  ∧ ∀ fuel, update_mdp_parameters fuel (1 # 2) 0 (initialize_mdp_data example_args)
            = OutOfFuel.
Proof.
  split; [vm_compute; discriminate|].
  intros fuel. apply (nonpositive_tolerance_never_returns 0); vm_compute; discriminate.
Defined.

(** * The binary64 model *)

(** ** The order of binary64 numbers *)

Ltac compare_split :=
  repeat match goal with
  | |- context [(?a ?= ?b)%Z] =>
      let E := fresh "E" in
      destruct (Zcompare_cases a b) as [[E ?]|[[E ?]|[E ?]]]; rewrite E
  | |- context [PosDef.Pos.compare_cont Eq ?a ?b] =>
      let E := fresh "E" in
      destruct (Poscompare_cases a b) as [[E ?]|[[E ?]|[E ?]]]; rewrite E
  end.

Ltac float_cases x :=
  let s := fresh "s" in
  let m := fresh "m" in
  let e := fresh "e" in
  destruct x as [[|]|[|]| |[|] m e].

Lemma SFcompare_swap x y c :
  SFcompare x y = Some c → SFcompare y x = Some (CompOpp c).
Proof.
  float_cases x; float_cases y; cbn [SFcompare]; intros [= <-]; try reflexivity;
    compare_split; cbn [CompOpp]; try reflexivity; exfalso; lia.
Qed.

Lemma SFcompare_lt_trans x y z c :
  SFcompare x y = Some Lt → SFcompare y z = Some c → c ≠ Gt →
  SFcompare x z = Some Lt.
Proof.
  float_cases x; float_cases y; cbn [SFcompare]; try discriminate;
    float_cases z; cbn [SFcompare]; try discriminate; try reflexivity;
    try (intros _ [= <-] Hc; congruence);
    compare_split; cbn [CompOpp]; intros Ha [= <-] Hc;
    try discriminate; try reflexivity; try congruence; exfalso; lia.
Qed.

Lemma SFcompare_le_lt_trans x y z c :
  SFcompare x y = Some c → c ≠ Gt → SFcompare y z = Some Lt →
  SFcompare x z = Some Lt.
Proof.
  float_cases x; float_cases y; cbn [SFcompare]; try discriminate;
    float_cases z; cbn [SFcompare]; try discriminate; try reflexivity;
    try (intros [= <-] Hc _; congruence);
    compare_split; cbn [CompOpp]; intros [= <-] Hc Ha;
    try discriminate; try reflexivity; try congruence; exfalso; lia.
Qed.

Lemma SFcompare_nan x y :
  SFcompare x y = None ↔ Binary64.is_nan x = true ∨ Binary64.is_nan y = true.
Proof.
  float_cases x; float_cases y; cbn [SFcompare Binary64.is_nan]; split;
    try discriminate; auto; intros [?|?]; discriminate.
Qed.

Lemma SFcompare_refl x : Binary64.is_nan x = false → SFcompare x x = Some Eq.
Proof.
  float_cases x; cbn [SFcompare Binary64.is_nan]; try discriminate; try reflexivity;
    intros _; compare_split; cbn [CompOpp]; try reflexivity; exfalso; lia.
Qed.

Lemma fltb_Lt x y : fltb x y = true ↔ SFcompare x y = Some Lt.
Proof.
  unfold fltb, SFltb. destruct (SFcompare x y) as [[| |]|]; split; congruence.
Qed.

Lemma fleb_le x y : fleb x y = true ↔ ∃ c, SFcompare x y = Some c ∧ c ≠ Gt.
Proof.
  unfold fleb, SFleb. destruct (SFcompare x y) as [[| |]|]; split;
    try discriminate; try reflexivity; eauto;
    intros (c & [= <-] & H); congruence || (intros; destruct H; congruence).
Qed.

Lemma fltb_trans x y z : fltb x y = true → fltb y z = true → fltb x z = true.
Proof.
  rewrite !fltb_Lt. intros H1 H2.
  eapply SFcompare_lt_trans; [exact H1 | exact H2 | discriminate].
Qed.

Lemma fltb_fleb_trans x y z : fltb x y = true → fleb y z = true → fltb x z = true.
Proof.
  rewrite !fltb_Lt, fleb_le. intros H1 (c & H2 & Hc).
  eapply SFcompare_lt_trans; eassumption.
Qed.

Lemma fleb_fltb_trans x y z : fleb x y = true → fltb y z = true → fltb x z = true.
Proof.
  rewrite !fltb_Lt, fleb_le. intros (c & H1 & Hc) H2.
  eapply SFcompare_le_lt_trans; eassumption.
Qed.

Lemma fleb_not_nan x y :
  fleb x y = true → Binary64.is_nan x = false ∧ Binary64.is_nan y = false.
Proof.
  rewrite fleb_le. intros (c & H & _).
  destruct (Binary64.is_nan x) eqn:Ex, (Binary64.is_nan y) eqn:Ey; auto;
    assert (SFcompare x y = None) by (apply SFcompare_nan; auto); congruence.
Qed.

Lemma fltb_not_nan x y :
  fltb x y = true → Binary64.is_nan x = false ∧ Binary64.is_nan y = false.
Proof. intros H. apply fleb_not_nan, fltb_fleb, H. Qed.

Lemma fleb_refl x : Binary64.is_nan x = false → fleb x x = true.
Proof. intros H. apply fleb_le. exists Eq. split; [apply SFcompare_refl, H | discriminate]. Qed.

Lemma fleb_false x y :
  fleb x y = false → Binary64.is_nan x = false → Binary64.is_nan y = false →
  fltb y x = true.
Proof.
  intros H Hx Hy. apply fltb_Lt.
  destruct (SFcompare x y) as [c|] eqn:E.
  - rewrite (SFcompare_swap _ _ _ E).
    unfold fleb, SFleb in H. rewrite E in H. destruct c; try discriminate. reflexivity.
  - apply SFcompare_nan in E as [E|E]; congruence.
Qed.

Lemma fltb_irrefl x y : fltb x y = true → fleb y x = false.
Proof.
  rewrite fltb_Lt. intros H. unfold fleb, SFleb.
  rewrite (SFcompare_swap _ _ _ H). reflexivity.
Qed.

(** ** [np.argmin] *)

Lemma np_argmin_from_contract l : ∀ pre best bv,
  pre !! best = Some bv → Binary64.is_nan bv = false →
  (∀ j y, pre !! j = Some y → Binary64.is_nan y = false ∧ fleb bv y = true) →
  (∀ j y, (j < best)%nat → pre !! j = Some y → fltb bv y = true) →
  Binary64.first_argmin (pre ++ l) (Binary64.argmin_from best bv (length pre) l).
Proof.
  induction l as [|x l IH]; intros pre best bv Hb Hn Hall Hbefore;
    cbn [Binary64.argmin_from].
  - rewrite app_nil_r. exists bv. split; [exact Hb|]. split.
    + intros j y Hj Hy. split; [apply (Hall _ _ Hy)|]. right. eauto.
    + intros _ j y Hy. apply (Hall _ _ Hy).
  - assert (pre ++ x :: l = (pre ++ [x]) ++ l) as Eapp by (rewrite <- app_assoc; reflexivity).
    assert (length (pre ++ [x]) = S (length pre)) as Elen by (rewrite length_app; simpl; lia).
    destruct (fleb bv x) eqn:Ele.
    + rewrite Eapp, <- Elen. apply IH.
      * apply lookup_app_l_Some. exact Hb.
      * exact Hn.
      * intros j y Hy. apply lookup_app_Some in Hy as [Hy|[_ Hy]]; [eauto|].
        apply list_lookup_singleton_Some in Hy as [_ <-].
        split; [apply (fleb_not_nan _ _ Ele) | exact Ele].
      * intros j y Hj Hy. apply lookup_app_Some in Hy as [Hy|[Hge _]]; [eauto|].
        apply lookup_lt_Some in Hb. lia.
    + destruct (Binary64.is_nan x) eqn:Enan.
      * exists x. split; [apply list_lookup_middle; reflexivity|]. split.
        -- intros j y Hj Hy. rewrite lookup_app_l in Hy by exact Hj.
           split; [apply (Hall _ _ Hy) | auto].
        -- congruence.
      * pose proof (fleb_false _ _ Ele Hn Enan) as Hlt.
        rewrite Eapp, <- Elen. apply IH.
        -- rewrite lookup_app_r by lia. rewrite Nat.sub_diag. reflexivity.
        -- exact Enan.
        -- intros j y Hy. apply lookup_app_Some in Hy as [Hy|[_ Hy]].
           ++ destruct (Hall _ _ Hy) as [Hy1 Hy2]. split; [exact Hy1|].
              apply fltb_fleb. eapply fltb_fleb_trans; eassumption.
           ++ apply list_lookup_singleton_Some in Hy as [_ <-].
              split; [exact Enan | apply fleb_refl, Enan].
        -- intros j y Hj Hy. rewrite lookup_app_l in Hy by exact Hj.
           eapply fltb_fleb_trans; [exact Hlt | apply (Hall _ _ Hy)].
Qed.

Lemma np_argmin_contract l i : Binary64.argmin l = Ok i → Binary64.first_argmin l i.
Proof.
  destruct l as [|x l]; cbn [Binary64.argmin]; [discriminate|]. intros [= <-].
  destruct (Binary64.is_nan x) eqn:Enan.
  - exists x. split; [reflexivity|]. split; [intros j y Hj; lia | congruence].
  - apply (np_argmin_from_contract l [x] 0%nat x); [reflexivity | exact Enan | |].
    + intros [|j] y Hy; [|discriminate]. injection Hy as <-.
      split; [exact Enan | apply fleb_refl, Enan].
    + intros j y Hj. lia.
Qed.

Lemma np_first_argmin_lt l i : Binary64.first_argmin l i → (i < length l)%nat.
Proof. intros (x & Hx & _). eapply lookup_lt_Some, Hx. Qed.

Lemma np_first_argmin_unique l i j :
  Binary64.first_argmin l i → Binary64.first_argmin l j → i = j.
Proof.
  intros (x & Hx & Hxb & Hxa) (y & Hy & Hyb & Hya).
  destruct (Nat.lt_trichotomy i j) as [H|[H|H]]; [exfalso|exact H|exfalso].
  - destruct (Hyb _ _ H Hx) as [Hn [Hy'|Hlt]].
    + destruct (Hxa Hn _ _ Hy) as [Hn' _]. congruence.
    + destruct (Hxa Hn _ _ Hy) as [_ Hle].
      rewrite (fltb_irrefl _ _ Hlt) in Hle. discriminate.
  - destruct (Hxb _ _ H Hy) as [Hn [Hx'|Hlt]].
    + destruct (Hya Hn _ _ Hx) as [Hn' _]. congruence.
    + destruct (Hya Hn _ _ Hx) as [_ Hle].
      rewrite (fltb_irrefl _ _ Hlt) in Hle. discriminate.
Qed.

Lemma np_argmin_nonempty l : l ≠ [] → ∃ i, Binary64.argmin l = Ok i.
Proof. destruct l; [congruence|]. intros _. cbn [Binary64.argmin]. eauto. Qed.

(** ** The discretizer *)

Lemma length_linspace start stop num : length (Binary64.linspace start stop num) = num.
Proof.
  unfold Binary64.linspace, Binary64.arange.
  destruct (1 <? num)%nat; [rewrite length_insert|];
    rewrite length_map; destruct (0 <? Z.of_nat num - 1)%Z;
    try destruct (feqb _ f0); rewrite !length_map, length_seq; reflexivity.
Qed.

Lemma length_np_config_grid ty : length (Binary64.config_grid ty) = 3%nat.
Proof. unfold Binary64.config_grid. destruct (decide _); reflexivity. Qed.

Lemma length_np_abs_diff grid x : length (Binary64.abs_diff grid x) = length grid.
Proof. apply length_map. Qed.

Lemma np_num_states_init a :
  Binary64.num_states (Binary64.initialize_mdp_data a) = (9 * Binary64.n_x a + 2)%nat.
Proof.
  unfold Binary64.initialize_mdp_data; simpl. rewrite size_OBSTACLE_TYPES. simpl. lia.
Qed.

Lemma np_get_closest_state_idx_present a st isFail t :
  (1 <= Binary64.n_x a)%nat →
  OBSTACLE_TYPES !! Binary64.type st = Some t →
  ∃ j k,
    Binary64.first_argmin
      (Binary64.abs_diff (Binary64.config_grid (Binary64.type st)) (Binary64.config st)) j
    ∧ Binary64.first_argmin
        (Binary64.abs_diff (Binary64.linspace f0 (Binary64.max_dx a) (Binary64.n_x a))
           (Binary64.dx st)) k
    ∧ (j < 3)%nat ∧ (k < Binary64.n_x a)%nat
    ∧ Binary64.get_closest_state_idx (Binary64.initialize_mdp_data a) (Some st) isFail
      = Ok ((if isFail then 0 else 1)
            * (t * 3 * Binary64.n_x a + j * Binary64.n_x a + k + 2))%nat.
Proof.
  intros Hn Ht.
  destruct (np_argmin_nonempty
              (Binary64.abs_diff (Binary64.config_grid (Binary64.type st)) (Binary64.config st)))
    as [j Ej].
  { intros E. apply (f_equal length) in E.
    rewrite length_np_abs_diff, length_np_config_grid in E. discriminate. }
  destruct (np_argmin_nonempty
              (Binary64.abs_diff (Binary64.linspace f0 (Binary64.max_dx a) (Binary64.n_x a))
                 (Binary64.dx st))) as [k Ek].
  { intros E. apply (f_equal length) in E.
    rewrite length_np_abs_diff, length_linspace in E. cbn [length] in E. lia. }
  pose proof (np_argmin_contract _ _ Ej) as Hj.
  pose proof (np_argmin_contract _ _ Ek) as Hk.
  pose proof (np_first_argmin_lt _ _ Hj) as Lj.
  pose proof (np_first_argmin_lt _ _ Hk) as Lk.
  rewrite length_np_abs_diff, length_np_config_grid in Lj.
  rewrite length_np_abs_diff, length_linspace in Lk.
  exists j, k. split; [exact Hj|]. split; [exact Hk|]. split; [exact Lj|]. split; [exact Lk|].
  unfold Binary64.get_closest_state_idx.
  cbn [Binary64.initialize_mdp_data Binary64.state_discretization].
  rewrite Ht. cbn [from_option mbind result_bind].
  unfold Binary64.config_grid in Ej.
  destruct (decide (Binary64.type st = "PTERODACTYL")); rewrite Ej;
    cbn [mbind result_bind]; rewrite Ek; cbn [mbind result_bind];
    rewrite length_linspace, length_map; reflexivity.
Qed.

(** C6, as the code has it: with at least one distance bucket, a valid
    observation is discretized to an index below [num_states]; no obstacle
    gives 1, a crash with an obstacle gives 0, and an obstacle seen without
    a crash gets [t * 3 * n_x + j * n_x + k + 2] for its type ordinal [t],
    its configuration bucket [j] and its distance bucket [k], where a bucket
    is the one [np.argmin] picks among the binary64 distances
    [abs(grid - x)]: the first of the least, a NaN counting as least. *)
Theorem discretize_total_in_range (a : Binary64.Args)
    (state : option Binary64.obstacle) (isFail : bool) :
  (1 <= Binary64.n_x a)%nat → Binary64.valid_observation state →
  ∃ idx,
    Binary64.get_closest_state_idx (Binary64.initialize_mdp_data a) state isFail = Ok idx
    ∧ (idx < Binary64.num_states (Binary64.initialize_mdp_data a))%nat
    ∧ (state = None → idx = 1%nat)
    ∧ ∀ st, state = Some st →
        ∃ t j k,
          OBSTACLE_TYPES !! Binary64.type st = Some t
          ∧ (j < 3)%nat ∧ (k < Binary64.n_x a)%nat
          ∧ Binary64.first_argmin
              (Binary64.abs_diff (Binary64.config_grid (Binary64.type st))
                 (Binary64.config st)) j
          ∧ Binary64.first_argmin
              (Binary64.abs_diff
                 (Binary64.linspace f0 (Binary64.max_dx a) (Binary64.n_x a))
                 (Binary64.dx st)) k
          ∧ idx = (if isFail then 0
                   else t * 3 * Binary64.n_x a + j * Binary64.n_x a + k + 2)%nat.
Proof.
  intros Hn Hv. destruct state as [st|].
  - destruct Hv as [t Ht].
    destruct (np_get_closest_state_idx_present a st isFail t Hn Ht)
      as (j & k & Hj & Hk & Lj & Lk & E).
    pose proof (OBSTACLE_TYPES_known _ _ Ht) as Hknown.
    eexists. split; [exact E|]. split; [|split; [discriminate|]].
    + rewrite np_num_states_init. destruct isFail; [lia|].
      assert (t <= 2)%nat by (destruct Hknown as [[_ ->]|[[_ ->]|[_ ->]]]; lia).
      nia.
    + intros st' [= <-]. exists t, j, k.
      repeat (split; [assumption|]). destruct isFail; lia.
  - exists 1%nat. split; [reflexivity|]. split; [rewrite np_num_states_init; lia|].
    split; [reflexivity | discriminate].
Qed.

Lemma discretize_total_in_range_witness :
  ∃ idx,
    Binary64.get_closest_state_idx (Binary64.initialize_mdp_data Binary64.example_args)
      (Some {| Binary64.type := "CACTUS_SMALL"; Binary64.config := float_of_Z 1;
               Binary64.dx := float_of_Z 300 |}) false = Ok idx
    ∧ idx = 6%nat.
Proof.
  destruct (discretize_total_in_range Binary64.example_args
              (Some {| Binary64.type := "CACTUS_SMALL"; Binary64.config := float_of_Z 1;
                       Binary64.dx := float_of_Z 300 |}) false)
    as (idx & E & _).
  - cbn [Binary64.example_args Binary64.n_x]. lia.
  - simpl. exists 0%nat. reflexivity.
  - exists idx. split; [exact E|].
    vm_compute in E. injection E as <-. reflexivity.
Defined.

(** C6 as stated fails for a configuration with no distance bucket:
    [np.argmin] of the empty distance grid raises [ValueError].  And the
    bucket is the nearest among the computed distances only: a distance of
    1e20 absorbs every grid point, the eight distances are equal and the
    first bucket is picked, not the last. *)
Lemma discretize_no_bucket_raises :
  Binary64.get_closest_state_idx
    (Binary64.initialize_mdp_data
       {| Binary64.arg_gamma := f1; Binary64.arg_tolerance := f1;
          Binary64.n_x := 0; Binary64.max_dx := float_of_Z 600 |})
    (Some {| Binary64.type := "CACTUS_SMALL"; Binary64.config := float_of_Z 1;
             Binary64.dx := f0 |}) false = Raise ValueError
  ∧ Binary64.get_closest_state_idx (Binary64.initialize_mdp_data Binary64.example_args)
      (Some {| Binary64.type := "CACTUS_SMALL"; Binary64.config := float_of_Z 1;
               Binary64.dx := float_of_Z (10 ^ 20) |}) false = Ok 2%nat.
Proof. split; vm_compute; reflexivity. Qed.

Lemma np_get_closest_state_idx_Ok_inv a st idx :
  Binary64.get_closest_state_idx (Binary64.initialize_mdp_data a) (Some st) false = Ok idx →
  ∃ t j k,
    OBSTACLE_TYPES !! Binary64.type st = Some t
    ∧ Binary64.first_argmin
        (Binary64.abs_diff (Binary64.config_grid (Binary64.type st)) (Binary64.config st)) j
    ∧ Binary64.first_argmin
        (Binary64.abs_diff (Binary64.linspace f0 (Binary64.max_dx a) (Binary64.n_x a))
           (Binary64.dx st)) k
    ∧ idx = (t * 3 * Binary64.n_x a + j * Binary64.n_x a + k + 2)%nat
    ∧ (t <= 2)%nat ∧ (j < 3)%nat ∧ (k < Binary64.n_x a)%nat.
Proof.
  intros H.
  destruct (OBSTACLE_TYPES !! Binary64.type st) as [t|] eqn:Ht.
  2:{ unfold Binary64.get_closest_state_idx in H.
      cbn [Binary64.initialize_mdp_data Binary64.state_discretization] in H.
      rewrite Ht in H. discriminate. }
  destruct (Nat.eq_dec (Binary64.n_x a) 0) as [Hz|Hz].
  { unfold Binary64.get_closest_state_idx in H.
    cbn [Binary64.initialize_mdp_data Binary64.state_discretization] in H.
    rewrite Ht, Hz in H. cbn [from_option mbind result_bind] in H.
    destruct (decide _); simpl in H; discriminate. }
  destruct (np_get_closest_state_idx_present a st false t) as (j & k & Hj & Hk & Lj & Lk & E);
    [lia|exact Ht|].
  rewrite E in H. injection H as <-.
  exists t, j, k. split; [reflexivity|]. split; [exact Hj|]. split; [exact Hk|].
  split; [lia|].
  apply OBSTACLE_TYPES_known in Ht. lia.
Qed.

(** X1: the index of an obstacle seen without a crash is at least 2, so it
    is neither the FAIL state nor the no-obstacle state, and it decodes:
    its remainder by [n_x] is the distance bucket, the next digit in base 3
    is the configuration bucket, and the rest is the ordinal of the obstacle
    type, a bucket being the one [np.argmin] picks among the binary64
    distances.  Two observations with the same index have the same type and
    the same buckets. *)
Theorem index_decodes (a : Binary64.Args) (st : Binary64.obstacle) (idx : nat) :
  Binary64.get_closest_state_idx (Binary64.initialize_mdp_data a) (Some st) false = Ok idx →
  (2 <= idx)%nat
  ∧ OBSTACLE_TYPES !! Binary64.type st = Some (type_ordinal (Binary64.n_x a) idx)
  ∧ Binary64.first_argmin
      (Binary64.abs_diff (Binary64.config_grid (Binary64.type st)) (Binary64.config st))
      (config_bucket (Binary64.n_x a) idx)
  ∧ Binary64.first_argmin
      (Binary64.abs_diff (Binary64.linspace f0 (Binary64.max_dx a) (Binary64.n_x a))
         (Binary64.dx st))
      (distance_bucket (Binary64.n_x a) idx)
  ∧ ∀ st',
      Binary64.get_closest_state_idx (Binary64.initialize_mdp_data a) (Some st') false
      = Ok idx →
      Binary64.type st' = Binary64.type st
      ∧ Binary64.first_argmin
          (Binary64.abs_diff (Binary64.config_grid (Binary64.type st'))
             (Binary64.config st'))
          (config_bucket (Binary64.n_x a) idx)
      ∧ Binary64.first_argmin
          (Binary64.abs_diff (Binary64.linspace f0 (Binary64.max_dx a) (Binary64.n_x a))
             (Binary64.dx st'))
          (distance_bucket (Binary64.n_x a) idx).
Proof.
  intros H.
  apply np_get_closest_state_idx_Ok_inv in H
    as (t & j & k & Ht & Hj & Hk & -> & Ht2 & Hj3 & Hkn).
  destruct (decode_index (Binary64.n_x a) t j k Hj3 Hkn) as (Ek & Ej & Et).
  rewrite Ek, Ej, Et. split; [lia|]. split; [exact Ht|]. split; [exact Hj|]. split; [exact Hk|].
  intros st' H'.
  apply np_get_closest_state_idx_Ok_inv in H'
    as (t' & j' & k' & Ht' & Hj' & Hk' & E & _ & Hj3' & Hkn').
  destruct (decode_index (Binary64.n_x a) t' j' k' Hj3' Hkn') as (Ek' & Ej' & Et').
  rewrite <- E in Ek', Ej', Et'. rewrite Ek in Ek'. rewrite Ej in Ej'. rewrite Et in Et'.
  subst t' j' k'. split; [|split; assumption].
  apply OBSTACLE_TYPES_known in Ht, Ht'.
  destruct Ht as [[-> ?]|[[-> ?]|[-> ?]]], Ht' as [[-> ?]|[[-> ?]|[-> ?]]]; subst;
    try reflexivity; discriminate.
Qed.

Lemma index_decodes_witness :
  Binary64.first_argmin
    (Binary64.abs_diff (Binary64.linspace f0 (float_of_Z 600) 8) (float_of_Z 300))
    (distance_bucket 8 6)
  ∧ distance_bucket 8 6 = 4%nat.
Proof.
  destruct (index_decodes Binary64.example_args
              {| Binary64.type := "CACTUS_SMALL"; Binary64.config := float_of_Z 1;
                 Binary64.dx := float_of_Z 300 |} 6)
    as (_ & _ & _ & Hk & _).
  - vm_compute. reflexivity.
  - split; [exact Hk | reflexivity].
Defined.

(** * Calls with any integer action *)

Lemma normalize_index_in n i :
  (- Z.of_nat n <= i < Z.of_nat n)%Z →
  normalize_index n i = Ok (Z.to_nat (i mod Z.of_nat n)).
Proof.
  intros Hi. unfold normalize_index.
  destruct (Z.leb_spec 0 i) as [H0|H0]; cbn [andb].
  - destruct (Z.ltb_spec i (Z.of_nat n)) as [H1|H1]; [|lia].
    rewrite Z.mod_small by lia. reflexivity.
  - destruct (Z.leb_spec (- Z.of_nat n) i) as [H1|H1]; [|lia].
    destruct (Z.ltb_spec i 0) as [H2|H2]; [|lia]. cbn [andb].
    f_equal. f_equal.
    rewrite <- (Z.mod_add i 1 (Z.of_nat n)) by lia.
    rewrite Z.mul_1_l, Z.mod_small by lia. reflexivity.
Qed.

Lemma normalize_index_out n i :
  (i < - Z.of_nat n ∨ Z.of_nat n <= i)%Z → normalize_index n i = Raise IndexError.
Proof.
  intros Hi. unfold normalize_index.
  destruct (Z.leb_spec 0 i) as [H0|H0]; cbn [andb].
  - destruct (Z.ltb_spec i (Z.of_nat n)) as [H1|H1]; [lia|].
    destruct (Z.leb_spec (- Z.of_nat n) i), (Z.ltb_spec i 0); cbn [andb];
      try reflexivity; lia.
  - destruct (Z.leb_spec (- Z.of_nat n) i) as [H1|H1]; [lia|]. reflexivity.
Qed.

Lemma get_closest_state_idx_invalid m o f :
  ¬ valid_observation o → get_closest_state_idx m o f = Raise KeyError.
Proof.
  intros Hv. destruct o as [o|]; [|exfalso; apply Hv; exact I].
  unfold get_closest_state_idx. destruct (state_discretization m) as [[? ?] ?].
  destruct (OBSTACLE_TYPES !! type o) eqn:E; [exfalso; apply Hv; simpl; rewrite E; eauto|].
  reflexivity.
Qed.

Lemma get_closest_state_idx_reachable a m o f :
  reachable a m → (1 <= n_x a)%nat → valid_observation o →
  ∃ i, get_closest_state_idx m o f = Ok i ∧ (i < num_states m)%nat.
Proof.
  intros Hreach Hn Hv.
  destruct (reachable_facts a m Hreach) as (_ & _ & _ & Hnum & Hgrid).
  rewrite (get_closest_state_idx_grid _ _ _ _ Hgrid).
  destruct (get_closest_state_idx_valid a o f Hn Hv) as (i & E & Hi).
  exists i. split; [exact E|]. rewrite Hnum, <- num_states_init. exact Hi.
Qed.

(** X5: what [update_mdp_counts] needs.  On a model the agent can reach,
    with at least one distance bucket: it succeeds when both observations
    are valid and the action is an integer from -3 to 2, a negative one
    counting from the end of the action axis as numpy has it; it raises
    [IndexError] for any other integer; and it raises [KeyError] when the
    previous observation, or else the new one, has an unknown obstacle
    type. *)
Theorem update_mdp_counts_outcome (a : Args) (m : MDP) (st : option obstacle)
    (act : Z) (new_st : option obstacle) (r : Q) (crashed : bool) :
  reachable a m → (1 <= n_x a)%nat →
  (valid_observation st → valid_observation new_st → (-3 <= act < 3)%Z →
     ∃ m', update_mdp_counts_int m st act new_st r crashed = Ok m'
           ∧ update_mdp_counts m st (Z.to_nat (act mod 3)) new_st r crashed = Ok m')
  ∧ (valid_observation st → valid_observation new_st → (act < -3 ∨ 3 <= act)%Z →
       update_mdp_counts_int m st act new_st r crashed = Raise IndexError)
  ∧ (¬ valid_observation st →
       update_mdp_counts_int m st act new_st r crashed = Raise KeyError)
  ∧ (valid_observation st → ¬ valid_observation new_st →
       update_mdp_counts_int m st act new_st r crashed = Raise KeyError).
Proof.
  intros Hreach Hn.
  destruct (reachable_facts a m Hreach) as (Hshape & _).
  destruct Hshape as (_ & (Hlen & Hrows) & _).
  assert (∀ s, (s < num_states m)%nat →
            ∃ rows, transition_counts m !! s = Some rows ∧ length rows = 3%nat) as Hrow.
  { intros s Hs. destruct (lookup_lt_is_Some_2 (transition_counts m) s ltac:(lia)) as [rows E].
    exists rows. split; [exact E | apply (Hrows _ _ E)]. }
  split; [|split; [|split]].
  - intros Hv Hv' Hact.
    destruct (get_closest_state_idx_reachable a m st false Hreach Hn Hv) as (s & Es & Hs).
    destruct (get_closest_state_idx_reachable a m new_st crashed Hreach Hn Hv')
      as (s' & Es' & Hs').
    destruct (Hrow s Hs) as (rows & E1 & L3).
    destruct (update_mdp_counts_succeeds a m st (Z.to_nat (act mod 3)) new_st r crashed
                Hreach Hn Hv Hv') as [m' E].
    { pose proof (Z.mod_pos_bound act 3 ltac:(lia)). lia. }
    exists m'. split; [|exact E].
    unfold update_mdp_counts_int. rewrite Es, Es'. cbn [mbind result_bind].
    rewrite E1. cbn [from_option mbind result_bind]. rewrite L3.
    rewrite (normalize_index_in 3 act) by (cbn; lia). cbn [mbind result_bind]. exact E.
  - intros Hv Hv' Hact.
    destruct (get_closest_state_idx_reachable a m st false Hreach Hn Hv) as (s & Es & Hs).
    destruct (get_closest_state_idx_reachable a m new_st crashed Hreach Hn Hv')
      as (s' & Es' & Hs').
    destruct (Hrow s Hs) as (rows & E1 & L3).
    unfold update_mdp_counts_int. rewrite Es, Es'. cbn [mbind result_bind].
    rewrite E1. cbn [from_option mbind result_bind]. rewrite L3.
    rewrite (normalize_index_out 3 act) by (cbn; lia). reflexivity.
  - intros Hv. unfold update_mdp_counts_int.
    rewrite (get_closest_state_idx_invalid m st false Hv). reflexivity.
  - intros Hv Hv'.
    destruct (get_closest_state_idx_reachable a m st false Hreach Hn Hv) as (s & Es & Hs).
    unfold update_mdp_counts_int.
    rewrite Es, (get_closest_state_idx_invalid m new_st crashed Hv'). reflexivity.
Qed.

Lemma update_mdp_counts_outcome_witness :
  (∃ m', update_mdp_counts_int (initialize_mdp_data example_args) None (-1)
           small_cactus_ahead 1 false = Ok m'
         ∧ update_mdp_counts (initialize_mdp_data example_args) None 2
             small_cactus_ahead 1 false = Ok m')
  ∧ update_mdp_counts_int (initialize_mdp_data example_args) None 3
      small_cactus_ahead 1 false = Raise IndexError.
Proof.
  destruct (update_mdp_counts_outcome example_args (initialize_mdp_data example_args)
              None (-1) small_cactus_ahead 1 false) as (H1 & _).
  { exists 0%Q, 0%Q, []. reflexivity. }
  { simpl. lia. }
  destruct (update_mdp_counts_outcome example_args (initialize_mdp_data example_args)
              None 3 small_cactus_ahead 1 false) as (_ & H2 & _).
  { exists 0%Q, 0%Q, []. reflexivity. }
  { simpl. lia. }
  split.
  - apply H1; [exact I | exists 0%nat; reflexivity | lia].
  - apply H2; [exact I | exists 0%nat; reflexivity | lia].
Defined.

(** * The agent's calls *)

Lemma value_iteration_never_raises fuel g tol : ∀ m e,
  value_iteration fuel g tol m ≠ Raise e.
Proof.
  induction fuel as [|fuel IH]; intros m e; cbn [value_iteration]; [discriminate|].
  destruct (Qlt_le_dec _ _); [discriminate | apply IH].
Qed.

Lemma reset_never_raises fuel self e : reset fuel self ≠ Raise e.
Proof.
  unfold reset, update_mdp_parameters. intros H.
  destruct (value_iteration fuel (gamma self) (tolerance self) (refit_estimates (mdp_data self)))
    as [m'| e'|] eqn:E; cbn [mbind result_bind] in H; try discriminate.
  exact (value_iteration_never_raises _ _ _ _ _ E).
Qed.

(** X13: the agent's calls do not raise.  Created with at least one distance
    bucket and a valid first observation, the agent keeps its stored action
    in 0, 1, 2 and its stored observation valid, so that [choose_action]
    never raises, [set_transition] never raises when the game hands it a
    valid observation, and [reset] never raises: it returns or is still
    sweeping. *)
Theorem agent_calls_succeed (a : Args) (s0 : option obstacle) (evs : list event)
    (self : AIAgent) :
  (1 <= n_x a)%nat → valid_observation s0 →
  run_agent (init a s0) evs = Ok self →
  (action self <= 2)%nat ∧ valid_observation (state self)
  ∧ (∀ r1 r2, ∃ self' c, choose_action self r1 r2 = Ok (self', c))
  ∧ (∀ crashed new_st, valid_observation new_st →
       ∃ self', set_transition self crashed new_st = Ok self')
  ∧ (∀ fuel e, reset fuel self ≠ Raise e).
Proof.
  intros Hn Hv H.
  destruct (run_agent_action_state _ _ _ H) as [Hact Hst];
    [cbn [init action]; lia | exact Hv |].
  pose proof (run_agent_reachable _ _ _ _ H) as Hreach.
  split; [exact Hact|]. split; [exact Hst|]. split; [|split].
  - intros r1 r2. unfold choose_action.
    destruct (fltb r1 (eps self)).
    + destruct (best_action_Ok a _ _ Hreach Hn Hst) as [act ->].
      cbn [mbind result_bind]. eauto.
    + cbn [mbind result_bind]. eauto.
  - intros crashed new_st Hnew. unfold set_transition.
    destruct (update_mdp_counts_succeeds a (mdp_data self) (state self) (action self)
                new_st (get_reward crashed) crashed Hreach Hn Hst Hnew ltac:(lia)) as [m' ->].
    cbn [mbind result_bind]. eauto.
  - intros fuel e. apply reset_never_raises.
Qed.

Lemma agent_calls_succeed_witness :
  ∃ self, run_agent (init example_args None) example_events = Ok self
          ∧ (action self <= 2)%nat
          ∧ (∀ r1 r2, ∃ self' c, choose_action self r1 r2 = Ok (self', c)).
Proof.
  assert (∃ self, run_agent (init example_args None) example_events = Ok self) as [self E].
  { eexists. vm_compute. reflexivity. }
  exists self. split; [exact E|].
  destruct (agent_calls_succeed example_args None example_events self) as (H1 & _ & H2 & _).
  - cbn [example_args n_x]. lia.
  - exact I.
  - exact E.
  - split; [exact H1 | exact H2].
Defined.

(** ** The value-iteration loop *)

Lemma maximum_lt a b t :
  fltb (Binary64.maximum a b) t = true ↔ fltb a t = true ∧ fltb b t = true.
Proof.
  unfold Binary64.maximum. destruct (fleb b a) eqn:E; cbn [orb].
  - split; [|tauto]. intros H. split; [exact H|]. eapply fleb_fltb_trans; eassumption.
  - destruct (Binary64.is_nan a) eqn:N.
    + split; [intros H | intros [H _]]; apply fltb_not_nan in H as [H _]; congruence.
    + split; [|tauto]. intros H. split; [|exact H].
      pose proof (fltb_not_nan _ _ H) as [Hb _].
      eapply fltb_trans; [|exact H]. apply fleb_false; assumption.
Qed.

Lemma foldl_maximum_lt t l : ∀ x,
  fltb (foldl Binary64.maximum x l) t = true
  ↔ fltb x t = true ∧ Forall (λ y, fltb y t = true) l.
Proof.
  induction l as [|y l IH]; intros x; cbn [foldl].
  - split; [intros H; split; [exact H | constructor] | tauto].
  - rewrite IH, maximum_lt, Forall_cons. tauto.
Qed.

Lemma np_max_lt t l d :
  Binary64.np_max l = Ok d → (fltb d t = true ↔ Forall (λ y, fltb y t = true) l).
Proof.
  destruct l as [|x l]; cbn [Binary64.np_max]; [discriminate|]. intros [= <-].
  rewrite foldl_maximum_lt, Forall_cons. tauto.
Qed.

Lemma max_abs_diff_lt t new old :
  (1 <= length new)%nat → (1 <= length old)%nat →
  ∃ d, Binary64.max_abs_diff new old = Ok d
       ∧ (fltb d t = true
          ↔ ∀ s x y, new !! s = Some x → old !! s = Some y →
              fltb (Binary64.fabs (Binary64.fsub x y)) t = true).
Proof.
  intros Hn Ho. unfold Binary64.max_abs_diff.
  set (L := map Binary64.fabs (zip_with Binary64.fsub new old)).
  assert (∃ d, Binary64.np_max L = Ok d) as [d Ed].
  { assert (1 <= length L)%nat as HL
      by (unfold L; rewrite length_map, length_zip_with; lia).
    destruct L; [cbn [length] in HL; lia | cbn [Binary64.np_max]; eauto]. }
  exists d. split; [exact Ed|].
  rewrite (np_max_lt t _ _ Ed). unfold L.
  rewrite Forall_lookup. split.
  - intros H s x y Hx Hy. apply (H s).
    rewrite list_lookup_fmap, lookup_zip_with, Hx. cbn [mbind option_bind].
    rewrite Hy. reflexivity.
  - intros H s z Hz. rewrite list_lookup_fmap, lookup_zip_with in Hz.
    destruct (new !! s) as [x|] eqn:Hx; [|discriminate]. cbn [mbind option_bind] in Hz.
    destruct (old !! s) as [y|] eqn:Hy; [|discriminate].
    injection Hz as <-. eauto.
Qed.

Lemma has_shape_lengths m :
  Binary64.has_shape m = true →
  (1 <= length (Binary64.value m))%nat
  ∧ length (Binary64.reward m) = length (Binary64.value m)
  ∧ length (Binary64.transition_probs m) = length (Binary64.value m).
Proof.
  unfold Binary64.has_shape. rewrite !andb_true_iff.
  intros [[[H1 H2] H3] _].
  apply Nat.leb_le in H1. apply Nat.eqb_eq in H2, H3. auto.
Qed.

Lemma has_shape_set_value m v :
  Binary64.has_shape m = true → length v = length (Binary64.value m) →
  Binary64.has_shape (Binary64.set_value m v) = true.
Proof.
  intros H Hv. unfold Binary64.has_shape in *.
  cbn [Binary64.set_value Binary64.value Binary64.reward Binary64.transition_probs].
  rewrite Hv. exact H.
Qed.

Lemma action_slice_take P a :
  (a < 2)%nat → Binary64.action_slice P a = Binary64.action_slice (map (take 2) P) a.
Proof.
  intros Ha. unfold Binary64.action_slice. rewrite map_map.
  apply map_ext. intros rows. rewrite lookup_take_lt by exact Ha. reflexivity.
Qed.

Section Sweeps.

(** [np.dot] of a matrix and a vector, whatever the order in which it adds
    the products: all that is used of it is the shape of its result. *)
Variable np_dot : list (list spec_float) → list spec_float → list spec_float.
Hypothesis np_dot_length : ∀ M v, length (np_dot M v) = length M.

Lemma length_np_bellman m g v :
  length (Binary64.bellman np_dot m g v)
  = (length (Binary64.reward m) `min` length (Binary64.transition_probs m))%nat.
Proof.
  unfold Binary64.bellman, Binary64.action_slice.
  rewrite length_zip_with, length_map, length_zip_with, !np_dot_length, !length_map. lia.
Qed.

Lemma has_shape_bellman m g :
  Binary64.has_shape m = true →
  length (Binary64.bellman np_dot m g (Binary64.value m)) = length (Binary64.value m).
Proof.
  intros H. destruct (has_shape_lengths m H) as (_ & Hr & Hp).
  rewrite length_np_bellman, Hr, Hp. apply Nat.min_id.
Qed.

(** One turn of the loop: it returns when the sweep changed every entry by
    less than the tolerance, and goes on from the new vector otherwise. *)
Lemma value_iteration_turn fuel g tol m :
  Binary64.has_shape m = true →
  (Binary64.converged np_dot m g tol (Binary64.value m)
   ∧ Binary64.value_iteration np_dot (S fuel) g tol m
     = Ok (Binary64.set_value m (Binary64.bellman np_dot m g (Binary64.value m))))
  ∨ (¬ Binary64.converged np_dot m g tol (Binary64.value m)
     ∧ Binary64.value_iteration np_dot (S fuel) g tol m
       = Binary64.value_iteration np_dot fuel g tol
           (Binary64.set_value m (Binary64.bellman np_dot m g (Binary64.value m)))).
Proof.
  intros H. destruct (has_shape_lengths m H) as (Hn & _ & _).
  pose proof (has_shape_bellman m g H) as Hb.
  destruct (max_abs_diff_lt tol (Binary64.bellman np_dot m g (Binary64.value m))
              (Binary64.value m)) as (d & Ed & Hd); [lia | lia |].
  cbn [Binary64.value_iteration]. rewrite Ed. cbn [mbind result_bind].
  unfold Binary64.converged. destruct (fltb d tol) eqn:E.
  - left. split; [apply Hd; reflexivity | reflexivity].
  - right. split; [|reflexivity]. intros Hc. apply Hd in Hc. congruence.
Qed.

Lemma np_sweeps_shift m g k v :
  Binary64.sweeps np_dot m g k (Binary64.bellman np_dot m g v)
  = Binary64.sweeps np_dot m g (S k) v.
Proof. unfold Binary64.sweeps. rewrite Nat.iter_succ_r. reflexivity. Qed.

Lemma np_sweeps_add m g i k v :
  Binary64.sweeps np_dot m g (i + k) v
  = Binary64.sweeps np_dot m g i (Binary64.sweeps np_dot m g k v).
Proof. unfold Binary64.sweeps. apply Nat.iter_add. Qed.

(** What the loop does with [fuel] sweeps allowed: it returns at the first
    sweep that converged, if there is one among them. *)
Lemma value_iteration_cases g tol fuel : ∀ m,
  Binary64.has_shape m = true →
  (Binary64.value_iteration np_dot fuel g tol m = OutOfFuel
   ∧ ∀ k, (k < fuel)%nat →
       ¬ Binary64.converged np_dot m g tol
           (Binary64.sweeps np_dot m g k (Binary64.value m)))
  ∨ (∃ k, (k < fuel)%nat
          ∧ Binary64.converged np_dot m g tol
              (Binary64.sweeps np_dot m g k (Binary64.value m))
          ∧ (∀ i, (i < k)%nat →
               ¬ Binary64.converged np_dot m g tol
                   (Binary64.sweeps np_dot m g i (Binary64.value m)))
          ∧ Binary64.value_iteration np_dot fuel g tol m
            = Ok (Binary64.set_value m
                    (Binary64.sweeps np_dot m g (S k) (Binary64.value m)))).
Proof.
  induction fuel as [|fuel IH]; intros m H.
  - left. split; [reflexivity | intros k Hk; lia].
  - destruct (value_iteration_turn fuel g tol m H) as [[Hc E]|[Hc E]].
    + right. exists 0%nat. split; [lia|]. split; [exact Hc|].
      split; [intros i Hi; lia | exact E].
    + set (m1 := Binary64.set_value m (Binary64.bellman np_dot m g (Binary64.value m))) in *.
      assert (Binary64.has_shape m1 = true) as H1
        by (apply has_shape_set_value; [exact H | apply has_shape_bellman, H]).
      assert (∀ k, Binary64.sweeps np_dot m1 g k (Binary64.value m1)
                   = Binary64.sweeps np_dot m g (S k) (Binary64.value m)) as Esw
        by (intros k; apply (np_sweeps_shift m g k (Binary64.value m))).
      destruct (IH m1 H1) as [[E1 Hall]|(k & Hk & Hck & Hbefore & E1)].
      * left. split; [rewrite E; exact E1|].
        intros [|k] Hk; [exact Hc|]. rewrite <- Esw. apply Hall. lia.
      * right. exists (S k). split; [lia|]. split; [rewrite <- Esw; exact Hck|].
        split; [intros [|i] Hi; [exact Hc | rewrite <- Esw; apply Hbefore; lia]|].
        rewrite E, E1. rewrite Esw. reflexivity.
Qed.

Lemma np_bellman_lookup m g v s r q0 q1 :
  Binary64.reward m !! s = Some r →
  np_dot (Binary64.action_slice (Binary64.transition_probs m) 0) v !! s = Some q0 →
  np_dot (Binary64.action_slice (Binary64.transition_probs m) 1) v !! s = Some q1 →
  Binary64.bellman np_dot m g v !! s = Some (fadd r (fmul g (Binary64.maximum q0 q1))).
Proof.
  intros Hr H0 H1. unfold Binary64.bellman.
  rewrite lookup_zip_with, Hr. cbn [mbind option_bind].
  rewrite list_lookup_fmap, lookup_zip_with, H0. cbn [mbind option_bind].
  rewrite H1. reflexivity.
Qed.

Lemma np_bellman_without_duck m m2 g v :
  Binary64.reward m2 = Binary64.reward m →
  map (take 2) (Binary64.transition_probs m2) = map (take 2) (Binary64.transition_probs m) →
  Binary64.bellman np_dot m2 g v = Binary64.bellman np_dot m g v.
Proof.
  intros Hr HP. unfold Binary64.bellman.
  rewrite (action_slice_take (Binary64.transition_probs m2) 0),
    (action_slice_take (Binary64.transition_probs m2) 1),
    (action_slice_take (Binary64.transition_probs m) 0),
    (action_slice_take (Binary64.transition_probs m) 1) by lia.
  rewrite Hr, HP. reflexivity.
Qed.

Lemma length_np_sweeps m g k :
  Binary64.has_shape m = true →
  length (Binary64.sweeps np_dot m g k (Binary64.value m)) = length (Binary64.value m).
Proof.
  intros H. destruct (has_shape_lengths m H) as (_ & Hr & Hp).
  destruct k as [|k]; [reflexivity|].
  change (Binary64.sweeps np_dot m g (S k) (Binary64.value m))
    with (Binary64.bellman np_dot m g (Binary64.sweeps np_dot m g k (Binary64.value m))).
  rewrite length_np_bellman, Hr, Hp. apply Nat.min_id.
Qed.

(** C2, as the code has it.  One sweep sets every entry to
    [reward[s] + gamma * max(Q_none(s), Q_jump(s))], rounded operation by
    operation, where [Q_none] and [Q_jump] are the products [np.dot] gives
    for the rows of NONE and of JUMP: the rows of DUCK do not enter it.
    When the loop returns it has stored the sweep of a vector [u], itself
    reached by sweeps from the initial values, and every entry of the stored
    vector is within the tolerance of the entry of [u]. *)
Theorem value_iteration_within_tolerance (m : Binary64.MDP) (gamma tol : spec_float)
    (fuel : nat) (m' : Binary64.MDP) :
  Binary64.has_shape m = true →
  Binary64.value_iteration np_dot fuel gamma tol m = Ok m' →
  Binary64.transition_probs m' = Binary64.transition_probs m
  ∧ Binary64.reward m' = Binary64.reward m
  ∧ (∃ k u,
       (k < fuel)%nat ∧ u = Binary64.sweeps np_dot m gamma k (Binary64.value m)
       ∧ length u = length (Binary64.value m)
       ∧ length (Binary64.value m') = length (Binary64.value m)
       ∧ ∀ s, (s < length (Binary64.value m))%nat →
           ∃ x y r Q_none Q_jump,
             Binary64.value m' !! s = Some x ∧ u !! s = Some y
             ∧ Binary64.reward m !! s = Some r
             ∧ np_dot (Binary64.action_slice (Binary64.transition_probs m) 0) u !! s
               = Some Q_none
             ∧ np_dot (Binary64.action_slice (Binary64.transition_probs m) 1) u !! s
               = Some Q_jump
             ∧ x = fadd r (fmul gamma (Binary64.maximum Q_none Q_jump))
             ∧ fltb (Binary64.fabs (Binary64.fsub x y)) tol = true)
  ∧ (∀ m2 v,
       Binary64.reward m2 = Binary64.reward m →
       map (take 2) (Binary64.transition_probs m2)
       = map (take 2) (Binary64.transition_probs m) →
       Binary64.bellman np_dot m2 gamma v = Binary64.bellman np_dot m gamma v).
Proof.
  intros H Hvi.
  destruct (value_iteration_cases gamma tol fuel m H) as [[E _]|(k & Hk & Hc & _ & E)];
    [congruence|].
  rewrite E in Hvi. injection Hvi as <-.
  split; [reflexivity|]. split; [reflexivity|]. split.
  - exists k, (Binary64.sweeps np_dot m gamma k (Binary64.value m)).
    pose proof (length_np_sweeps m gamma k H) as Lu.
    pose proof (length_np_sweeps m gamma (S k) H) as Lv.
    destruct (has_shape_lengths m H) as (_ & Hr & Hp).
    split; [exact Hk|]. split; [reflexivity|]. split; [exact Lu|]. split; [exact Lv|].
    intros s Hs.
    set (u := Binary64.sweeps np_dot m gamma k (Binary64.value m)) in *.
    destruct (lookup_lt_is_Some_2 (Binary64.reward m) s ltac:(lia)) as [r Er].
    destruct (lookup_lt_is_Some_2 u s ltac:(lia)) as [y Ey].
    destruct (lookup_lt_is_Some_2
                (np_dot (Binary64.action_slice (Binary64.transition_probs m) 0) u) s)
      as [q0 E0].
    { rewrite np_dot_length. unfold Binary64.action_slice. rewrite length_map. lia. }
    destruct (lookup_lt_is_Some_2
                (np_dot (Binary64.action_slice (Binary64.transition_probs m) 1) u) s)
      as [q1 E1].
    { rewrite np_dot_length. unfold Binary64.action_slice. rewrite length_map. lia. }
    pose proof (np_bellman_lookup m gamma u s r q0 q1 Er E0 E1) as Ex.
    eexists _, y, r, q0, q1.
    cbn [Binary64.set_value Binary64.value].
    change (Binary64.sweeps np_dot m gamma (S k) (Binary64.value m))
      with (Binary64.bellman np_dot m gamma u).
    split; [exact Ex|]. repeat (split; [assumption|]).
    split; [reflexivity|]. apply (Hc s); assumption.
  - intros m2 v. apply np_bellman_without_duck.
Qed.

(** C3, as the code has it.  The loop has no cap and stops exactly at the
    first sweep that changes every entry by less than the tolerance: allowed
    [fuel] sweeps, it returns if and only if such a sweep is among them, with
    the vector of that sweep stored, and it is still running after [fuel]
    sweeps if and only if none of them was; it never raises. *)
Theorem value_iteration_stops_exactly (m : Binary64.MDP) (gamma tol : spec_float) :
  Binary64.has_shape m = true →
  (∀ fuel m',
     Binary64.value_iteration np_dot fuel gamma tol m = Ok m'
     ↔ ∃ k, (k < fuel)%nat
            ∧ Binary64.converged np_dot m gamma tol
                (Binary64.sweeps np_dot m gamma k (Binary64.value m))
            ∧ (∀ i, (i < k)%nat →
                 ¬ Binary64.converged np_dot m gamma tol
                     (Binary64.sweeps np_dot m gamma i (Binary64.value m)))
            ∧ m' = Binary64.set_value m
                     (Binary64.sweeps np_dot m gamma (S k) (Binary64.value m)))
  ∧ (∀ fuel,
       Binary64.value_iteration np_dot fuel gamma tol m = OutOfFuel
       ↔ ∀ k, (k < fuel)%nat →
            ¬ Binary64.converged np_dot m gamma tol
                (Binary64.sweeps np_dot m gamma k (Binary64.value m)))
  ∧ (∀ fuel e, Binary64.value_iteration np_dot fuel gamma tol m ≠ Raise e).
Proof.
  intros H. split; [|split].
  - intros fuel m'. split.
    + intros Hvi.
      destruct (value_iteration_cases gamma tol fuel m H) as [[E _]|(k & Hk & Hc & Hb & E)];
        [congruence|].
      exists k. rewrite E in Hvi. injection Hvi as <-. auto.
    + intros (k & Hk & Hc & Hb & ->).
      destruct (value_iteration_cases gamma tol fuel m H)
        as [[_ Hall]|(k' & Hk' & Hc' & Hb' & E)].
      * exfalso. exact (Hall k Hk Hc).
      * assert (k' = k) as ->.
        { destruct (Nat.lt_trichotomy k' k) as [Hlt|[Heq|Hlt]]; [|exact Heq|].
          - exfalso. exact (Hb k' Hlt Hc').
          - exfalso. exact (Hb' k Hlt Hc). }
        exact E.
  - intros fuel. split.
    + intros Hvi.
      destruct (value_iteration_cases gamma tol fuel m H) as [[_ Hall]|(k & _ & _ & _ & E)];
        [exact Hall | congruence].
    + intros Hall.
      destruct (value_iteration_cases gamma tol fuel m H) as [[E _]|(k & Hk & Hc & _ & _)];
        [exact E | exfalso; exact (Hall k Hk Hc)].
  - intros fuel e Hvi.
    destruct (value_iteration_cases gamma tol fuel m H) as [[E _]|(k & _ & _ & _ & E)];
      congruence.
Qed.

End Sweeps.

Lemma length_matvec M v : length (Binary64.matvec M v) = length M.
Proof. unfold Binary64.matvec. apply length_map. Qed.

Lemma value_iteration_within_tolerance_witness :
  ∃ m', Binary64.value_iteration Binary64.matvec 200
          (Binary64.arg_gamma Binary64.example_args)
          (fdiv (float_of_Z 1) (float_of_Z (10 ^ 14))) Binary64.swap_model = Ok m'
        ∧ Binary64.reward m' = Binary64.reward Binary64.swap_model.
Proof.
  assert (∃ m', Binary64.value_iteration Binary64.matvec 200
                  (Binary64.arg_gamma Binary64.example_args)
                  (fdiv (float_of_Z 1) (float_of_Z (10 ^ 14))) Binary64.swap_model = Ok m')
    as [m' E] by (eexists; vm_compute; reflexivity).
  exists m'. split; [exact E|].
  destruct (value_iteration_within_tolerance Binary64.matvec length_matvec
              Binary64.swap_model (Binary64.arg_gamma Binary64.example_args)
              (fdiv (float_of_Z 1) (float_of_Z (10 ^ 14))) 200 m') as (_ & Hr & _).
  - reflexivity.
  - exact E.
  - exact Hr.
Defined.

Lemma value_iteration_stops_exactly_witness :
  ∃ k m', (k < 200)%nat
    ∧ Binary64.value_iteration Binary64.matvec 200
        (Binary64.arg_gamma Binary64.example_args)
        (fdiv (float_of_Z 1) (float_of_Z (10 ^ 14))) Binary64.swap_model = Ok m'
    ∧ Binary64.converged Binary64.matvec Binary64.swap_model
        (Binary64.arg_gamma Binary64.example_args)
        (fdiv (float_of_Z 1) (float_of_Z (10 ^ 14)))
        (Binary64.sweeps Binary64.matvec Binary64.swap_model
           (Binary64.arg_gamma Binary64.example_args) k
           (Binary64.value Binary64.swap_model)).
Proof.
  assert (∃ m', Binary64.value_iteration Binary64.matvec 200
                  (Binary64.arg_gamma Binary64.example_args)
                  (fdiv (float_of_Z 1) (float_of_Z (10 ^ 14))) Binary64.swap_model = Ok m')
    as [m' E] by (eexists; vm_compute; reflexivity).
  destruct (value_iteration_stops_exactly Binary64.matvec length_matvec Binary64.swap_model
              (Binary64.arg_gamma Binary64.example_args)
              (fdiv (float_of_Z 1) (float_of_Z (10 ^ 14)))) as (Hok & _).
  - reflexivity.
  - destruct (proj1 (Hok 200%nat m') E) as (k & Hk & Hc & _).
    exists k, m'. auto.
Defined.

(** *** The loop that never returns *)

(** On the two-state model, with discount 0.75, the sweeps started from
    (0, 10) enter a cycle of length two after 125 sweeps, and no sweep
    changes both entries by less than 1e-15. *)
Lemma swap_model_cycles k :
  ¬ Binary64.converged Binary64.matvec Binary64.swap_model (Binary64.arg_gamma Binary64.example_args)
      (Binary64.arg_tolerance Binary64.example_args)
      (Binary64.sweeps Binary64.matvec Binary64.swap_model (Binary64.arg_gamma Binary64.example_args) k
         (Binary64.value Binary64.swap_model)).
Proof.
  set (g := Binary64.arg_gamma Binary64.example_args).
  set (tol := Binary64.arg_tolerance Binary64.example_args).
  assert (Binary64.has_shape Binary64.swap_model = true) as H by reflexivity.
  assert (Binary64.value_iteration Binary64.matvec 127 g tol Binary64.swap_model = OutOfFuel) as E
    by (vm_compute; reflexivity).
  assert (Binary64.sweeps Binary64.matvec Binary64.swap_model g 127 (Binary64.value Binary64.swap_model)
          = Binary64.sweeps Binary64.matvec Binary64.swap_model g 125 (Binary64.value Binary64.swap_model))
    as Ecycle by (vm_compute; reflexivity).
  destruct (value_iteration_cases Binary64.matvec length_matvec g tol 127 Binary64.swap_model H)
    as [[_ Hall]|(k' & _ & _ & _ & E')]; [|congruence].
  induction k as [k IH] using lt_wf_ind.
  destruct (Nat.lt_ge_cases k 127) as [Hk|Hk]; [apply Hall, Hk|].
  replace k with ((k - 127) + 127)%nat by lia.
  rewrite np_sweeps_add, Ecycle, <- np_sweeps_add. apply IH. lia.
Qed.

(** C2 as stated fails in binary64: with discount 0.75 and tolerance 1e-15,
    on the two-state model started from (0, 10), no sweep ever brings the
    vector within the tolerance of its own update. *)
Lemma sweeps_never_within_tolerance :
  Binary64.never_within_tolerance Binary64.matvec
    (Binary64.arg_gamma Binary64.example_args)
    (Binary64.arg_tolerance Binary64.example_args) Binary64.swap_model.
Proof.
  intros k. pose proof (swap_model_cycles k) as Hk.
  set (u := Binary64.sweeps Binary64.matvec Binary64.swap_model (Binary64.arg_gamma Binary64.example_args) k
              (Binary64.value Binary64.swap_model)) in *.
  set (v := Binary64.bellman Binary64.matvec Binary64.swap_model (Binary64.arg_gamma Binary64.example_args) u)
    in *.
  assert (length u = 2%nat) as Lu
    by (apply (length_np_sweeps Binary64.matvec length_matvec Binary64.swap_model _ k);
        reflexivity).
  assert (length v = 2%nat) as Lv
    by (unfold v; rewrite (length_np_bellman Binary64.matvec length_matvec); reflexivity).
  destruct u as [|y0 [|y1 [|? ?]]]; try discriminate.
  destruct v as [|x0 [|x1 [|? ?]]] eqn:Ev; try discriminate.
  destruct (fltb (Binary64.fabs (Binary64.fsub x0 y0))
              (Binary64.arg_tolerance Binary64.example_args)) eqn:E0;
    [|exists 0%nat, x0, y0; auto].
  destruct (fltb (Binary64.fabs (Binary64.fsub x1 y1))
              (Binary64.arg_tolerance Binary64.example_args)) eqn:E1;
    [|exists 1%nat, x1, y1; auto].
  exfalso. apply Hk. unfold Binary64.converged. fold v. rewrite Ev.
  intros [|[|s]] x y Hx Hy; try discriminate;
    injection Hx as <-; injection Hy as <-; assumption.
Qed.

(** C3 as stated fails in binary64: on the same input the loop never
    returns, however many sweeps it is allowed. *)
Lemma value_iteration_never_returns :
  Binary64.never_returns Binary64.matvec
    (Binary64.arg_gamma Binary64.example_args)
    (Binary64.arg_tolerance Binary64.example_args) Binary64.swap_model.
Proof.
  intros fuel.
  destruct (value_iteration_cases Binary64.matvec length_matvec
              (Binary64.arg_gamma Binary64.example_args)
              (Binary64.arg_tolerance Binary64.example_args) fuel Binary64.swap_model
              eq_refl) as [[E _]|(k & _ & Hc & _)]; [exact E|].
  exfalso. exact (swap_model_cycles k Hc).
Qed.
